(** * gcredstash: the credential-store driver (src/gcredstash/driver.go)

    A shallow embedding of the driver: the envelope (KMS data key, AES-CTR,
    HMAC-SHA256, base64 and hex persistence) and the versioned DynamoDB
    table operations, followed by the properties of the specification.

    Conventions.
    - A Go [[]byte] is a [list byte]; a Go [string] is a [string]; the
      conversions [[]byte(s)] and [string(b)] are [list_byte_of_string] and
      [string_of_list_byte].
    - A Go function returning [(T, error)] returns [outcome T]: [Ok v] for
      [v, nil], [Err e] for [_, err] with [err.Error() = e], and [Panic e]
      when the function leaves through [panic].  The value returned next to
      a non-nil error (["", -1, nil]) is never read by a caller and is not
      kept.
    - Functions that talk to DynamoDB thread a [World].
    - [int] is 64 bits wide. *)

From Stdlib Require Import ZArith NArith Ascii String List Bool Lia.
From Stdlib Require Import Strings.Byte DecimalString Sorting.Sorted Permutation.
From stdpp Require Import base tactics option list gmap strings sorting.

Local Open Scope string_scope.
Local Open Scope Z_scope.

(** ** Results of Go calls *)

Inductive outcome (A : Type) : Type :=
| Ok (a : A)
| Err (e : string)
| Panic (e : string).
Arguments Ok {A} a.
Arguments Err {A} e.
Arguments Panic {A} e.

Definition obind {A B} (m : outcome A) (k : A → outcome B) : outcome B :=
  match m with
  | Ok a => k a
  | Err e => Err e
  | Panic e => Panic e
  end.

Definition is_Ok {A} (m : outcome A) : bool :=
  match m with Ok _ => true | _ => false end.

Definition is_Panic {A} (m : outcome A) : bool :=
  match m with Panic _ => true | _ => false end.

(** ** Bytes *)

#[global] Instance byte_eq_dec : EqDecision byte := Byte.byte_eq_dec.

Definition byte_of_N (n : N) : byte :=
  match Byte.of_N n with Some b => b | None => x00 end.

Definition byte_xor (a b : byte) : byte :=
  let '(a0, (a1, (a2, (a3, (a4, (a5, (a6, a7))))))) := Byte.to_bits a in
  let '(b0, (b1, (b2, (b3, (b4, (b5, (b6, b7))))))) := Byte.to_bits b in
  Byte.of_bits (xorb a0 b0, (xorb a1 b1, (xorb a2 b2, (xorb a3 b3,
               (xorb a4 b4, (xorb a5 b5, (xorb a6 b6, xorb a7 b7))))))).

(** ** strings.Contains *)

Fixpoint Contains (s substr : string) : bool :=
  if String.prefix substr s then true
  else match s with
       | EmptyString => false
       | String _ s' => Contains s' substr
       end.

(** ** fmt's %d and strconv.Atoi *)

Definition fmt_d (n : Z) : string := NilZero.string_of_int (Z.to_int n).

Definition digit_of_ascii (c : ascii) : option Z :=
  let n := Z.of_N (N_of_ascii c) in
  if (48 <=? n) && (n <=? 57) then Some (n - 48) else None.

(** The digits of [s] read in base ten onto the accumulator [acc]; [None]
    at the first byte that is not a digit. *)
Fixpoint parse_digits (s : string) (acc : Z) : option Z :=
  match s with
  | EmptyString => Some acc
  | String c s' =>
      match digit_of_ascii c with
      | Some d => parse_digits s' (acc * 10 + d)
      | None => None
      end
  end.

Definition int_min : Z := - 2 ^ 63.
Definition int_max : Z := 2 ^ 63 - 1.

Definition dquote : string := String (ascii_of_nat 34) EmptyString.

Definition atoi_syntax (s : string) : string :=
  "strconv.Atoi: parsing " +:+ dquote +:+ s +:+ dquote +:+ ": invalid syntax".
Definition atoi_range (s : string) : string :=
  "strconv.Atoi: parsing " +:+ dquote +:+ s +:+ dquote +:+ ": value out of range".

(** strconv.Atoi: an optional sign, then at least one decimal digit and
    nothing else; the value has to fit an [int].  ([Err] only, it never
    panics.) *)
Definition Atoi (s : string) : outcome Z :=
  let '(neg, body) :=
    match s with
    | String "-" r => (true, r)
    | String "+" r => (false, r)
    | _ => (false, s)
    end in
  match body with
  | EmptyString => Err (atoi_syntax s)
  | _ =>
      match parse_digits body 0 with
      | None => Err (atoi_syntax s)
      | Some n =>
          let v := if neg then - n else n in
          if (int_min <=? v) && (v <=? int_max) then Ok v
          else Err (atoi_range s)
      end
  end.

(** ** encoding/hex *)

Definition hexdigit (n : N) : ascii :=
  if (n <? 10)%N then ascii_of_N (48 + n) else ascii_of_N (87 + n).

Definition fromHexChar (c : ascii) : option N :=
  let n := N_of_ascii c in
  if ((48 <=? n) && (n <=? 57))%N then Some (n - 48)%N
  else if ((97 <=? n) && (n <=? 102))%N then Some (n - 87)%N
  else if ((65 <=? n) && (n <=? 70))%N then Some (n - 55)%N
  else None.

Fixpoint hex_EncodeToString (src : list byte) : string :=
  match src with
  | [] => EmptyString
  | b :: r =>
      let n := Byte.to_N b in
      String (hexdigit (n / 16)) (String (hexdigit (n mod 16)) (hex_EncodeToString r))
  end.

(** The errors of the decoder.  Go's message for a bad digit goes on
    with the digit it met; that part is left out. *)
Definition hex_ErrLength : string := "encoding/hex: odd length hex string".
Definition hex_InvalidByte : string := "encoding/hex: invalid byte".

(** hex.DecodeString: two digits (either case) per byte; the first bad
    digit or a dangling last digit is an error. *)
Fixpoint hex_DecodeString (s : string) : outcome (list byte) :=
  match s with
  | EmptyString => Ok []
  | String p EmptyString =>
      match fromHexChar p with
      | Some _ => Err hex_ErrLength
      | None => Err hex_InvalidByte
      end
  | String p (String q r) =>
      match fromHexChar p, fromHexChar q with
      | Some a, Some b =>
          obind (hex_DecodeString r) (λ bs, Ok (byte_of_N (a * 16 + b) :: bs))
      | _, _ => Err hex_InvalidByte
      end
  end.

(** ** encoding/base64, StdEncoding *)

Definition b64char (n : N) : ascii :=
  if (n <? 26)%N then ascii_of_N (65 + n)
  else if (n <? 52)%N then ascii_of_N (71 + n)
  else if (n <? 62)%N then ascii_of_N (n - 4)
  else if (n =? 62)%N then "+"%char else "/"%char.

Definition b64val (c : ascii) : option N :=
  let n := N_of_ascii c in
  if ((65 <=? n) && (n <=? 90))%N then Some (n - 65)%N
  else if ((97 <=? n) && (n <=? 122))%N then Some (n - 71)%N
  else if ((48 <=? n) && (n <=? 57))%N then Some (n + 4)%N
  else if (n =? 43)%N then Some 62%N
  else if (n =? 47)%N then Some 63%N
  else None.

Definition is_pad (c : ascii) : bool := (N_of_ascii c =? 61)%N.
Definition is_newline (c : ascii) : bool :=
  ((N_of_ascii c =? 10) || (N_of_ascii c =? 13))%N.

Fixpoint b64_encode (src : list byte) : list ascii :=
  match src with
  | [] => []
  | [a] =>
      let x := Byte.to_N a in
      [b64char (x / 4); b64char ((x mod 4) * 16); "="%char; "="%char]
  | [a; b] =>
      let x := Byte.to_N a in
      let y := Byte.to_N b in
      [b64char (x / 4); b64char ((x mod 4) * 16 + y / 16);
       b64char ((y mod 16) * 4); "="%char]
  | a :: b :: c :: r =>
      let x := Byte.to_N a in
      let y := Byte.to_N b in
      let z := Byte.to_N c in
      b64char (x / 4) :: b64char ((x mod 4) * 16 + y / 16)
        :: b64char ((y mod 16) * 4 + z / 64) :: b64char (z mod 64)
        :: b64_encode r
  end%N.

Definition base64_EncodeToString (src : list byte) : string :=
  string_of_list_ascii (b64_encode src).

(** The error of the decoder.  Go's message goes on with the offset of
    the input byte it met; that part is left out. *)
Definition base64_Corrupt : string := "illegal base64 data".

(** The quanta of a padded base64 text: four alphabet characters give
    three bytes; the last quantum may end in one or two padding
    characters; left-over bits of a padded quantum are dropped. *)
Fixpoint b64_decode (l : list ascii) : outcome (list byte) :=
  match l with
  | [] => Ok []
  | c1 :: c2 :: c3 :: c4 :: r =>
      match b64val c1, b64val c2 with
      | Some s1, Some s2 =>
          let b1 := byte_of_N (s1 * 4 + s2 / 16) in
          match b64val c3, b64val c4 with
          | Some s3, Some s4 =>
              let b2 := byte_of_N ((s2 mod 16) * 16 + s3 / 4) in
              let b3 := byte_of_N ((s3 mod 4) * 64 + s4) in
              obind (b64_decode r) (λ bs, Ok (b1 :: b2 :: b3 :: bs))
          | Some s3, None =>
              let b2 := byte_of_N ((s2 mod 16) * 16 + s3 / 4) in
              match r with
              | [] => if is_pad c4 then Ok [b1; b2] else Err base64_Corrupt
              | _ => Err base64_Corrupt
              end
          | None, _ =>
              match r with
              | [] => if is_pad c3 && is_pad c4 then Ok [b1]
                      else Err base64_Corrupt
              | _ => Err base64_Corrupt
              end
          end
      | _, _ => Err base64_Corrupt
      end
  | _ => Err base64_Corrupt
  end%N.

(** base64.StdEncoding.DecodeString: carriage returns and line feeds are
    skipped, the rest is decoded quantum by quantum. *)
Definition base64_DecodeString (s : string) : outcome (list byte) :=
  b64_decode (filter (λ c, is_newline c = false) (list_ascii_of_string s)).


(** ** Cryptographic primitives

    The block cipher behind [aes.NewCipher] and the keyed hash behind
    [hmac.New(sha256.New, key)] are the two operations of the Go standard
    library the driver is parametric in. *)

Class Primitives := {
  (** [aes_encrypt key block]: cipher.Block.Encrypt of the AES instance
      made from [key]. *)
  aes_encrypt : list byte → list byte → list byte;
  (** [hmac_sha256 key message]: the HMAC-SHA256 tag. *)
  hmac_sha256 : list byte → list byte → list byte;
}.

(** AES has 16-byte blocks. *)
Definition BlockSize : nat := 16.
Definition block_size_ok {P : Primitives} : Prop :=
  ∀ key block, length (aes_encrypt key block) = BlockSize.

(** The counter of cipher.NewCTR: a big-endian increment of the whole
    block, written on the reversed (little-endian) counter. *)
Fixpoint incr_le (ctr : list byte) : list byte :=
  match ctr with
  | [] => []
  | b :: r =>
      if decide (b = xff) then x00 :: incr_le r
      else byte_of_N (Byte.to_N b + 1) :: r
  end.

Definition ctr_incr (ctr : list byte) : list byte := rev (incr_le (rev ctr)).

(** [n] blocks of key stream from counter [ctr]. *)
Fixpoint keystream (block : list byte → list byte) (ctr : list byte)
    (n : nat) : list byte :=
  match n with
  | O => []
  | S n' => block ctr ++ keystream block (ctr_incr ctr) n'
  end.

(** stream.XORKeyStream(dst, src) on a fresh CTR stream; [dst] has the
    length of [src]. *)
Definition XORKeyStream (block : list byte → list byte) (iv src : list byte)
    : list byte :=
  zip_with byte_xor src
    (keystream block iv ((length src + BlockSize - 1) / BlockSize)%nat).

Section crypto.
Context {P : Primitives}.

(** aes.NewCipher: keys of 16, 24 or 32 bytes only. *)
Definition aes_NewCipher (key : list byte)
    : outcome (list byte → list byte) :=
  let k := length key in
  if decide (k = 16 ∨ k = 24 ∨ k = 32)%nat then Ok (aes_encrypt key)
  else Err ("crypto/aes: invalid key size " +:+ fmt_d (Z.of_nat k)).

Definition doHmac (message key : list byte) : list byte :=
  hmac_sha256 key message.

(** hmac.Equal is a constant-time comparison: true exactly on equal
    slices. *)
Definition hmac_Equal (a b : list byte) : bool := bool_decide (a = b).

Definition checkMAC (message : list byte) (hmacStr : string)
    (key : list byte) : outcome bool :=
  let expectedMAC := doHmac message key in
  match hex_DecodeString hmacStr with
  | Ok messageMAC => Ok (hmac_Equal messageMAC expectedMAC)
  | Err e | Panic e => Panic e
  end.

Definition iv : list byte :=
  [x00; x00; x00; x00; x00; x00; x00; x00;
   x00; x00; x00; x00; x00; x00; x00; x01].

Definition cryptAES (contents key : list byte) : outcome (list byte) :=
  match aes_NewCipher key with
  | Ok block => Ok (XORKeyStream block iv contents)
  | Err e | Panic e => Panic e
  end.
End crypto.

(** Go's slice expressions [s[:n]] and [s[n:]]; out of range they panic
    (the capacity of a slice is taken to be its length; the bounds Go's
    message goes on with are left out). *)
Definition slice_bounds : string := "runtime error: slice bounds out of range".
Definition slice_to (n : nat) (s : list byte) : outcome (list byte) :=
  if decide (n ≤ length s)%nat then Ok (take n s) else Panic slice_bounds.
Definition slice_from (n : nat) (s : list byte) : outcome (list byte) :=
  if decide (n ≤ length s)%nat then Ok (drop n s) else Panic slice_bounds.

(** ** The key-management service *)

Record GenerateDataKeyInput := {
  gk_KeyId : string;
  gk_NumberOfBytes : Z;
  gk_EncryptionContext : option (gmap string string);
}.
Record GenerateDataKeyOutput := {
  gk_Plaintext : list byte;
  gk_CiphertextBlob : list byte;
}.
Record DecryptInput := {
  dc_CiphertextBlob : list byte;
  dc_EncryptionContext : option (gmap string string);
}.
Record DecryptOutput := { dc_Plaintext : list byte }.

(** The two calls the driver makes on the KMS client; each returns a
    response or an error. *)
Class KMS := {
  kms_GenerateDataKey : GenerateDataKeyInput → outcome GenerateDataKeyOutput;
  kms_Decrypt : DecryptInput → outcome DecryptOutput;
}.

(** ** The table service

    DynamoDB as the driver uses it.  An item is the map of its
    string-typed attributes.  A table maps the composite key (hash key
    [name], range key [version]) to the remaining attributes of the item
    stored there; a read gives the whole item back.  A request names its
    table and carries the parameters the driver sets; the expressions
    [#name = :name] and [attribute_not_exists(#name)] are kept as the
    attribute and the value they stand for.  A response is complete (the
    driver asks for one page and a scan or query is taken to fit in one),
    and reads see the writes before them, so [ConsistentRead] changes
    nothing here.  Whatever makes a request fail other than a missing
    table, a missing key attribute or the condition of a put (transport,
    throttling, a request the service rejects) is an entry of [faults]. *)

Record World := {
  tables : gmap string (gmap (string * string) (gmap string string));
  (** What the next calls on the table service meet: [Some e] makes the
      call fail with [e] (transport or service failure), [None] lets it
      through; past the end of the list every call goes through. *)
  faults : list (option string);
  (** The lines written with fmt.Printf. *)
  stdout : list string;
}.

Definition M (A : Type) : Type := World → outcome A * World.

#[global] Instance M_ret : MRet M := λ A a w, (Ok a, w).
#[global] Instance M_bind : MBind M := λ A B k m w,
  match m w with
  | (Ok a, w') => k a w'
  | (Err e, w') => (Err e, w')
  | (Panic e, w') => (Panic e, w')
  end.

Definition lift {A} (r : outcome A) : M A := λ w, (r, w).
Definition throw {A} (e : string) : M A := lift (Err e).
Definition panic {A} (e : string) : M A := lift (Panic e).

(** [err := f(...)] for a function that returns only an error. *)
Definition err_of (m : M unit) : M (option string) := λ w,
  match m w with
  | (Ok _, w') => (Ok None, w')
  | (Err e, w') => (Ok (Some e), w')
  | (Panic e, w') => (Panic e, w')
  end.

Definition Printf (line : string) : M unit := λ w,
  (Ok tt, {| tables := tables w; faults := faults w;
             stdout := stdout w ++ [line] |}).

Definition ResourceNotFound : string :=
  "ResourceNotFoundException: Requested resource not found".
Definition ConditionalCheckFailed : string :=
  "ConditionalCheckFailedException: The conditional request failed".
Definition ValidationException : string :=
  "ValidationException: One of the required keys was not given a value".

(** The world once a request has been sent. *)
Definition advance (w : World) : World :=
  {| tables := tables w; faults := tail (faults w); stdout := stdout w |}.

Definition with_table (table : string)
    (t : gmap (string * string) (gmap string string)) (w : World) : World :=
  {| tables := <[table := t]> (tables w); faults := faults w;
     stdout := stdout w |}.

(** One request: the next entry of [faults] is consumed; the table has
    to exist; [op] gives the response and the table afterwards. *)
Definition request {A} (table : string)
    (op : gmap (string * string) (gmap string string) →
          outcome A * gmap (string * string) (gmap string string)) : M A :=
  λ w,
    match faults w with
    | Some e :: _ => (Err e, advance w)
    | _ =>
        match tables w !! table with
        | None => (Err ResourceNotFound, advance w)
        | Some t => let '(r, t') := op t in (r, with_table table t' (advance w))
        end
    end.

(** The next [n] requests meet no failure. *)
Definition quiet (n : nat) (w : World) : bool :=
  forallb (λ f, bool_decide (f = None)) (take n (faults w)).

(** No request meets a failure. *)
Definition calm (w : World) : bool :=
  forallb (λ f, bool_decide (f = None)) (faults w).

Definition full_item (name version : string) (attrs : gmap string string)
    : gmap string string :=
  <["name" := name]> (<["version" := version]> attrs).

Definition project (proj : option (list string)) (it : gmap string string)
    : gmap string string :=
  match proj with
  | None => it
  | Some attrs => filter (λ kv, kv.1 ∈ attrs) it
  end.

(** The partition of hash key [name]: range key and attributes. *)
Definition partition_of (name : string)
    (t : gmap (string * string) (gmap string string))
    : list (string * gmap string string) :=
  omap (λ kv, if decide (kv.1.1 = name) then Some (kv.1.2, kv.2) else None)
       (map_to_list t).

(** The order of a partition: by range key, a string compared byte by
    byte; ascending when [fwd], else descending. *)
Definition by_version (fwd : bool) : relation (string * gmap string string) :=
  λ a b, if fwd then String.le a.1 b.1 else String.le b.1 a.1.

#[global] Instance by_version_dec fwd : RelDecision (by_version fwd).
Proof. intros a b. unfold by_version. destruct fwd; apply _. Defined.

Record QueryInput := {
  q_TableName : string;
  q_Limit : option nat;
  q_ConsistentRead : bool;
  q_ScanIndexForward : bool;
  (** the value bound to the hash key by the key condition
      [#name = :name] *)
  q_name : string;
  q_ProjectionExpression : option (list string);
}.
Record QueryOutput := { q_Count : Z; q_Items : list (gmap string string) }.

Definition ddb_Query (p : QueryInput) : M QueryOutput :=
  request (q_TableName p) (λ t,
    let rows := merge_sort (by_version (q_ScanIndexForward p))
                  (partition_of (q_name p) t) in
    let rows := match q_Limit p with Some n => take n rows | None => rows end in
    (Ok {| q_Count := Z.of_nat (length rows);
           q_Items := (λ r, project (q_ProjectionExpression p)
                              (full_item (q_name p) r.1 r.2)) <$> rows |}, t)).

Record GetItemInput := { g_TableName : string; g_name : string; g_version : string }.
Record GetItemOutput := { g_Item : option (gmap string string) }.

Definition ddb_GetItem (p : GetItemInput) : M GetItemOutput :=
  request (g_TableName p) (λ t,
    (Ok {| g_Item := full_item (g_name p) (g_version p)
                       <$> t !! (g_name p, g_version p) |}, t)).

Record PutItemInput := {
  p_TableName : string;
  p_Item : gmap string string;
  (** [attribute_not_exists(a)] for [Some a] *)
  p_ConditionNotExists : option string;
}.

Definition ddb_PutItem (p : PutItemInput) : M unit :=
  request (p_TableName p) (λ t,
    match p_Item p !! "name", p_Item p !! "version" with
    | Some n, Some v =>
        let holds :=
          match p_ConditionNotExists p, t !! (n, v) with
          | Some a, Some old => bool_decide (full_item n v old !! a = None)
          | _, _ => true
          end in
        if holds then
          (Ok tt, <[(n, v) := delete "name" (delete "version" (p_Item p))]> t)
        else (Err ConditionalCheckFailed, t)
    | _, _ => (Err ValidationException, t)
    end).

Record ScanInput := {
  s_TableName : string;
  s_ProjectionExpression : option (list string);
  (** [Some (a, v)]: the filter [a = v] *)
  s_Filter : option (string * string);
}.
Record ScanOutput := { s_Count : Z; s_Items : list (gmap string string) }.

Definition ddb_Scan (p : ScanInput) : M ScanOutput :=
  request (s_TableName p) (λ t,
    let all := (λ kv, full_item kv.1.1 kv.1.2 kv.2) <$> map_to_list t in
    let hits :=
      match s_Filter p with
      | Some (a, v) => filter (λ it, it !! a = Some v) all
      | None => all
      end in
    (Ok {| s_Count := Z.of_nat (length hits);
           s_Items := project (s_ProjectionExpression p) <$> hits |}, t)).

Record DeleteItemInput := { d_TableName : string; d_name : string; d_version : string }.

Definition ddb_DeleteItem (p : DeleteItemInput) : M unit :=
  request (d_TableName p) (λ t, (Ok tt, delete (d_name p, d_version p) t)).

(** [*it[a].S]: the attribute has to be there. *)
Definition nil_deref : string :=
  "runtime error: invalid memory address or nil pointer dereference".
Definition attrS (it : gmap string string) (a : string) : outcome string :=
  match it !! a with
  | Some s => Ok s
  | None => Panic nil_deref
  end.

(** ** The driver *)

(** The encryption context handed to the KMS: left nil for an empty
    [context], else a copy of it, entry by entry. *)
Definition encryption_context (context : gmap string string)
    : option (gmap string string) :=
  if decide (0 < size context)%nat
  then Some (map_fold (λ key value encCtx, <[key := value]> encCtx) ∅ context)
  else None.

Definition not_found (name : string) : string :=
  "Item {'name': '" +:+ name +:+ "'} couldn't be found.".
Definition not_found_version (name : string) (ver : Z) : string :=
  "Item {'name': '" +:+ name +:+ "', 'version': " +:+ fmt_d ver
    +:+ "} couldn't be found.".
Definition index_out_of_range : string := "runtime error: index out of range".

Section driver.
Context {P : Primitives} {K : KMS}.

(** The order in which [range] visits the entries of a Go map; the
    language leaves it open.  The maps of [getDeleteSecrets] are keyed
    by the pointers of the response, one entry per item. *)
Variable range_order : list (string * string) → list (string * string).

Definition getMaterial (name version table : string)
    : M (gmap string string) :=
  if decide (version = "") then
    resp ← ddb_Query {| q_TableName := table; q_Limit := Some 1%nat;
                        q_ConsistentRead := true;
                        q_ScanIndexForward := false;
                        q_name := name;
                        q_ProjectionExpression := None |};
    if q_Count resp =? 0 then throw (not_found name)
    else match q_Items resp with
         | material :: _ => mret material
         | [] => panic index_out_of_range
         end
  else
    resp ← ddb_GetItem {| g_TableName := table; g_name := name;
                          g_version := version |};
    match g_Item resp with
    | None => throw (not_found name)
    | Some material => mret material
    end.

Definition decrypt_no_context (name : string) : string :=
  name +:+ ": Could not decrypt hmac key with KMS. The credential may require that an encryption context be provided to decrypt it.".
Definition decrypt_wrong_context (name : string) : string :=
  name +:+ ": Could not decrypt hmac key with KMS. The encryption context provided may not match the one used when the credential was stored.".
Definition hmac_mismatch (name : string) : string :=
  "Computed HMAC on " +:+ name +:+ " does not match stored HMAC".

Definition decryptMaterial (name : string) (material : gmap string string)
    (context : gmap string string) : outcome string :=
  obind (attrS material "key") (λ keyS,
  match base64_DecodeString keyS with
  | Err e | Panic e => Panic e
  | Ok data =>
      let params := {| dc_CiphertextBlob := data;
                       dc_EncryptionContext := encryption_context context |} in
      match kms_Decrypt params with
      | Panic e => Panic e
      | Err e =>
          if Contains e "InvalidCiphertextException" then
            if decide (size context < 1)%nat
            then Err (decrypt_no_context name)
            else Err (decrypt_wrong_context name)
          else Err e
      | Ok resp =>
          obind (slice_to 32 (dc_Plaintext resp)) (λ key,
          obind (slice_from 32 (dc_Plaintext resp)) (λ hmacKey,
          obind (attrS material "contents") (λ contentsS,
          obind (base64_DecodeString contentsS) (λ contents,
          obind (attrS material "hmac") (λ hmacS,
          obind (checkMAC contents hmacS hmacKey) (λ ok,
          if negb ok then Err (hmac_mismatch name)
          else
            obind (cryptAES contents key) (λ plainText,
            Ok (string_of_list_byte plainText))))))))
      end
  end).

Definition GetHighestVersion (name table : string) : M Z :=
  resp ← ddb_Query {| q_TableName := table; q_Limit := Some 1%nat;
                      q_ConsistentRead := true;
                      q_ScanIndexForward := false;
                      q_name := name;
                      q_ProjectionExpression := Some ["version"] |};
  if q_Count resp =? 0 then mret 0
  else match q_Items resp with
       | [] => panic index_out_of_range
       | item :: _ =>
           version ← lift (attrS item "version");
           match Atoi version with
           | Ok ver => mret ver
           | Err e | Panic e => panic e
           end
       end.

Definition generateDataKey (kmsKey : string) (context : gmap string string)
    : outcome GenerateDataKeyOutput :=
  let params := {| gk_KeyId := kmsKey; gk_NumberOfBytes := 64;
                   gk_EncryptionContext := encryption_context context |} in
  match kms_GenerateDataKey params with
  | Ok resp => Ok resp
  | Err _ => Err ("Could not generate key using KMS key " +:+ kmsKey)
  | Panic e => Panic e
  end.

Definition putItem (name version : string) (key contents hmac : list byte)
    (table : string) : M unit :=
  let b64key := base64_EncodeToString key in
  let b64contents := base64_EncodeToString contents in
  let hexHmac := hex_EncodeToString hmac in
  ddb_PutItem {| p_TableName := table;
                 p_Item := <["name" := name]> (<["version" := version]>
                           (<["key" := b64key]> (<["contents" := b64contents]>
                           (<["hmac" := hexHmac]> ∅))));
                 p_ConditionNotExists := Some "name" |}.

(** The entries of the map of [getDeleteSecrets], in the order of the
    response. *)
Fixpoint collect (items : list (gmap string string))
    : outcome (list (string * string)) :=
  match items with
  | [] => Ok []
  | i :: rest =>
      obind (attrS i "name") (λ n,
      obind (attrS i "version") (λ v,
      obind (collect rest) (λ acc, Ok ((n, v) :: acc))))
  end.

Definition getDeleteSecrets (name version table : string)
    : M (list (string * string)) :=
  if decide (version = "") then
    resp ← ddb_Scan {| s_TableName := table;
                       s_ProjectionExpression := Some ["name"; "version"];
                       s_Filter := Some ("name", name) |};
    if s_Count resp =? 0 then throw (not_found name)
    else lift (collect (s_Items resp))
  else
    resp ← ddb_GetItem {| g_TableName := table; g_name := name;
                          g_version := version |};
    match g_Item resp with
    | None =>
        match Atoi version with
        | Ok ver => throw (not_found_version name ver)
        | Err e | Panic e => panic e
        end
    | Some item => lift (collect [item])
    end.

Definition deleteItem (name version table : string) : M unit :=
  ddb_DeleteItem {| d_TableName := table; d_name := name;
                    d_version := version |}.

Definition deleting (name : string) (ver : Z) : string :=
  "Deleting " +:+ name +:+ " -- version " +:+ fmt_d ver
    +:+ String (ascii_of_nat 10) EmptyString.

(** The body of the [for ... range items] loop of DeleteSecrets. *)
Fixpoint delete_each (items : list (string * string)) (table : string)
    : M unit :=
  match items with
  | [] => mret tt
  | (name, version) :: rest =>
      deleteItem name version table ;;
      match Atoi version with
      | Ok ver => Printf (deleting name ver) ;; delete_each rest table
      | Err e | Panic e => panic e
      end
  end.

Definition DeleteSecrets (name version table : string) : M unit :=
  items ← getDeleteSecrets name version table;
  delete_each (range_order items) table.

Definition already_stored (name : string) (latestVersion : Z) : string :=
  name +:+ " version " +:+ fmt_d latestVersion
    +:+ " is already in the credential store. Use the -v flag to specify a new version".

Definition PutSecret (name secret version kmsKey table : string)
    (context : gmap string string) : M unit :=
  kmsResp ← lift (generateDataKey kmsKey context);
  dataKey ← lift (slice_to 32 (gk_Plaintext kmsResp));
  hmacKey ← lift (slice_from 32 (gk_Plaintext kmsResp));
  let wrappedKey := gk_CiphertextBlob kmsResp in
  cipherText ← lift (cryptAES (list_byte_of_string secret) dataKey);
  let hmac := doHmac cipherText hmacKey in
  err ← err_of (putItem name version wrappedKey cipherText hmac table);
  match err with
  | Some e =>
      if Contains e "ConditionalCheckFailedException" then
        latestVersion ← GetHighestVersion name table;
        throw (already_stored name latestVersion)
      else throw e
  | None => mret tt
  end.

Definition GetSecret (name version table : string)
    (context : gmap string string) : M string :=
  material ← getMaterial name version table;
  plainText ← lift (decryptMaterial name material context);
  mret plainText.

Definition ListSecrets (table : string) : M (list (string * string)) :=
  resp ← ddb_Scan {| s_TableName := table;
                     s_ProjectionExpression := Some ["name"; "version"];
                     s_Filter := None |};
  lift (collect (s_Items resp)).
End driver.

(** ** Creating the table (isTableExits, createTable,
    waitUntilTableExists, CreateDdbTable)

    Requests on the service as a whole.  A table is usable as soon as it
    is created; the time the service takes and the pause between two
    polls of the waiter are left out.  Tables here have the one key schema
    the driver asks for (hash key [name], range key [version], both
    strings); CreateTable with another schema is refused. *)

Definition ResourceInUse : string :=
  "ResourceInUseException: Table already exists".
Definition ResourceNotReady : string :=
  "ResourceNotReady: exceeded wait attempts".
Definition SchemaRefused : string :=
  "ValidationException: One or more parameter values were invalid".

Record CreateTableInput := {
  c_TableName : string;
  c_KeySchema : list (string * string);
  c_AttributeDefinitions : list (string * string);
  c_ReadCapacityUnits : Z;
  c_WriteCapacityUnits : Z;
}.

Definition driver_schema (p : CreateTableInput) : bool :=
  bool_decide (c_KeySchema p = [("name", "HASH"); ("version", "RANGE")]) &&
  (bool_decide (c_AttributeDefinitions p = [("name", "S"); ("version", "S")])
   || bool_decide (c_AttributeDefinitions p
                   = [("version", "S"); ("name", "S")])).

Definition ddb_CreateTable (p : CreateTableInput) : M unit := λ w,
  match faults w with
  | Some e :: _ => (Err e, advance w)
  | _ =>
      if negb (driver_schema p) then (Err SchemaRefused, advance w)
      else
        match tables w !! c_TableName p with
        | Some _ => (Err ResourceInUse, advance w)
        | None => (Ok tt, with_table (c_TableName p) ∅ (advance w))
        end
  end.

(** request.EachPage under ListTablesPages: one request per page; an
    error of a request ends the walk with that error; the callback [fn]
    gets the page and whether it is the last one, updates the variables it
    captures ([s]) and says whether to go on. *)
Fixpoint EachPage {S : Type} (pages : list (list string))
    (fn : list string → bool → S → S * bool) (s : S) : M S :=
  match pages with
  | [] => mret s
  | page :: rest =>
      λ w,
        match faults w with
        | Some e :: _ => (Err e, advance w)
        | _ =>
            let '(s', shouldContinue) := fn page (bool_decide (rest = [])) s in
            if shouldContinue then EachPage rest fn s' (advance w)
            else (Ok s', advance w)
        end
  end.

(** The waiter of WaitUntilTableExists: up to [attempts] DescribeTable
    requests.  A table that is there ends the wait; a table that is not
    there (ResourceNotFoundException) is asked for again, and so is a
    request that fails with any other error, which no acceptor of the
    waiter matches; when the attempts are used up the waiter gives its own
    error. *)
Fixpoint wait_table (attempts : nat) (table : string) : M unit :=
  match attempts with
  | O => throw ResourceNotReady
  | S n =>
      λ w,
        match faults w with
        | Some _ :: _ => wait_table n table (advance w)
        | _ =>
            match tables w !! table with
            | Some _ => (Ok tt, advance w)
            | None => wait_table n table (advance w)
            end
        end
  end.

Definition ddb_WaitUntilTableExists (table : string) : M unit :=
  wait_table 25 table.

Definition newline : string := String (ascii_of_nat 10) EmptyString.

Definition Println (line : string) : M unit := Printf (line +:+ newline).

Section lifecycle.
(** How the service cuts the names of the tables into the pages of
    ListTables. *)
Variable paging : list string → list (list string).

Definition ddb_ListTablesPages {S : Type}
    (fn : list string → bool → S → S * bool) (s : S) : M S :=
  λ w, EachPage (paging (elements (dom (tables w)))) fn s w.

(** The loop of the callback of [isTableExits] over the names of a
    page. *)
Fixpoint page_has (table : string) (tableNames : list string) : bool :=
  match tableNames with
  | [] => false
  | tableName :: rest =>
      if decide (tableName = table) then true else page_has table rest
  end.

Definition isTableExits (table : string) : M bool :=
  ddb_ListTablesPages
    (λ page lastPage exist,
       if page_has table page then (true, false) else (exist, true))
    false.

Definition createTable (table : string) : M unit :=
  ddb_CreateTable {| c_TableName := table;
                     c_KeySchema := [("name", "HASH"); ("version", "RANGE")];
                     c_AttributeDefinitions := [("name", "S"); ("version", "S")];
                     c_ReadCapacityUnits := 1;
                     c_WriteCapacityUnits := 1 |}.

Definition waitUntilTableExists (table : string) : M unit :=
  ddb_WaitUntilTableExists table.

Definition table_exists_error (table : string) : string :=
  "Credential Store table already exists -- " +:+ table.

Definition CreateDdbTable (table : string) : M unit :=
  exist ← isTableExits table;
  if exist : bool then throw (table_exists_error table)
  else
    createTable table ;;
    Println "Creating table..." ;;
    Println "Waiting for table to be created..." ;;
    waitUntilTableExists table ;;
    Println "Table has been created. Go read the README about how to create your KMS key" ;;
    mret tt.
End lifecycle.

(** ** The list command (command/list.go) *)

(** utf8.RuneCountInString: a byte below 0x80, a byte that cannot start
    a sequence, and a sequence cut short or broken count as one rune each;
    a well-formed sequence of two, three or four bytes counts as one.
    [rune_size c rest] is the number of bytes the rune at [c] takes. *)
Definition continuation (lo hi : N) (b : N) : bool := ((lo <=? b) && (b <=? hi))%N.

Definition rune_size (c : N) (rest : list N) : nat :=
  let seq (size : nat) (lo hi : N) : nat :=
    match rest with
    | c1 :: rest1 =>
        if negb (continuation lo hi c1) then 1%nat
        else match size with
             | 2%nat => 2%nat
             | _ =>
                 match rest1 with
                 | c2 :: rest2 =>
                     if negb (continuation 128 191 c2) then 1%nat
                     else match size with
                          | 3%nat => 3%nat
                          | _ =>
                              match rest2 with
                              | c3 :: _ =>
                                  if negb (continuation 128 191 c3) then 1%nat
                                  else 4%nat
                              | [] => 1%nat
                              end
                          end
                 | [] => 1%nat
                 end
             end
    | [] => 1%nat
    end in
  if (c <? 128)%N then 1%nat
  else if (c <? 194)%N then 1%nat
  else if (c <? 224)%N then seq 2%nat 128%N 191%N
  else if (c =? 224)%N then seq 3%nat 160%N 191%N
  else if (c =? 237)%N then seq 3%nat 128%N 159%N
  else if (c <? 240)%N then seq 3%nat 128%N 191%N
  else if (c =? 240)%N then seq 4%nat 144%N 191%N
  else if (c <? 244)%N then seq 4%nat 128%N 191%N
  else if (c =? 244)%N then seq 4%nat 128%N 143%N
  else 1%nat.

(** [skip] bytes of the rune under way are still to pass. *)
Fixpoint count_runes (skip : nat) (s : list N) : nat :=
  match s with
  | [] => O
  | c :: rest =>
      match skip with
      | S k => count_runes k rest
      | O => S (count_runes (rune_size c rest - 1) rest)
      end
  end.

Definition RuneCountInString (s : string) : nat :=
  count_runes 0 (N_of_ascii <$> list_ascii_of_string s).

Fixpoint spaces (n : nat) : string :=
  match n with
  | O => EmptyString
  | S k => String " " (spaces k)
  end.

(** fmt's [%-*s] with a width that is not negative: the text, then
    blanks up to [width] runes. *)
Definition fmt_left (width : Z) (s : string) : string :=
  s +:+ spaces (Z.to_nat (width - Z.of_nat (RuneCountInString s))).

(** sort.Strings: ascending, strings compared byte by byte. *)
Definition sort_Strings (lines : list string) : list string :=
  merge_sort String.le lines.

(** The process next to the table service: what went to os.Stderr. *)
Record Console := { console_world : World; stderr : list string }.

Section list_command.
(** The orders of the two [range] loops over the map of the items. *)
Variable range_names : list (string * string) → list (string * string).
Variable range_items : list (string * string) → list (string * string).

(** The loop of [maxNameLen], over the entries as [range] gives them. *)
Definition maxNameLen_loop (entries : list (string * string)) : Z :=
  foldl (λ max_len entry,
           let name_len := Z.of_nat (String.length entry.1) in
           if max_len <? name_len then name_len else max_len)
        0 entries.

Definition maxNameLen (items : list (string * string)) : Z :=
  maxNameLen_loop (range_names items).

Definition list_line (max_len : Z) (name : string) (ver : Z) : string :=
  fmt_left max_len name +:+ " -- version: " +:+ fmt_d ver.

(** The loop of [Run] that renders the lines. *)
Fixpoint render (max_len : Z) (entries : list (string * string))
    (lines : list string) : outcome (list string) :=
  match entries with
  | [] => Ok lines
  | (name, version) :: rest =>
      match Atoi version with
      | Ok ver => render max_len rest (lines ++ [list_line max_len name ver])
      | Err e | Panic e => Panic e
      end
  end.

Fixpoint print_lines (lines : list string) : M unit :=
  match lines with
  | [] => mret tt
  | line :: rest => Println line ;; print_lines rest
  end.

Definition Run (table : string) (args : list string)
    : Console → outcome Z * Console :=
  λ c,
    match ListSecrets table (console_world c) with
    | (Err e, w) =>
        (Ok 1, {| console_world := w;
                  stderr := stderr c ++ ["error: " +:+ e +:+ newline] |})
    | (Panic e, w) => (Panic e, {| console_world := w; stderr := stderr c |})
    | (Ok items, w) =>
        let max_len := maxNameLen items in
        match render max_len (range_items items) [] with
        | Ok lines =>
            let '(r, w') := print_lines (sort_Strings lines) w in
            (match r with
             | Ok _ => Ok 0
             | Err e | Panic e => Panic e
             end, {| console_world := w'; stderr := stderr c |})
        | Err e | Panic e => (Panic e, {| console_world := w; stderr := stderr c |})
        end
    end.
End list_command.

(** ** Vocabulary of the properties *)

(** The record of [name] with the greatest range key. *)
Definition newest (name : string)
    (t : gmap (string * string) (gmap string string))
    (v : string) (a : gmap string string) : Prop :=
  t !! (name, v) = Some a ∧
  ∀ v' a', t !! (name, v') = Some a' → String.le v' v.

(** The rows a newest-first query of the partition goes through. *)
Definition newest_first (name : string)
    (t : gmap (string * string) (gmap string string))
    : list (string * gmap string string) :=
  merge_sort (by_version false) (partition_of name t).

(** The item [putItem] writes for a wrapped key, a ciphertext and a
    tag. *)
Definition record_item (name version : string)
    (key contents hmac : list byte) : gmap string string :=
  <["name" := name]> (<["version" := version]>
  (<["key" := base64_EncodeToString key]>
  (<["contents" := base64_EncodeToString contents]>
  (<["hmac" := hex_EncodeToString hmac]> ∅)))).

(** What [putItem] leaves under the key. *)
Definition stored (name version : string) (key contents hmac : list byte)
    : gmap string string :=
  delete "name" (delete "version" (record_item name version key contents hmac)).

(** The keys of the partition of [name], in the order of a scan. *)
Definition keys_of (name : string)
    (t : gmap (string * string) (gmap string string))
    : list (string * string) :=
  (λ r, (name, r.1)) <$> partition_of name t.

(** The table without the records at [keys]. *)
Definition remove_keys (keys : list (string * string))
    (t : gmap (string * string) (gmap string string))
    : gmap (string * string) (gmap string string) :=
  foldl (λ t k, delete k t) t keys.

(** The record of table [table] at key [k], if there is one. *)
Definition record_at (w : World) (table : string) (k : string * string)
    : option (gmap string string) :=
  t ← tables w !! table; t !! k.

(** Between two worlds: every record is as before, or it was a record of
    [name] in [table] and is gone. *)
Definition only_deleted (name table : string) (w w' : World) : Prop :=
  ∀ tb k, record_at w' tb k = record_at w tb k ∨
          (tb = table ∧ k.1 = name ∧ record_at w' tb k = None).

(** The line [DeleteSecrets] prints for the record at [k]. *)
Definition deleted_line (k : string * string) : string :=
  match Atoi k.2 with
  | Ok ver => "Deleting " +:+ k.1 +:+ " -- version " +:+ fmt_d ver +:+ newline
  | Err _ | Panic _ => EmptyString
  end.

(** A version written with [width] decimal digits. *)
Fixpoint all_digits (s : string) : bool :=
  match s with
  | EmptyString => true
  | String c rest =>
      match digit_of_ascii c with
      | Some _ => all_digits rest
      | None => false
      end
  end.

Definition fixed_width (width : nat) (s : string) : bool :=
  (String.length s =? width)%nat && all_digits s.

(** The number of pages [isTableExits] asks for: up to the page with the
    table, or all of them. *)
Fixpoint pages_read (table : string) (pages : list (list string)) : nat :=
  match pages with
  | [] => O
  | page :: rest =>
      if page_has table page then 1%nat else S (pages_read table rest)
  end.

(** The requests [isTableExits] sends in world [w]. *)
Definition listing_requests (paging : list string → list (list string))
    (table : string) (w : World) : nat :=
  pages_read table (paging (elements (dom (tables w)))).

(** A world in which [n] more requests have been sent. *)
Definition after_requests (n : nat) (w : World) : World :=
  {| tables := tables w; faults := drop n (faults w); stdout := stdout w |}.

(** The next [n] requests all fail. *)
Definition failing (n : nat) (w : World) : bool :=
  (length (take n (faults w)) =? n)%nat &&
  forallb (λ f, bool_decide (f ≠ None)) (take n (faults w)).

(** The two lines [CreateDdbTable] prints before the wait, and the one
    after it. *)
Definition creating_lines : list string :=
  ["Creating table..." +:+ newline;
   "Waiting for table to be created..." +:+ newline].

Definition created_line : string :=
  "Table has been created. Go read the README about how to create your KMS key"
    +:+ newline.

(** The number a version string stands for. *)
Definition version_number (version : string) : Z :=
  match Atoi version with
  | Ok ver => ver
  | Err _ | Panic _ => 0
  end.

(** The line of the list command for an entry. *)
Definition line_of (max_len : Z) (entry : string * string) : string :=
  list_line max_len entry.1 (version_number entry.2).

(** A name of bytes below 0x80. *)
Definition ascii_only (s : string) : bool :=
  forallb (λ c, (N_of_ascii c <? 128)%N) (list_ascii_of_string s).

(** What [fmt.Println] sends to os.Stdout for each line. *)
Definition printed (lines : list string) : list string :=
  (λ line, line +:+ newline) <$> lines.

(** ** Test doubles

    A block cipher, a keyed hash and a key-management service small
    enough to run, and the worlds of the scenarios of the specification.
    The service wraps a data key by reversing it behind one byte that
    records whether an encryption context was bound, and rejects a blob
    unwrapped the other way. *)

Module Stub.
Definition pad16 (l : list byte) : list byte := take 16 (l ++ repeat x00 16).

Definition block (key ctr : list byte) : list byte :=
  zip_with byte_xor (pad16 ctr) (pad16 key).

Definition mac (key message : list byte) : list byte :=
  (λ k, foldr byte_xor k message) <$> key.

#[export] Instance primitives : Primitives :=
  {| aes_encrypt := block; hmac_sha256 := mac |}.

Definition data_key : list byte := repeat "k"%byte 32 ++ repeat "m"%byte 32.

Definition tag (ctx : option (gmap string string)) : byte :=
  match ctx with None => x00 | Some _ => x01 end.

Definition invalid_ciphertext : string := "InvalidCiphertextException: ".

#[export] Instance kms : KMS :=
  {| kms_GenerateDataKey := λ p,
       Ok {| gk_Plaintext := data_key;
             gk_CiphertextBlob := tag (gk_EncryptionContext p) :: rev data_key |};
     kms_Decrypt := λ p,
       match dc_CiphertextBlob p with
       | t :: wrapped =>
           if decide (t = tag (dc_EncryptionContext p))
           then Ok {| dc_Plaintext := rev wrapped |}
           else Err invalid_ciphertext
       | [] => Err invalid_ciphertext
       end |}.

(** A service that is down. *)
Definition kms_down : KMS :=
  {| kms_GenerateDataKey := λ _, Err "RequestError: send request failed";
     kms_Decrypt := λ _, Err "RequestError: send request failed" |}.

Definition store : string := "credential-store".

Definition world (t : gmap (string * string) (gmap string string)) : World :=
  {| tables := {[ store := t ]}; faults := []; stdout := [] |}.

Definition row (name version : string)
    : (string * string) * gmap string string :=
  ((name, version), ∅).

Definition seeded : gmap (string * string) (gmap string string) :=
  list_to_map [row "foo" "1"; row "foo" "2"; row "bar" "1"].
End Stub.


(** * Properties *)

(** ** The encodings of the persisted record *)

Lemma byte_of_to_N (b : byte) : byte_of_N (Byte.to_N b) = b.
Proof. unfold byte_of_N. by rewrite Byte.of_to_N. Qed.

Lemma to_N_lt (b : byte) : (Byte.to_N b < 256)%N.
Proof. pose proof (Byte.to_N_bounded b). lia. Qed.

Lemma hex_byte (b : byte) :
  fromHexChar (hexdigit (Byte.to_N b / 16)) = Some (Byte.to_N b / 16)%N ∧
  fromHexChar (hexdigit (Byte.to_N b mod 16)) = Some (Byte.to_N b mod 16)%N ∧
  byte_of_N (Byte.to_N b / 16 * 16 + Byte.to_N b mod 16) = b.
Proof. destruct b; vm_compute; done. Qed.

Lemma hex_roundtrip (bs : list byte) :
  hex_DecodeString (hex_EncodeToString bs) = Ok bs.
Proof.
  induction bs as [|b bs IH]; [done|].
  destruct (hex_byte b) as (Hhi & Hlo & Hb).
  cbn [hex_EncodeToString hex_DecodeString].
  by rewrite Hhi, Hlo, IH; cbn; rewrite Hb.
Qed.

Lemma b64_sextet (b : byte) :
  (Byte.to_N b < 64)%N →
  b64val (b64char (Byte.to_N b)) = Some (Byte.to_N b) ∧
  is_newline (b64char (Byte.to_N b)) = false.
Proof. destruct b; vm_compute; first [done | discriminate]. Qed.

Lemma b64val_char (n : N) :
  (n < 64)%N → b64val (b64char n) = Some n ∧ is_newline (b64char n) = false.
Proof.
  intros Hn. destruct (Byte.of_N n) as [b|] eqn:E.
  - apply Byte.to_of_N in E. subst n. by apply b64_sextet.
  - apply Byte.of_N_None_iff in E. lia.
Qed.

(** Three octets [x y z] against their four sextets. *)
Lemma sextet1 (x : N) : (x < 256 → x / 4 < 64)%N.
Proof. intros. apply N.Div0.div_lt_upper_bound; lia. Qed.

Lemma sextet2 (x y : N) : (y < 256 → (x mod 4) * 16 + y / 16 < 64)%N.
Proof.
  intros. pose proof (N.mod_upper_bound x 4).
  assert (y / 16 < 16)%N by (apply N.Div0.div_lt_upper_bound; lia). lia.
Qed.

Lemma sextet3 (y z : N) : (z < 256 → (y mod 16) * 4 + z / 64 < 64)%N.
Proof.
  intros. pose proof (N.mod_upper_bound y 16).
  assert (z / 64 < 4)%N by (apply N.Div0.div_lt_upper_bound; lia). lia.
Qed.

Lemma sextet4 (z : N) : (z mod 64 < 64)%N.
Proof. apply N.mod_upper_bound. lia. Qed.

Lemma octet1 (x y : N) :
  (y < 256 → x / 4 * 4 + ((x mod 4) * 16 + y / 16) / 16 = x)%N.
Proof.
  intros. assert (y / 16 < 16)%N by (apply N.Div0.div_lt_upper_bound; lia).
  rewrite N.div_add_l by lia. rewrite (N.div_small (y / 16)) by lia.
  pose proof (N.div_mod x 4). lia.
Qed.

Lemma octet2 (x y z : N) :
  (y < 256 → z < 256 →
   (((x mod 4) * 16 + y / 16) mod 16) * 16 + ((y mod 16) * 4 + z / 64) / 4
   = y)%N.
Proof.
  intros. assert (y / 16 < 16)%N by (apply N.Div0.div_lt_upper_bound; lia).
  assert (z / 64 < 4)%N by (apply N.Div0.div_lt_upper_bound; lia).
  rewrite (N.add_comm (x mod 4 * 16)), N.Div0.mod_add,
    (N.mod_small (y / 16)) by lia.
  rewrite N.div_add_l by lia. rewrite (N.div_small (z / 64)) by lia.
  pose proof (N.div_mod y 16). lia.
Qed.

Lemma octet3 (y z : N) :
  (z < 256 → (((y mod 16) * 4 + z / 64) mod 4) * 64 + z mod 64 = z)%N.
Proof.
  intros. assert (z / 64 < 4)%N by (apply N.Div0.div_lt_upper_bound; lia).
  rewrite (N.add_comm (y mod 16 * 4)), N.Div0.mod_add,
    (N.mod_small (z / 64)) by lia.
  pose proof (N.div_mod z 64). lia.
Qed.

Lemma b64_quantum (a b c : byte) :
  let x := Byte.to_N a in
  let y := Byte.to_N b in
  let z := Byte.to_N c in
  let s1 := (x / 4)%N in
  let s2 := ((x mod 4) * 16 + y / 16)%N in
  let s3 := ((y mod 16) * 4 + z / 64)%N in
  let s4 := (z mod 64)%N in
  (b64val (b64char s1) = Some s1 ∧ b64val (b64char s2) = Some s2 ∧
   b64val (b64char s3) = Some s3 ∧ b64val (b64char s4) = Some s4) ∧
  (byte_of_N (s1 * 4 + s2 / 16) = a ∧
   byte_of_N ((s2 mod 16) * 16 + s3 / 4) = b ∧
   byte_of_N ((s3 mod 4) * 64 + s4) = c).
Proof.
  intros x y z s1 s2 s3 s4.
  pose proof (to_N_lt a) as Ha. pose proof (to_N_lt b) as Hb.
  pose proof (to_N_lt c) as Hc.
  split.
  - repeat split; apply b64val_char.
    + by apply sextet1.
    + by apply sextet2.
    + by apply sextet3.
    + by apply sextet4.
  - subst s1 s2 s3 s4.
    rewrite (octet1 x y), (octet2 x y z), (octet3 y z) by done.
    subst x y z. by rewrite !byte_of_to_N.
Qed.

Lemma b64_decode_encode (bs : list byte) :
  b64_decode (b64_encode bs) = Ok bs.
Proof.
  remember (length bs) as n eqn:Hn.
  revert bs Hn. induction (lt_wf n) as [n _ IH]. intros bs Hn.
  destruct bs as [|a [|b [|c r]]].
  - done.
  - destruct (b64_quantum a x00 x00) as ((H1 & H2 & _ & _) & (Ha & _ & _)).
    cbn [b64_encode b64_decode].
    change (Byte.to_N "000") with 0%N in *.
    rewrite N.Div0.div_0_l, N.add_0_r in *.
    rewrite H1, H2. cbn. by rewrite Ha.
  - destruct (b64_quantum a b x00) as ((H1 & H2 & H3 & _) & (Ha & Hb & _)).
    cbn [b64_encode b64_decode].
    change (Byte.to_N "000") with 0%N in *.
    rewrite N.Div0.div_0_l, N.add_0_r in *.
    rewrite H1, H2, H3. cbn. by rewrite Ha, Hb.
  - destruct (b64_quantum a b c) as ((H1 & H2 & H3 & H4) & (Ha & Hb & Hc)).
    cbn [b64_encode b64_decode].
    rewrite H1, H2, H3, H4.
    rewrite (IH (length r)) by (subst n; cbn; lia || done).
    cbn. by rewrite Ha, Hb, Hc.
Qed.

Lemma b64_encode_no_newline (bs : list byte) :
  Forall (λ c, is_newline c = false) (b64_encode bs).
Proof.
  remember (length bs) as n eqn:Hn.
  revert bs Hn. induction (lt_wf n) as [n _ IH]. intros bs Hn.
  destruct bs as [|a [|b [|c r]]]; cbn [b64_encode].
  - constructor.
  - pose proof (to_N_lt a).
    repeat constructor; apply b64val_char.
    + by apply sextet1.
    + replace (Byte.to_N a mod 4 * 16)%N
        with (Byte.to_N a mod 4 * 16 + 0 / 16)%N by (by rewrite N.add_0_r).
      by apply sextet2.
  - pose proof (to_N_lt a). pose proof (to_N_lt b).
    repeat constructor; apply b64val_char.
    + by apply sextet1.
    + by apply sextet2.
    + replace (Byte.to_N b mod 16 * 4)%N
        with (Byte.to_N b mod 16 * 4 + 0 / 64)%N by (by rewrite N.add_0_r).
      by apply sextet3.
  - pose proof (to_N_lt a). pose proof (to_N_lt b). pose proof (to_N_lt c).
    repeat (constructor; [apply b64val_char|]).
    + by apply sextet1.
    + by apply sextet2.
    + by apply sextet3.
    + by apply sextet4.
    + apply (IH (length r)); [subst n; cbn; lia | done].
Qed.

Lemma base64_roundtrip (bs : list byte) :
  base64_DecodeString (base64_EncodeToString bs) = Ok bs.
Proof.
  unfold base64_DecodeString, base64_EncodeToString.
  rewrite list_ascii_of_string_of_list_ascii.
  pose proof (b64_encode_no_newline bs) as Hnl.
  assert (∀ l, Forall (λ c, is_newline c = false) l →
               filter (λ c, is_newline c = false) l = l) as Hfilter.
  { induction 1 as [|c l Hc _ IHl]; [done|].
    rewrite filter_cons. case_decide; [by rewrite IHl | done]. }
  rewrite Hfilter by done. apply b64_decode_encode.
Qed.

(** ** The stream cipher *)

Lemma xorb_cancel (a b : bool) : xorb (xorb a b) b = a.
Proof. by destruct a, b. Qed.

Lemma byte_xor_cancel (a b : byte) : byte_xor (byte_xor a b) b = a.
Proof.
  unfold byte_xor.
  destruct (Byte.to_bits a) as (a0 & a1 & a2 & a3 & a4 & a5 & a6 & a7) eqn:Ea.
  destruct (Byte.to_bits b) as (b0 & b1 & b2 & b3 & b4 & b5 & b6 & b7) eqn:Eb.
  rewrite Byte.to_bits_of_bits, !xorb_cancel, <- Ea.
  apply Byte.of_bits_to_bits.
Qed.

Lemma zip_xor_cancel (src ks : list byte) :
  (length src ≤ length ks)%nat →
  zip_with byte_xor (zip_with byte_xor src ks) ks = src.
Proof.
  revert ks. induction src as [|a src IH]; intros [|k ks] Hlen;
    cbn in *; try done; try lia.
  rewrite byte_xor_cancel, IH; [done | lia].
Qed.

Lemma keystream_length (block : list byte → list byte) (ctr : list byte)
    (n : nat) :
  (∀ c, length (block c) = BlockSize) →
  length (keystream block ctr n) = (n * BlockSize)%nat.
Proof.
  intros Hblock. revert ctr. induction n as [|n IH]; intros ctr; [done|].
  cbn [keystream]. rewrite length_app, Hblock, IH. lia.
Qed.

Lemma keystream_covers (block : list byte → list byte) (ctr src : list byte) :
  (∀ c, length (block c) = BlockSize) →
  (length src ≤
   length (keystream block ctr ((length src + BlockSize - 1) / BlockSize)))%nat.
Proof.
  intros Hblock. rewrite keystream_length by done.
  unfold BlockSize.
  pose proof (Nat.div_mod (length src + 16 - 1) 16).
  pose proof (Nat.mod_upper_bound (length src + 16 - 1) 16). lia.
Qed.

Lemma XORKeyStream_length (block : list byte → list byte) (ctr src : list byte) :
  (∀ c, length (block c) = BlockSize) →
  length (XORKeyStream block ctr src) = length src.
Proof.
  intros Hblock. unfold XORKeyStream. rewrite length_zip_with.
  pose proof (keystream_covers block ctr src Hblock). lia.
Qed.

(** The key stream depends on the key and on the length only, so the
    transform undoes itself. *)
Lemma XORKeyStream_involutive (block : list byte → list byte)
    (ctr src : list byte) :
  (∀ c, length (block c) = BlockSize) →
  XORKeyStream block ctr (XORKeyStream block ctr src) = src.
Proof.
  intros Hblock. unfold XORKeyStream at 1.
  rewrite XORKeyStream_length by done.
  unfold XORKeyStream. apply zip_xor_cancel, keystream_covers, Hblock.
Qed.

Section cipher.
Context {P : Primitives}.
Hypothesis block_size : block_size_ok.

Lemma cryptAES_ok (contents key : list byte) :
  length key = 32%nat →
  cryptAES contents key = Ok (XORKeyStream (aes_encrypt key) iv contents).
Proof.
  intros Hk. unfold cryptAES, aes_NewCipher. rewrite Hk.
  by rewrite decide_True by auto.
Qed.

Lemma cryptAES_involutive (contents key : list byte) :
  length key = 32%nat →
  obind (cryptAES contents key) (λ text, cryptAES text key) = Ok contents.
Proof.
  intros Hk. rewrite cryptAES_ok by done. cbn.
  rewrite cryptAES_ok by done. f_equal.
  apply XORKeyStream_involutive, block_size.
Qed.
End cipher.

(** ** Requests on the table service *)

Lemma quiet_S (n : nat) (w : World) :
  quiet (S n) w = true →
  (∀ e rest, faults w ≠ Some e :: rest) ∧ quiet n (advance w) = true.
Proof.
  unfold quiet, advance. cbn. destruct (faults w) as [|[e|] fs]; cbn.
  - by rewrite take_nil.
  - done.
  - done.
Qed.

Lemma quiet_split (n : nat) (w : World) :
  quiet (S n) w = true → quiet 1 w = true ∧ quiet n (advance w) = true.
Proof.
  intros Hq. split; [|by apply quiet_S].
  revert Hq. unfold quiet. destruct (faults w) as [|f fs]; [done|].
  cbn. rewrite take_0. by intros [-> _]%andb_prop.
Qed.

Lemma quiet_with_table (n : nat) (table : string) t (w : World) :
  quiet n (with_table table t w) = quiet n w.
Proof. done. Qed.

Lemma with_table_id (table : string) t (w : World) :
  tables w !! table = Some t → with_table table t w = w.
Proof.
  intros Ht. destruct w as [ts fs out]. unfold with_table. cbn in *.
  by rewrite insert_id.
Qed.

Lemma request_quiet {A} (table : string) op (w : World) t :
  quiet 1 w = true → tables w !! table = Some t →
  request (A := A) table op w
  = ((op t).1, with_table table (op t).2 (advance w)).
Proof.
  intros Hq Ht. apply quiet_S in Hq as [Hf _]. unfold request.
  destruct (faults w) as [|[e|] fs] eqn:Ef.
  - rewrite Ht. by destruct (op t).
  - by destruct (Hf e fs).
  - rewrite Ht. by destruct (op t).
Qed.

(** A request that leaves the table as it is. *)
Lemma request_read {A} (table : string) (f : _ → outcome A) (w : World) t :
  quiet 1 w = true → tables w !! table = Some t →
  request table (λ t, (f t, t)) w = (f t, advance w).
Proof.
  intros Hq Ht. rewrite (request_quiet _ _ _ t) by done. cbn.
  by rewrite with_table_id.
Qed.

Lemma request_fault {A} (table : string) op (w : World) e rest :
  faults w = Some e :: rest →
  request (A := A) table op w = (Err e, advance w).
Proof. intros Hf. unfold request. by rewrite Hf. Qed.

(** ** Partitions and their order *)

#[global] Instance by_version_total fwd : Total (by_version fwd).
Proof.
  intros a b. unfold by_version.
  destruct fwd; apply (total String.le).
Qed.

#[global] Instance by_version_trans fwd : Transitive (by_version fwd).
Proof.
  intros a b c. unfold by_version. destruct fwd; intros H1 H2.
  - by etrans.
  - by etrans.
Qed.

Lemma elem_of_partition_of (name v : string) (a : gmap string string)
    (t : gmap (string * string) (gmap string string)) :
  (v, a) ∈ partition_of name t ↔ t !! (name, v) = Some a.
Proof.
  unfold partition_of. rewrite list_elem_of_omap. split.
  - intros ([[n v'] a'] & Hin & Hsome). cbn in Hsome.
    case_decide; simplify_eq. by apply elem_of_map_to_list in Hin.
  - intros Ht. exists ((name, v), a). split.
    + by apply elem_of_map_to_list.
    + cbn. by rewrite decide_True.
Qed.

Lemma partition_of_nil (name : string)
    (t : gmap (string * string) (gmap string string)) :
  partition_of name t = [] ↔ ∀ v, t !! (name, v) = None.
Proof.
  split.
  - intros Hnil v. destruct (t !! (name, v)) as [a|] eqn:E; [|done].
    apply elem_of_partition_of in E. rewrite Hnil in E.
    by apply elem_of_nil in E.
  - intros Hnone. destruct (partition_of name t) as [|[v a] l] eqn:E; [done|].
    assert ((v, a) ∈ partition_of name t) as Hin by (rewrite E; left).
    apply elem_of_partition_of in Hin. by rewrite Hnone in Hin.
Qed.

Lemma newest_unique name t v1 a1 v2 a2 :
  newest name t v1 a1 → newest name t v2 a2 → v1 = v2 ∧ a1 = a2.
Proof.
  intros [H1 M1] [H2 M2].
  assert (v1 = v2) as ->.
  { apply (anti_symm String.le); eauto. }
  split; congruence.
Qed.

Lemma newest_first_nil name t :
  newest_first name t = [] ↔ ∀ v, t !! (name, v) = None.
Proof.
  rewrite <- partition_of_nil. unfold newest_first. split.
  - intros Hnil. apply Permutation_nil_r.
    rewrite <- Hnil. by rewrite merge_sort_Permutation.
  - intros ->. done.
Qed.

Lemma newest_first_head name t v a rest :
  newest_first name t = (v, a) :: rest → newest name t v a.
Proof.
  intros Hrows.
  pose proof (StronglySorted_merge_sort (by_version false)
                (partition_of name t)) as Hsorted.
  pose proof (merge_sort_Permutation (by_version false)
                (partition_of name t)) as Hperm.
  fold (newest_first name t) in Hsorted, Hperm. rewrite Hrows in Hsorted, Hperm.
  split.
  - apply elem_of_partition_of. rewrite <- Hperm. left.
  - intros v' a' Hv'. apply elem_of_partition_of in Hv'.
    rewrite <- Hperm in Hv'. apply elem_of_cons in Hv' as [Heq|Hin].
    + simplify_eq. done.
    + apply StronglySorted_inv in Hsorted as [_ Hall].
      rewrite Forall_forall in Hall. by apply (Hall (v', a')).
Qed.

Lemma newest_first_of_newest name t v a :
  newest name t v a → ∃ rest, newest_first name t = (v, a) :: rest.
Proof.
  intros Hnew. destruct (newest_first name t) as [|[v0 a0] rest] eqn:E.
  - destruct Hnew as [Hv _].
    pose proof (proj1 (newest_first_nil name t) E v). congruence.
  - apply newest_first_head in E.
    destruct (newest_unique _ _ _ _ _ _ Hnew E) as [-> ->]. eauto.
Qed.

(** ** Reading a record *)

Ltac unfold_M := unfold mbind, M_bind, mret, M_ret, throw, panic, lift.

Lemma calm_quiet (n : nat) (w : World) : calm w = true → quiet n w = true.
Proof.
  unfold calm, quiet. rewrite !forallb_forall. intros Hall f Hin.
  apply Hall. apply list_elem_of_In in Hin. apply list_elem_of_In.
  by eapply subseteq_take.
Qed.

Lemma calm_advance (w : World) : calm w = true → calm (advance w) = true.
Proof.
  unfold calm, advance. cbn. destruct (faults w) as [|f fs]; [done|].
  cbn. by intros [_ ?]%andb_prop.
Qed.

Lemma getMaterial_latest (name table : string) (w : World) t :
  quiet 1 w = true → tables w !! table = Some t →
  getMaterial name "" table w
  = (match newest_first name t with
     | [] => Err (not_found name)
     | r :: _ => Ok (full_item name r.1 r.2)
     end, advance w).
Proof.
  intros Hq Ht. unfold getMaterial, ddb_Query. rewrite decide_True by done.
  unfold_M. cbn [q_TableName q_name q_ScanIndexForward q_Limit
                 q_ProjectionExpression].
  rewrite (request_read table _ w t) by done.
  fold (newest_first name t).
  destruct (newest_first name t) as [|r rest]; [done|].
  cbn. by rewrite take_0.
Qed.

Lemma getMaterial_version (name version table : string) (w : World) t :
  version ≠ "" → quiet 1 w = true → tables w !! table = Some t →
  getMaterial name version table w
  = (match t !! (name, version) with
     | Some a => Ok (full_item name version a)
     | None => Err (not_found name)
     end, advance w).
Proof.
  intros Hv Hq Ht. unfold getMaterial, ddb_GetItem.
  rewrite decide_False by done. unfold_M. cbn [g_TableName g_name g_version].
  rewrite (request_read table _ w t) by done.
  by destruct (t !! (name, version)).
Qed.

Lemma GetHighestVersion_run (name table : string) (w : World) t :
  quiet 1 w = true → tables w !! table = Some t →
  GetHighestVersion name table w
  = (match newest_first name t with
     | [] => Ok 0
     | r :: _ =>
         match Atoi r.1 with
         | Ok ver => Ok ver
         | Err e | Panic e => Panic e
         end
     end, advance w).
Proof.
  intros Hq Ht. unfold GetHighestVersion, ddb_Query. unfold_M.
  cbn [q_TableName q_name q_ScanIndexForward q_Limit q_ProjectionExpression].
  rewrite (request_read table _ w t) by done.
  fold (newest_first name t).
  destruct (newest_first name t) as [|[v a] rest]; [done|].
  cbn [take fmap list_fmap length q_Count q_Items]. rewrite take_0.
  cbn [length Z.of_nat Z.eqb Pos.of_succ_nat fst snd].
  assert (attrS (project (Some ["version"]) (full_item name v a)) "version"
          = Ok v) as ->.
  { unfold attrS, project, full_item.
    erewrite map_lookup_filter_Some_2; [done| |cbn; set_solver].
    rewrite lookup_insert_ne by done. by rewrite lookup_insert_eq. }
  by destruct (Atoi v).
Qed.

(** ** The encryption context *)

Lemma map_copy (m : gmap string string) :
  map_fold (λ key value encCtx, <[key := value]> encCtx) ∅ m = m.
Proof.
  induction m as [|k v m Hk IH] using map_ind; [by rewrite map_fold_empty|].
  rewrite map_fold_insert_L; [by rewrite IH| |done].
  intros j1 j2 z1 z2 y Hne _ _. by apply insert_insert_ne.
Qed.

(** The service sees the context of the caller, or none when it is
    empty. *)
Lemma encryption_context_copy (context : gmap string string) :
  encryption_context context
  = if decide (context = ∅) then None else Some context.
Proof.
  unfold encryption_context. rewrite map_copy.
  destruct (decide (context = ∅)) as [->|Hne].
  - by rewrite decide_False by (rewrite map_size_empty; lia).
  - rewrite decide_True; [done|].
    destruct (decide (size context = 0)%nat) as [H0|H0]; [|lia].
    by apply map_size_empty_iff in H0.
Qed.

(** ** Opening a record *)

Section envelope.
Context {P : Primitives} {K : KMS}.

(** What [decryptMaterial] computes once the three fields decode and
    the service has unwrapped the key. *)
Lemma decryptMaterial_run (name : string) (material context : gmap string string)
    keyS data resp contentsS contents hmacS mac :
  material !! "key" = Some keyS → base64_DecodeString keyS = Ok data →
  kms_Decrypt {| dc_CiphertextBlob := data;
                 dc_EncryptionContext := encryption_context context |}
    = Ok resp →
  (32 ≤ length (dc_Plaintext resp))%nat →
  material !! "contents" = Some contentsS →
  base64_DecodeString contentsS = Ok contents →
  material !! "hmac" = Some hmacS → hex_DecodeString hmacS = Ok mac →
  decryptMaterial name material context
  = if bool_decide (mac = doHmac contents (drop 32 (dc_Plaintext resp)))
    then Ok (string_of_list_byte
               (XORKeyStream (aes_encrypt (take 32 (dc_Plaintext resp))) iv
                  contents))
    else Err (hmac_mismatch name).
Proof.
  intros Hk Hkd Hkms Hlen Hc Hcd Hm Hmd.
  unfold decryptMaterial, attrS, slice_to, slice_from, checkMAC, hmac_Equal.
  rewrite Hk. cbn [obind]. rewrite Hkd, Hkms.
  rewrite !decide_True by done. cbn [obind].
  rewrite Hc. cbn [obind]. rewrite Hcd. cbn [obind].
  rewrite Hm. cbn [obind]. rewrite Hmd. cbn [obind].
  case_bool_decide; cbn [negb]; [|done].
  unfold cryptAES, aes_NewCipher.
  rewrite decide_True; [done|].
  rewrite length_take. lia.
Qed.

Lemma record_item_fields (name version : string) (key contents hmac : list byte) :
  record_item name version key contents hmac !! "key"
    = Some (base64_EncodeToString key) ∧
  record_item name version key contents hmac !! "contents"
    = Some (base64_EncodeToString contents) ∧
  record_item name version key contents hmac !! "hmac"
    = Some (hex_EncodeToString hmac).
Proof. unfold record_item. by simplify_map_eq. Qed.

(** Opening the item of a wrapped key, a ciphertext and a tag. *)
Lemma decryptMaterial_record (name version : string)
    (context : gmap string string) (key contents hmac : list byte) resp :
  kms_Decrypt {| dc_CiphertextBlob := key;
                 dc_EncryptionContext := encryption_context context |}
    = Ok resp →
  (32 ≤ length (dc_Plaintext resp))%nat →
  decryptMaterial name (record_item name version key contents hmac) context
  = if bool_decide (hmac = doHmac contents (drop 32 (dc_Plaintext resp)))
    then Ok (string_of_list_byte
               (XORKeyStream (aes_encrypt (take 32 (dc_Plaintext resp))) iv
                  contents))
    else Err (hmac_mismatch name).
Proof.
  intros Hkms Hlen.
  destruct (record_item_fields name version key contents hmac)
    as (Hk & Hc & Hm).
  eapply decryptMaterial_run; eauto using base64_roundtrip, hex_roundtrip.
Qed.
End envelope.

(** ** Writing a record *)

Lemma full_item_stored (name version : string) (it : gmap string string) :
  it !! "name" = Some name → it !! "version" = Some version →
  full_item name version (delete "name" (delete "version" it)) = it.
Proof.
  intros Hn Hv. unfold full_item. apply map_eq. intros k.
  destruct (decide (k = "name")) as [->|Hk1]; [by simplify_map_eq|].
  destruct (decide (k = "version")) as [->|Hk2]; by simplify_map_eq.
Qed.

Lemma full_item_name (name version : string) (a : gmap string string) :
  full_item name version a !! "name" = Some name ∧
  full_item name version a !! "version" = Some version.
Proof. unfold full_item. by simplify_map_eq. Qed.

Lemma full_item_record (name version : string) (key contents hmac : list byte) :
  full_item name version (stored name version key contents hmac)
  = record_item name version key contents hmac.
Proof. apply full_item_stored; unfold record_item; by simplify_map_eq. Qed.

Lemma putItem_run (name version table : string) (key contents hmac : list byte)
    (w : World) t :
  quiet 1 w = true → tables w !! table = Some t →
  putItem name version key contents hmac table w
  = match t !! (name, version) with
    | Some _ => (Err ConditionalCheckFailed, advance w)
    | None =>
        (Ok tt,
         with_table table
           (<[(name, version) := stored name version key contents hmac]> t)
           (advance w))
    end.
Proof.
  intros Hq Ht. unfold putItem, ddb_PutItem. cbn [p_TableName].
  rewrite (request_quiet table _ w t) by done.
  cbn [p_Item p_ConditionNotExists].
  fold (record_item name version key contents hmac).
  assert (record_item name version key contents hmac !! "name" = Some name)
    as -> by (unfold record_item; by simplify_map_eq).
  assert (record_item name version key contents hmac !! "version"
          = Some version) as -> by (unfold record_item; by simplify_map_eq).
  destruct (t !! (name, version)) as [old|] eqn:E.
  - destruct (full_item_name name version old) as [-> _].
    rewrite bool_decide_eq_false_2 by done. cbn [fst snd].
    by rewrite with_table_id.
  - done.
Qed.

Section put.
Context {P : Primitives} {K : KMS}.

(** [PutSecret] once the service has generated the data key. *)
Lemma PutSecret_run (name secret version kmsKey table : string)
    (context : gmap string string) (w : World) kmsResp :
  kms_GenerateDataKey {| gk_KeyId := kmsKey; gk_NumberOfBytes := 64;
                         gk_EncryptionContext := encryption_context context |}
    = Ok kmsResp →
  (32 ≤ length (gk_Plaintext kmsResp))%nat →
  let cipherText :=
    XORKeyStream (aes_encrypt (take 32 (gk_Plaintext kmsResp))) iv
      (list_byte_of_string secret) in
  let hmac := doHmac cipherText (drop 32 (gk_Plaintext kmsResp)) in
  PutSecret name secret version kmsKey table context w
  = match putItem name version (gk_CiphertextBlob kmsResp) cipherText hmac
            table w with
    | (Ok _, w') => (Ok tt, w')
    | (Err e, w') =>
        if Contains e "ConditionalCheckFailedException" then
          match GetHighestVersion name table w' with
          | (Ok latestVersion, w'') =>
              (Err (already_stored name latestVersion), w'')
          | (Err e', w'') => (Err e', w'')
          | (Panic e', w'') => (Panic e', w'')
          end
        else (Err e, w')
    | (Panic e, w') => (Panic e, w')
    end.
Proof.
  intros Hgen Hlen cipherText hmac.
  unfold PutSecret, generateDataKey. rewrite Hgen.
  unfold_M. unfold slice_to, slice_from. rewrite !decide_True by done.
  unfold cryptAES, aes_NewCipher.
  rewrite decide_True by (rewrite length_take; lia).
  fold cipherText. fold hmac. unfold err_of.
  destruct (putItem name version (gk_CiphertextBlob kmsResp) cipherText hmac
              table w) as [[[]|e|e] w']; try done.
  destruct (Contains e "ConditionalCheckFailedException"); [|done].
  by destruct (GetHighestVersion name table w') as [[v|e'|e'] w''].
Qed.
End put.

Lemma stub_block_size : @block_size_ok Stub.primitives.
Proof.
  intros key ctr. cbn. unfold Stub.block, Stub.pad16, BlockSize.
  rewrite length_zip_with, !length_take, !length_app, !repeat_length. lia.
Qed.

(** * The claims *)

(** C1: a secret stored by [PutSecret] under a free key (name, version)
    is what [GetSecret] returns for the same name and context, read at
    that version or, when no greater version of the name is stored, read
    as the latest: the service hands out a 64-byte data key and unwraps
    its blob under the same context, the secret is encrypted in counter
    mode under the first 32 bytes, the ciphertext is authenticated under
    the last 32 bytes, and opening the stored record verifies the tag and
    recovers the secret.  (The two requests on the table meet no failure.
    An empty version is not a version to read back: it asks for the latest
    record.) *)
Theorem PutSecret_GetSecret_roundtrip {P : Primitives} {K : KMS}
    (name secret version kmsKey table : string)
    (context : gmap string string) (w : World) kmsResp t :
  block_size_ok →
  kms_GenerateDataKey {| gk_KeyId := kmsKey; gk_NumberOfBytes := 64;
                         gk_EncryptionContext := encryption_context context |}
    = Ok kmsResp →
  length (gk_Plaintext kmsResp) = 64%nat →
  kms_Decrypt {| dc_CiphertextBlob := gk_CiphertextBlob kmsResp;
                 dc_EncryptionContext := encryption_context context |}
    = Ok {| dc_Plaintext := gk_Plaintext kmsResp |} →
  quiet 2 w = true →
  tables w !! table = Some t →
  t !! (name, version) = None →
  ∃ w',
    PutSecret name secret version kmsKey table context w = (Ok tt, w') ∧
    (version ≠ "" →
       GetSecret name version table context w' = (Ok secret, advance w')) ∧
    ((∀ v a, t !! (name, v) = Some a → String.le v version) →
       GetSecret name "" table context w' = (Ok secret, advance w')).
Proof.
  intros Hblock Hgen Hlen Hdec Hq Ht Hfree.
  apply quiet_split in Hq as [Hq0 Hq1].
  set (pt := gk_Plaintext kmsResp) in *.
  set (ct := XORKeyStream (aes_encrypt (take 32 pt)) iv
               (list_byte_of_string secret)).
  set (mac := doHmac ct (drop 32 pt)).
  set (a := stored name version (gk_CiphertextBlob kmsResp) ct mac).
  set (t' := <[(name, version) := a]> t).
  assert (decryptMaterial name (full_item name version a) context = Ok secret)
    as Hopen.
  { subst a. rewrite full_item_record.
    rewrite (decryptMaterial_record _ _ _ _ _ _ _ Hdec) by (cbn; fold pt; lia).
    cbn [dc_Plaintext]. fold pt. fold mac.
    rewrite bool_decide_eq_true_2 by done.
    unfold ct. rewrite XORKeyStream_involutive by (intros c; apply Hblock).
    by rewrite string_of_list_byte_of_string. }
  assert (tables (with_table table t' (advance w)) !! table = Some t') as Ht'
    by (cbn; by rewrite lookup_insert_eq).
  exists (with_table table t' (advance w)). split; [|split].
  - rewrite (PutSecret_run _ _ _ _ _ _ _ kmsResp) by (done || (fold pt; lia)).
    fold pt ct mac. rewrite (putItem_run _ _ _ _ _ _ _ t) by done.
    by rewrite Hfree.
  - intros Hver. unfold GetSecret. unfold_M.
    rewrite (getMaterial_version _ _ _ _ t') by done.
    unfold t' at 1. rewrite lookup_insert_eq. by rewrite Hopen.
  - intros Hmax. unfold GetSecret. unfold_M.
    rewrite (getMaterial_latest _ _ _ t') by done.
    assert (newest name t' version a) as Hnew.
    { split; [by apply lookup_insert_eq|]. intros v' a' Hv'.
      destruct (decide (v' = version)) as [->|Hne]; [done|].
      unfold t' in Hv'. rewrite lookup_insert_ne in Hv' by congruence. eauto. }
    destruct (newest_first_of_newest _ _ _ _ Hnew) as [rest ->].
    cbn [fst snd]. by rewrite Hopen.
Qed.

Lemma PutSecret_GetSecret_roundtrip_witness :
  ∃ w',
    PutSecret (P := Stub.primitives) (K := Stub.kms)
      "db-pass" "s3cr3t" "1" "alias/credstash" Stub.store ∅ (Stub.world ∅)
    = (Ok tt, w') ∧
    GetSecret (P := Stub.primitives) (K := Stub.kms)
      "db-pass" "1" Stub.store ∅ w' = (Ok "s3cr3t", advance w') ∧
    GetSecret (P := Stub.primitives) (K := Stub.kms)
      "db-pass" "" Stub.store ∅ w' = (Ok "s3cr3t", advance w').
Proof.
  destruct (PutSecret_GetSecret_roundtrip (P := Stub.primitives)
              (K := Stub.kms)
              "db-pass" "s3cr3t" "1" "alias/credstash" Stub.store ∅
              (Stub.world ∅)
              {| gk_Plaintext := Stub.data_key;
                 gk_CiphertextBlob := x00 :: rev Stub.data_key |} ∅)
    as (w' & Hput & Hget & Hlatest).
  - exact stub_block_size.
  - reflexivity.
  - reflexivity.
  - vm_compute. reflexivity.
  - reflexivity.
  - reflexivity.
  - reflexivity.
  - exists w'. split; [exact Hput|]. split.
    + apply Hget. discriminate.
    + apply Hlatest. intros v a Hv. by rewrite lookup_empty in Hv.
Defined.

Section open_claims.
Context {P : Primitives} {K : KMS}.

(** A plaintext comes out of [decryptMaterial] only when the three
    fields decode, the service unwraps the key, and the stored tag is the
    tag of the stored ciphertext. *)
Lemma decryptMaterial_Ok_inv (name : string)
    (material context : gmap string string) (plainText : string) :
  decryptMaterial name material context = Ok plainText →
  ∃ keyS data resp contentsS contents hmacS mac,
    material !! "key" = Some keyS ∧ base64_DecodeString keyS = Ok data ∧
    kms_Decrypt {| dc_CiphertextBlob := data;
                   dc_EncryptionContext := encryption_context context |}
      = Ok resp ∧
    (32 ≤ length (dc_Plaintext resp))%nat ∧
    material !! "contents" = Some contentsS ∧
    base64_DecodeString contentsS = Ok contents ∧
    material !! "hmac" = Some hmacS ∧ hex_DecodeString hmacS = Ok mac ∧
    mac = doHmac contents (drop 32 (dc_Plaintext resp)).
Proof.
  unfold decryptMaterial, attrS, slice_to, slice_from, checkMAC, hmac_Equal.
  destruct (material !! "key") as [keyS|]; [|done]. cbn [obind].
  destruct (base64_DecodeString keyS) as [data| |] eqn:Hkd; [|done|done].
  destruct (kms_Decrypt _) as [resp|e|] eqn:Hkms; [| |done].
  2:{ destruct (Contains _ _); [|done]. by case_decide. }
  case_decide as Hlen; [|done]. cbn [obind].
  destruct (material !! "contents") as [contentsS|]; [|done]. cbn [obind].
  destruct (base64_DecodeString contentsS) as [contents| |] eqn:Hcd;
    [|done|done]. cbn [obind].
  destruct (material !! "hmac") as [hmacS|]; [|done]. cbn [obind].
  destruct (hex_DecodeString hmacS) as [mac| |] eqn:Hmd; [|done|done].
  cbn [obind]. case_bool_decide as Hmac; [|done]. intros _.
  by exists keyS, data, resp, contentsS, contents, hmacS, mac.
Qed.

Lemma GetSecret_run (name version table : string)
    (context material : gmap string string) (w w' : World) :
  getMaterial name version table w = (Ok material, w') →
  GetSecret name version table context w
  = (decryptMaterial name material context, w').
Proof.
  intros Hget. unfold GetSecret. unfold_M. rewrite Hget.
  by destruct (decryptMaterial name material context).
Qed.
End open_claims.

(** C2: when the tag recomputed over the stored ciphertext under the
    second half of the unwrapped data key is not the stored tag, opening
    fails with the integrity error that names the secret, in
    [decryptMaterial] and so in [GetSecret]; no plaintext is returned.
    Hence a sealed record whose tag was altered, or whose ciphertext was
    altered into one with another tag, is refused. *)
Theorem GetSecret_hmac_mismatch {P : Primitives} {K : KMS}
    (name version table : string) (context : gmap string string) :
  (∀ material keyS data resp contentsS contents hmacS mac,
     material !! "key" = Some keyS → base64_DecodeString keyS = Ok data →
     kms_Decrypt {| dc_CiphertextBlob := data;
                    dc_EncryptionContext := encryption_context context |}
       = Ok resp →
     (32 ≤ length (dc_Plaintext resp))%nat →
     material !! "contents" = Some contentsS →
     base64_DecodeString contentsS = Ok contents →
     material !! "hmac" = Some hmacS → hex_DecodeString hmacS = Ok mac →
     doHmac contents (drop 32 (dc_Plaintext resp)) ≠ mac →
     decryptMaterial name material context
       = Err ("Computed HMAC on " +:+ name +:+ " does not match stored HMAC") ∧
     ∀ w w', getMaterial name version table w = (Ok material, w') →
       GetSecret name version table context w
       = (Err ("Computed HMAC on " +:+ name +:+ " does not match stored HMAC"),
          w')) ∧
  (∀ key resp contents contents' hmac',
     kms_Decrypt {| dc_CiphertextBlob := key;
                    dc_EncryptionContext := encryption_context context |}
       = Ok resp →
     (32 ≤ length (dc_Plaintext resp))%nat →
     let hmacKey := drop 32 (dc_Plaintext resp) in
     let hmac := doHmac contents hmacKey in
     (contents' = contents ∧ hmac' ≠ hmac) ∨
     (hmac' = hmac ∧ doHmac contents' hmacKey ≠ hmac) →
     decryptMaterial name (record_item name version key contents' hmac') context
       = Err ("Computed HMAC on " +:+ name +:+ " does not match stored HMAC")).
Proof.
  split.
  - intros material keyS data resp contentsS contents hmacS mac
      Hk Hkd Hkms Hlen Hc Hcd Hm Hmd Hne.
    assert (decryptMaterial name material context = Err (hmac_mismatch name))
      as Hopen.
    { rewrite (decryptMaterial_run _ _ _ _ _ _ _ _ _ _
                 Hk Hkd Hkms Hlen Hc Hcd Hm Hmd).
      by rewrite bool_decide_eq_false_2 by congruence. }
    split; [exact Hopen|].
    intros w w' Hget. rewrite (GetSecret_run _ _ _ _ _ _ _ Hget).
    by rewrite Hopen.
  - intros key resp contents contents' hmac' Hkms Hlen hmacKey hmac Hmut.
    rewrite (decryptMaterial_record _ _ _ _ _ _ _ Hkms Hlen).
    fold hmacKey. rewrite bool_decide_eq_false_2; [done|].
    destruct Hmut as [[-> Hne]|[-> Hne]]; [done|congruence].
Qed.

Lemma GetSecret_hmac_mismatch_witness :
  decryptMaterial (P := Stub.primitives) (K := Stub.kms) "db-pass"
    (record_item "db-pass" "1" (x00 :: rev Stub.data_key) [x01; x02]
       (x00 :: doHmac (P := Stub.primitives) [x01; x02]
                 (drop 32 Stub.data_key))) ∅
  = Err "Computed HMAC on db-pass does not match stored HMAC" ∧
  decryptMaterial (P := Stub.primitives) (K := Stub.kms) "db-pass"
    (record_item "db-pass" "1" (x00 :: rev Stub.data_key) [x01; x03]
       (doHmac (P := Stub.primitives) [x01; x02] (drop 32 Stub.data_key))) ∅
  = Err "Computed HMAC on db-pass does not match stored HMAC".
Proof.
  split.
  - refine (proj2 (GetSecret_hmac_mismatch (P := Stub.primitives)
                     (K := Stub.kms) "db-pass" "1" Stub.store ∅)
              (x00 :: rev Stub.data_key) {| dc_Plaintext := Stub.data_key |}
              [x01; x02] [x01; x02] _ _ _ _).
    + reflexivity.
    + vm_compute. lia.
    + left. split; [reflexivity | discriminate].
  - refine (proj2 (GetSecret_hmac_mismatch (P := Stub.primitives)
                     (K := Stub.kms) "db-pass" "1" Stub.store ∅)
              (x00 :: rev Stub.data_key) {| dc_Plaintext := Stub.data_key |}
              [x01; x02] [x01; x03] _ _ _ _).
    + reflexivity.
    + vm_compute. lia.
    + right. split; [reflexivity | vm_compute; discriminate].
Defined.

(** C3, as the code has it: when the hex text of the tag does not
    decode, [checkMAC] panics with the decoding error; it does not return
    false, so a caller does not see a decoding failure as a mismatch. *)
Theorem checkMAC_decode_failure_panics {P : Primitives}
    (message key : list byte) (hmacStr e : string) :
  hex_DecodeString hmacStr = Err e →
  checkMAC message hmacStr key = Panic e ∧
  checkMAC message hmacStr key ≠ Ok false.
Proof. intros Hdec. unfold checkMAC. by rewrite Hdec. Qed.

Lemma checkMAC_decode_failure_panics_witness :
  checkMAC (P := Stub.primitives) [x01] "zz" [x02]
    = Panic "encoding/hex: invalid byte" ∧
  checkMAC (P := Stub.primitives) [x01] "zz" [x02] ≠ Ok false.
Proof.
  apply (checkMAC_decode_failure_panics (P := Stub.primitives)
           [x01] [x02] "zz" "encoding/hex: invalid byte").
  reflexivity.
Defined.

(** C3 as stated fails: the tag text "zz" does not decode, and [checkMAC]
    panics on it instead of returning false. *)
Lemma checkMAC_decode_failure_counterexample :
  hex_DecodeString "zz" = Err "encoding/hex: invalid byte" ∧
  checkMAC (P := Stub.primitives) [x01] "zz" [x02] ≠ Ok false.
Proof. split; [reflexivity | discriminate]. Qed.

(** C4: when the service rejects the wrapped key with an error that
    carries InvalidCiphertextException, opening fails with one of two
    messages: without a context (the empty map) the message says that a
    context may be required, with a context it says that the context
    given may not be the one used when the credential was stored. *)
Theorem decryptMaterial_invalid_ciphertext {P : Primitives} {K : KMS}
    (name : string) (material context : gmap string string)
    (keyS e : string) (data : list byte) :
  material !! "key" = Some keyS →
  base64_DecodeString keyS = Ok data →
  kms_Decrypt {| dc_CiphertextBlob := data;
                 dc_EncryptionContext := encryption_context context |}
    = Err e →
  Contains e "InvalidCiphertextException" = true →
  let message :=
    if decide (context = ∅)
    then name +:+ ": Could not decrypt hmac key with KMS. The credential may require that an encryption context be provided to decrypt it."
    else name +:+ ": Could not decrypt hmac key with KMS. The encryption context provided may not match the one used when the credential was stored." in
  decryptMaterial name material context = Err message ∧
  ∀ version table w w',
    getMaterial name version table w = (Ok material, w') →
    GetSecret name version table context w = (Err message, w').
Proof.
  intros Hk Hkd Hkms Hinvalid message.
  assert (decryptMaterial name material context = Err message) as Hopen.
  { unfold decryptMaterial, attrS. rewrite Hk. cbn [obind].
    rewrite Hkd, Hkms, Hinvalid. subst message.
    destruct (decide (context = ∅)) as [->|Hne].
    - by rewrite decide_True by (rewrite map_size_empty; lia).
    - rewrite decide_False; [done|].
      intros Hsize. apply Hne, map_size_empty_iff. lia. }
  split; [exact Hopen|].
  intros version table w w' Hget.
  by rewrite (GetSecret_run _ _ _ _ _ _ _ Hget), Hopen.
Qed.

Lemma decryptMaterial_invalid_ciphertext_witness :
  decryptMaterial (P := Stub.primitives) (K := Stub.kms) "db-pass"
    (record_item "db-pass" "1" (x00 :: rev Stub.data_key) [] [])
    {[ "env" := "prod" ]}
  = Err "db-pass: Could not decrypt hmac key with KMS. The encryption context provided may not match the one used when the credential was stored." ∧
  decryptMaterial (P := Stub.primitives) (K := Stub.kms) "db-pass"
    (record_item "db-pass" "1" (x01 :: rev Stub.data_key) [] []) ∅
  = Err "db-pass: Could not decrypt hmac key with KMS. The credential may require that an encryption context be provided to decrypt it.".
Proof.
  split.
  - refine (proj1 (decryptMaterial_invalid_ciphertext
                     (P := Stub.primitives) (K := Stub.kms) "db-pass"
                     (record_item "db-pass" "1" (x00 :: rev Stub.data_key) [] [])
                     {[ "env" := "prod" ]}
                     (base64_EncodeToString (x00 :: rev Stub.data_key))
                     Stub.invalid_ciphertext (x00 :: rev Stub.data_key)
                     _ _ _ _)).
    + reflexivity.
    + vm_compute. reflexivity.
    + vm_compute. reflexivity.
    + reflexivity.
  - refine (proj1 (decryptMaterial_invalid_ciphertext
                     (P := Stub.primitives) (K := Stub.kms) "db-pass"
                     (record_item "db-pass" "1" (x01 :: rev Stub.data_key) [] [])
                     ∅
                     (base64_EncodeToString (x01 :: rev Stub.data_key))
                     Stub.invalid_ciphertext (x01 :: rev Stub.data_key)
                     _ _ _ _)).
    + reflexivity.
    + vm_compute. reflexivity.
    + vm_compute. reflexivity.
    + reflexivity.
Defined.

(** C9, as the code has it.  A record whose wrapped key is not base64
    makes [decryptMaterial] panic with the error of the decoding before the
    service is asked, and [GetSecret] on that record panics the same way.
    A record whose tag is not hex makes them panic with the error of the
    decoding once the key is decoded and unwrapped to at least 32 bytes and
    the contents are decoded.  A record whose contents are not base64
    makes them return the error of the decoding, as an ordinary error, once
    the key is decoded and unwrapped to at least 32 bytes.  And whichever
    of the three fields does not decode, no plaintext is returned, by
    [decryptMaterial] or by [GetSecret]. *)
Theorem decryptMaterial_undecodable {P : Primitives} {K : KMS}
    (name : string) (material context : gmap string string) :
  (∀ keyS e, material !! "key" = Some keyS →
     base64_DecodeString keyS = Err e →
     decryptMaterial name material context = Panic e ∧
     ∀ version table w w',
       getMaterial name version table w = (Ok material, w') →
       GetSecret name version table context w = (Panic e, w')) ∧
  (∀ keyS data resp contentsS contents hmacS e,
     material !! "key" = Some keyS → base64_DecodeString keyS = Ok data →
     kms_Decrypt {| dc_CiphertextBlob := data;
                    dc_EncryptionContext := encryption_context context |}
       = Ok resp →
     (32 ≤ length (dc_Plaintext resp))%nat →
     material !! "contents" = Some contentsS →
     base64_DecodeString contentsS = Ok contents →
     material !! "hmac" = Some hmacS → hex_DecodeString hmacS = Err e →
     decryptMaterial name material context = Panic e ∧
     ∀ version table w w',
       getMaterial name version table w = (Ok material, w') →
       GetSecret name version table context w = (Panic e, w')) ∧
  (∀ keyS data resp contentsS e,
     material !! "key" = Some keyS → base64_DecodeString keyS = Ok data →
     kms_Decrypt {| dc_CiphertextBlob := data;
                    dc_EncryptionContext := encryption_context context |}
       = Ok resp →
     (32 ≤ length (dc_Plaintext resp))%nat →
     material !! "contents" = Some contentsS →
     base64_DecodeString contentsS = Err e →
     decryptMaterial name material context = Err e ∧
     ∀ version table w w',
       getMaterial name version table w = (Ok material, w') →
       GetSecret name version table context w = (Err e, w')) ∧
  ((∃ keyS, material !! "key" = Some keyS ∧
            is_Ok (base64_DecodeString keyS) = false) ∨
   (∃ contentsS, material !! "contents" = Some contentsS ∧
                 is_Ok (base64_DecodeString contentsS) = false) ∨
   (∃ hmacS, material !! "hmac" = Some hmacS ∧
             is_Ok (hex_DecodeString hmacS) = false) →
   is_Ok (decryptMaterial name material context) = false ∧
   ∀ version table w w',
     getMaterial name version table w = (Ok material, w') →
     is_Ok (GetSecret name version table context w).1 = false).
Proof.
  assert (∀ r, decryptMaterial name material context = r →
               ∀ version table w w',
                 getMaterial name version table w = (Ok material, w') →
                 GetSecret name version table context w = (r, w')) as Hread.
  { intros r <- version table w w' Hget. by apply GetSecret_run. }
  split; [|split; [|split]].
  - intros keyS e Hk Hkd.
    assert (decryptMaterial name material context = Panic e) as Hopen.
    { unfold decryptMaterial, attrS. rewrite Hk. cbn [obind]. by rewrite Hkd. }
    split; [exact Hopen|by apply Hread].
  - intros keyS data resp contentsS contents hmacS e
      Hk Hkd Hkms Hlen Hc Hcd Hm Hmd.
    assert (decryptMaterial name material context = Panic e) as Hopen.
    { unfold decryptMaterial, attrS, slice_to, slice_from, checkMAC.
      rewrite Hk. cbn [obind]. rewrite Hkd, Hkms.
      rewrite !decide_True by done. cbn [obind].
      rewrite Hc. cbn [obind]. rewrite Hcd. cbn [obind].
      rewrite Hm. cbn [obind]. by rewrite Hmd. }
    split; [exact Hopen|by apply Hread].
  - intros keyS data resp contentsS e Hk Hkd Hkms Hlen Hc Hcd.
    assert (decryptMaterial name material context = Err e) as Hopen.
    { unfold decryptMaterial, attrS, slice_to, slice_from.
      rewrite Hk. cbn [obind]. rewrite Hkd, Hkms.
      rewrite !decide_True by done. cbn [obind].
      rewrite Hc. cbn [obind]. by rewrite Hcd. }
    split; [exact Hopen|by apply Hread].
  - intros Hbad.
    assert (is_Ok (decryptMaterial name material context) = false) as Hopen.
    { destruct (decryptMaterial name material context) as [p| |] eqn:E;
        [|done|done].
      apply decryptMaterial_Ok_inv in E
        as (keyS & data & resp & contentsS & contents & hmacS & mac
            & Hk & Hkd & _ & _ & Hc & Hcd & Hm & Hmd & _).
      destruct Hbad as [(s & Hs & Hd)|[(s & Hs & Hd)|(s & Hs & Hd)]].
      - rewrite Hk in Hs. simplify_eq. by rewrite Hkd in Hd.
      - rewrite Hc in Hs. simplify_eq. by rewrite Hcd in Hd.
      - rewrite Hm in Hs. simplify_eq. by rewrite Hmd in Hd. }
    split; [exact Hopen|].
    intros version table w w' Hget.
    by rewrite (GetSecret_run _ _ _ _ _ _ _ Hget).
Qed.

Lemma decryptMaterial_undecodable_witness :
  (∃ e,
     base64_DecodeString "!!!!" = Err e ∧
     GetSecret (P := Stub.primitives) (K := Stub.kms) "db-pass" "1"
       Stub.store ∅
       (Stub.world {[ ("db-pass", "1") :=
                        {[ "key" := "!!!!"; "contents" := "AAAA";
                           "hmac" := "00" ]} ]})
     = (Panic e,
        advance (Stub.world {[ ("db-pass", "1") :=
                                 {[ "key" := "!!!!"; "contents" := "AAAA";
                                    "hmac" := "00" ]} ]}))) ∧
  (∃ e,
     hex_DecodeString "zz" = Err e ∧
     decryptMaterial (P := Stub.primitives) (K := Stub.kms) "db-pass"
       {[ "key" := base64_EncodeToString (x00 :: rev Stub.data_key);
          "contents" := "AAAA"; "hmac" := "zz" ]} ∅
     = Panic e) ∧
  (∃ e,
     base64_DecodeString "!!!!" = Err e ∧
     decryptMaterial (P := Stub.primitives) (K := Stub.kms) "db-pass"
       {[ "key" := base64_EncodeToString (x00 :: rev Stub.data_key);
          "contents" := "!!!!"; "hmac" := "zz" ]} ∅
     = Err e) ∧
  is_Ok (decryptMaterial (P := Stub.primitives) (K := Stub.kms) "db-pass"
           {[ "key" := base64_EncodeToString (x00 :: rev Stub.data_key);
              "contents" := "!!!!"; "hmac" := "00" ]} ∅) = false.
Proof.
  split; [|split; [|split]].
  - eexists. split; [reflexivity|].
    refine (proj2 (proj1 (decryptMaterial_undecodable (P := Stub.primitives)
                            (K := Stub.kms) "db-pass"
                            (full_item "db-pass" "1"
                               {[ "key" := "!!!!"; "contents" := "AAAA";
                                  "hmac" := "00" ]}) ∅) "!!!!" _ _ _)
              "1" Stub.store _ _ _); vm_compute; reflexivity.
  - eexists. split; [reflexivity|].
    refine (proj1 (proj1 (proj2 (decryptMaterial_undecodable
                                   (P := Stub.primitives) (K := Stub.kms)
                                   "db-pass" _ ∅))
                     (base64_EncodeToString (x00 :: rev Stub.data_key))
                     (x00 :: rev Stub.data_key)
                     {| dc_Plaintext := Stub.data_key |}
                     "AAAA" [x00; x00; x00] "zz" _ _ _ _ _ _ _ _ _)).
    + reflexivity.
    + vm_compute. reflexivity.
    + vm_compute. reflexivity.
    + vm_compute. lia.
    + reflexivity.
    + reflexivity.
    + reflexivity.
    + reflexivity.
  - eexists. split; [reflexivity|].
    refine (proj1 (proj1 (proj2 (proj2 (decryptMaterial_undecodable
                                   (P := Stub.primitives) (K := Stub.kms)
                                   "db-pass" _ ∅)))
                     (base64_EncodeToString (x00 :: rev Stub.data_key))
                     (x00 :: rev Stub.data_key)
                     {| dc_Plaintext := Stub.data_key |}
                     "!!!!" _ _ _ _ _ _ _)).
    + reflexivity.
    + vm_compute. reflexivity.
    + vm_compute. reflexivity.
    + vm_compute. lia.
    + reflexivity.
    + reflexivity.
  - refine (proj1 (proj2 (proj2 (proj2 (decryptMaterial_undecodable
                                   (P := Stub.primitives) (K := Stub.kms)
                                   "db-pass" _ ∅))) _)).
    right. left. exists "!!!!". split; reflexivity.
Defined.

(** C9 as stated fails: the stored record of db-pass has a wrapped key
    that is not base64, and [GetSecret] leaves through a panic, which
    nothing in the driver recovers, rather than with an error of the
    operation. *)
Lemma GetSecret_undecodable_counterexample :
  is_Panic
    (GetSecret (P := Stub.primitives) (K := Stub.kms) "db-pass" "1"
       Stub.store ∅
       (Stub.world {[ ("db-pass", "1") :=
                        {[ "key" := "!!!!"; "contents" := "AAAA";
                           "hmac" := "00" ]} ]})).1 = true.
Proof. vm_compute. reflexivity. Qed.

Lemma newest_or_none (name : string)
    (t : gmap (string * string) (gmap string string)) :
  (∃ v a, newest name t v a) ∨ (∀ v, t !! (name, v) = None).
Proof.
  destruct (newest_first name t) as [|[v a] rest] eqn:E.
  - right. by apply newest_first_nil.
  - left. exists v, a. by eapply newest_first_head.
Qed.

(** C8: with an empty version [getMaterial] reads the latest record of
    the name, through the consistent, descending, limit-one query of its
    partition: it returns the record with the greatest range key; with a
    version it reads the record at exactly that key.  Either way, when the
    record is absent, [getMaterial] and [GetSecret] fail with the error
    that names the secret and return no data.  (The request on the table
    meets no failure.) *)
Theorem getMaterial_latest_or_exact {P : Primitives} {K : KMS}
    (name version table : string) (context : gmap string string)
    (w : World) t :
  quiet 1 w = true →
  tables w !! table = Some t →
  (version = "" →
     ((∃ v a, newest name t v a) ∨ (∀ v, t !! (name, v) = None)) ∧
     (∀ v a, newest name t v a →
        getMaterial name version table w
        = (Ok (full_item name v a), advance w)) ∧
     ((∀ v, t !! (name, v) = None) →
        getMaterial name version table w
        = (Err ("Item {'name': '" +:+ name +:+ "'} couldn't be found."),
           advance w) ∧
        GetSecret name version table context w
        = (Err ("Item {'name': '" +:+ name +:+ "'} couldn't be found."),
           advance w))) ∧
  (version ≠ "" →
     (∀ a, t !! (name, version) = Some a →
        getMaterial name version table w
        = (Ok (full_item name version a), advance w)) ∧
     (t !! (name, version) = None →
        getMaterial name version table w
        = (Err ("Item {'name': '" +:+ name +:+ "'} couldn't be found."),
           advance w) ∧
        GetSecret name version table context w
        = (Err ("Item {'name': '" +:+ name +:+ "'} couldn't be found."),
           advance w))).
Proof.
  intros Hq Ht. split.
  - intros ->. split; [apply newest_or_none|]. split.
    + intros v a Hnew. rewrite (getMaterial_latest _ _ _ t) by done.
      by destruct (newest_first_of_newest _ _ _ _ Hnew) as [rest ->].
    + intros Hnone.
      assert (getMaterial name "" table w = (Err (not_found name), advance w))
        as Hget.
      { rewrite (getMaterial_latest _ _ _ t) by done.
        by rewrite (proj2 (newest_first_nil name t) Hnone). }
      split; [exact Hget|].
      unfold GetSecret. unfold_M. by rewrite Hget.
  - intros Hver. split.
    + intros a Ha. rewrite (getMaterial_version _ _ _ _ t) by done.
      by rewrite Ha.
    + intros Hnone.
      assert (getMaterial name version table w
              = (Err (not_found name), advance w)) as Hget.
      { rewrite (getMaterial_version _ _ _ _ t) by done. by rewrite Hnone. }
      split; [exact Hget|].
      unfold GetSecret. unfold_M. by rewrite Hget.
Qed.

Lemma seeded_foo (v : string) (a : gmap string string) :
  Stub.seeded !! ("foo", v) = Some a → v = "1" ∨ v = "2".
Proof.
  intros Hv. apply elem_of_list_to_map_2 in Hv. cbn in Hv.
  unfold Stub.row in Hv. rewrite !elem_of_cons in Hv.
  destruct Hv as [Hv|[Hv|[Hv|Hv]]]; simplify_eq; auto.
  by apply elem_of_nil in Hv.
Qed.

Lemma seeded_newest_foo : newest "foo" Stub.seeded "2" ∅.
Proof.
  split; [reflexivity|]. intros v a Hv.
  by destruct (seeded_foo v a Hv) as [-> | ->]; vm_compute.
Qed.

Lemma getMaterial_latest_or_exact_witness :
  getMaterial "foo" "" Stub.store (Stub.world Stub.seeded)
  = (Ok (full_item "foo" "2" ∅), advance (Stub.world Stub.seeded)) ∧
  getMaterial "foo" "1" Stub.store (Stub.world Stub.seeded)
  = (Ok (full_item "foo" "1" ∅), advance (Stub.world Stub.seeded)) ∧
  GetSecret (P := Stub.primitives) (K := Stub.kms) "foo" "3" Stub.store ∅
    (Stub.world Stub.seeded)
  = (Err "Item {'name': 'foo'} couldn't be found.",
     advance (Stub.world Stub.seeded)) ∧
  GetSecret (P := Stub.primitives) (K := Stub.kms) "foo" "" Stub.store ∅
    (Stub.world ∅)
  = (Err "Item {'name': 'foo'} couldn't be found.", advance (Stub.world ∅)).
Proof.
  split; [|split; [|split]].
  - refine (proj1 (proj2 (proj1 (getMaterial_latest_or_exact
                     (P := Stub.primitives) (K := Stub.kms) "foo" "" Stub.store
                     ∅ (Stub.world Stub.seeded) Stub.seeded _ _) _))
              "2" ∅ seeded_newest_foo); reflexivity.
  - refine (proj1 (proj2 (getMaterial_latest_or_exact (P := Stub.primitives)
                            (K := Stub.kms) "foo" "1" Stub.store ∅
                            (Stub.world Stub.seeded) Stub.seeded _ _) _) ∅ _).
    + reflexivity.
    + reflexivity.
    + discriminate.
    + reflexivity.
  - refine (proj2 (proj2 (proj2 (getMaterial_latest_or_exact
                     (P := Stub.primitives) (K := Stub.kms) "foo" "3" Stub.store
                     ∅ (Stub.world Stub.seeded) Stub.seeded _ _) _) _)).
    + reflexivity.
    + reflexivity.
    + discriminate.
    + reflexivity.
  - refine (proj2 (proj2 (proj2 (proj1 (getMaterial_latest_or_exact
                     (P := Stub.primitives) (K := Stub.kms) "foo" "" Stub.store
                     ∅ (Stub.world ∅) ∅ _ _) _)) _)).
    + reflexivity.
    + reflexivity.
    + reflexivity.
    + intros v. apply lookup_empty.
Defined.

Lemma newest_only (name version : string) (a : gmap string string)
    (t : gmap (string * string) (gmap string string)) :
  (∀ v, t !! (name, v) = None) →
  newest name (<[(name, version) := a]> t) version a.
Proof.
  intros Hnone. split; [by rewrite lookup_insert_eq|].
  intros v' a' Hv'. destruct (decide (v' = version)) as [->|Hne]; [done|].
  rewrite lookup_insert_ne in Hv' by congruence. by rewrite Hnone in Hv'.
Qed.

(** C6: for a name without stored items [GetHighestVersion] returns 0
    and no error; after one [PutSecret] of that name at version "1" it
    returns 1.  (The requests on the table meet no failure, and the
    service generates a data key.) *)
Theorem GetHighestVersion_default {P : Primitives} {K : KMS}
    (name table : string) (w : World) t :
  tables w !! table = Some t →
  (∀ v, t !! (name, v) = None) →
  (quiet 1 w = true → GetHighestVersion name table w = (Ok 0, advance w)) ∧
  (∀ secret kmsKey context kmsResp,
     quiet 2 w = true →
     kms_GenerateDataKey {| gk_KeyId := kmsKey; gk_NumberOfBytes := 64;
                            gk_EncryptionContext := encryption_context context |}
       = Ok kmsResp →
     (32 ≤ length (gk_Plaintext kmsResp))%nat →
     ∃ w' w'',
       PutSecret name secret "1" kmsKey table context w = (Ok tt, w') ∧
       GetHighestVersion name table w' = (Ok 1, w'')).
Proof.
  intros Ht Hnone. split.
  - intros Hq. rewrite (GetHighestVersion_run _ _ _ t) by done.
    by rewrite (proj2 (newest_first_nil name t) Hnone).
  - intros secret kmsKey context kmsResp Hq Hgen Hlen.
    apply quiet_split in Hq as [Hq0 Hq1].
    rewrite (PutSecret_run _ _ _ _ _ _ _ kmsResp) by done.
    rewrite (putItem_run _ _ _ _ _ _ _ t) by done. rewrite Hnone.
    eexists _, _. split; [done|].
    erewrite GetHighestVersion_run; [|done|by apply lookup_insert_eq].
    edestruct newest_first_of_newest as [rest ->];
      [by apply newest_only|done].
Qed.

Lemma seeded_other_names (name v : string) :
  name ≠ "foo" → name ≠ "bar" → Stub.seeded !! (name, v) = None.
Proof.
  intros Hfoo Hbar. apply not_elem_of_list_to_map_1. cbn.
  rewrite !not_elem_of_cons. repeat split; try congruence.
  apply not_elem_of_nil.
Qed.

Lemma GetHighestVersion_default_witness :
  GetHighestVersion "unknown-name" Stub.store (Stub.world Stub.seeded)
  = (Ok 0, advance (Stub.world Stub.seeded)) ∧
  ∃ w' w'',
    PutSecret (P := Stub.primitives) (K := Stub.kms)
      "db-pass" "s3cr3t" "1" "alias/credstash" Stub.store ∅
      (Stub.world Stub.seeded) = (Ok tt, w') ∧
    GetHighestVersion "db-pass" Stub.store w' = (Ok 1, w'').
Proof.
  split.
  - refine (proj1 (GetHighestVersion_default (P := Stub.primitives)
                     (K := Stub.kms) "unknown-name" Stub.store
                     (Stub.world Stub.seeded) Stub.seeded _ _) _).
    + reflexivity.
    + intros v. by apply seeded_other_names.
    + reflexivity.
  - refine (proj2 (GetHighestVersion_default (P := Stub.primitives)
                     (K := Stub.kms) "db-pass" Stub.store
                     (Stub.world Stub.seeded) Stub.seeded _ _)
              "s3cr3t" "alias/credstash" ∅
              {| gk_Plaintext := Stub.data_key;
                 gk_CiphertextBlob := x00 :: rev Stub.data_key |} _ _ _).
    + reflexivity.
    + intros v. by apply seeded_other_names.
    + reflexivity.
    + reflexivity.
    + vm_compute. lia.
Defined.

(** C5, as the code has it: when the conditional insert of [PutSecret]
    fails with an error that carries ConditionalCheckFailedException,
    [PutSecret] asks [GetHighestVersion]: a number it returns goes into the
    message of the error of [PutSecret], an error it returns is returned as
    it is, and a panic of it is the panic of [PutSecret]; any other error of
    the insert is returned as it is.  In particular, when the key (name,
    version) is already stored, the insert fails that way, and the outcome
    is decided by the stored version of the name that is greatest in the
    order of the bytes: when it is a decimal integer the message carries
    that integer, when it is not [PutSecret] panics.  (The service
    generates a data key; in the second part the two requests on the table
    meet no failure.) *)
Theorem PutSecret_version_conflict {P : Primitives} {K : KMS}
    (name secret version kmsKey table : string)
    (context : gmap string string) (w : World) kmsResp :
  kms_GenerateDataKey {| gk_KeyId := kmsKey; gk_NumberOfBytes := 64;
                         gk_EncryptionContext := encryption_context context |}
    = Ok kmsResp →
  (32 ≤ length (gk_Plaintext kmsResp))%nat →
  let cipherText :=
    XORKeyStream (aes_encrypt (take 32 (gk_Plaintext kmsResp))) iv
      (list_byte_of_string secret) in
  let hmac := doHmac cipherText (drop 32 (gk_Plaintext kmsResp)) in
  (∀ e w',
     putItem name version (gk_CiphertextBlob kmsResp) cipherText hmac table w
       = (Err e, w') →
     if Contains e "ConditionalCheckFailedException" then
       (∀ latestVersion w'',
          GetHighestVersion name table w' = (Ok latestVersion, w'') →
          PutSecret name secret version kmsKey table context w
          = (Err (name +:+ " version " +:+ fmt_d latestVersion +:+ " is already in the credential store. Use the -v flag to specify a new version"),
             w'')) ∧
       (∀ e' w'',
          GetHighestVersion name table w' = (Err e', w'') →
          PutSecret name secret version kmsKey table context w
          = (Err e', w'')) ∧
       (∀ e' w'',
          GetHighestVersion name table w' = (Panic e', w'') →
          PutSecret name secret version kmsKey table context w
          = (Panic e', w''))
     else
       PutSecret name secret version kmsKey table context w = (Err e, w')) ∧
  (∀ t old v a,
     quiet 2 w = true →
     tables w !! table = Some t →
     t !! (name, version) = Some old →
     newest name t v a →
     (∀ latestVersion,
        Atoi v = Ok latestVersion →
        PutSecret name secret version kmsKey table context w
        = (Err (name +:+ " version " +:+ fmt_d latestVersion +:+ " is already in the credential store. Use the -v flag to specify a new version"),
           advance (advance w))) ∧
     ((∀ latestVersion, Atoi v ≠ Ok latestVersion) →
      ∃ e, PutSecret name secret version kmsKey table context w
           = (Panic e, advance (advance w)))).
Proof.
  intros Hgen Hlen cipherText hmac. split.
  - intros e w' Hput.
    rewrite (PutSecret_run _ _ _ _ _ _ _ kmsResp) by done.
    fold cipherText. fold hmac. rewrite Hput.
    destruct (Contains e "ConditionalCheckFailedException") eqn:Hc; [|done].
    split; [|split].
    + intros latestVersion w'' Hhigh. by rewrite Hhigh.
    + intros e' w'' Hhigh. by rewrite Hhigh.
    + intros e' w'' Hhigh. by rewrite Hhigh.
  - intros t old v a Hq Ht Hold Hnew.
    apply quiet_split in Hq as [Hq0 Hq1].
    rewrite (PutSecret_run _ _ _ _ _ _ _ kmsResp) by done.
    rewrite (putItem_run _ _ _ _ _ _ _ t) by done. rewrite Hold.
    change (Contains ConditionalCheckFailed "ConditionalCheckFailedException")
      with true. cbv iota.
    rewrite (GetHighestVersion_run _ _ _ t) by done.
    destruct (newest_first_of_newest _ _ _ _ Hnew) as [rest ->].
    cbn [fst]. split.
    + intros latestVersion Hatoi. by rewrite Hatoi.
    + intros Hbad. destruct (Atoi v) as [n|e|e] eqn:Hatoi.
      * by destruct (Hbad n).
      * by exists e.
      * by exists e.
Qed.

Lemma PutSecret_version_conflict_witness :
  PutSecret (P := Stub.primitives) (K := Stub.kms)
    "foo" "new" "1" "alias/credstash" Stub.store ∅ (Stub.world Stub.seeded)
  = (Err "foo version 2 is already in the credential store. Use the -v flag to specify a new version",
     advance (advance (Stub.world Stub.seeded))) ∧
  ∃ e,
    PutSecret (P := Stub.primitives) (K := Stub.kms)
      "foo" "new" "abc" "alias/credstash" Stub.store ∅
      (Stub.world {[ ("foo", "abc") := ∅ ]})
    = (Panic e, advance (advance (Stub.world {[ ("foo", "abc") := ∅ ]}))).
Proof.
  split.
  - refine (proj1 (proj2 (PutSecret_version_conflict (P := Stub.primitives)
                     (K := Stub.kms) "foo" "new" "1" "alias/credstash"
                     Stub.store ∅ (Stub.world Stub.seeded)
                     {| gk_Plaintext := Stub.data_key;
                        gk_CiphertextBlob := x00 :: rev Stub.data_key |} _ _)
                    Stub.seeded ∅ "2" ∅ _ _ _ _) 2 _).
    + reflexivity.
    + vm_compute. lia.
    + reflexivity.
    + reflexivity.
    + reflexivity.
    + exact seeded_newest_foo.
    + reflexivity.
  - refine (proj2 (proj2 (PutSecret_version_conflict (P := Stub.primitives)
                     (K := Stub.kms) "foo" "new" "abc" "alias/credstash"
                     Stub.store ∅ (Stub.world {[ ("foo", "abc") := ∅ ]})
                     {| gk_Plaintext := Stub.data_key;
                        gk_CiphertextBlob := x00 :: rev Stub.data_key |} _ _)
                    {[ ("foo", "abc") := ∅ ]} ∅ "abc" ∅ _ _ _ _) _).
    + reflexivity.
    + vm_compute. lia.
    + reflexivity.
    + reflexivity.
    + reflexivity.
    + split; [reflexivity|]. intros v' a' Hv'.
      apply lookup_singleton_Some in Hv' as [Hk _]. by simplify_eq.
    + intros latestVersion. vm_compute. discriminate.
Defined.

(** C5 as stated fails.  With (foo, abc) stored, a second put of that
    key meets the failed conditional insert and panics instead of failing
    with the error for the user; and with the versions 9 and 10 of foo
    stored, a second put of version 9 fails with a message that carries 9,
    which is not the highest version of foo. *)
Lemma PutSecret_version_conflict_counterexample :
  is_Panic (PutSecret (P := Stub.primitives) (K := Stub.kms)
              "foo" "new" "abc" "alias/credstash" Stub.store ∅
              (Stub.world {[ ("foo", "abc") := ∅ ]})).1 = true ∧
  (PutSecret (P := Stub.primitives) (K := Stub.kms)
     "foo" "new" "9" "alias/credstash" Stub.store ∅
     (Stub.world (list_to_map [Stub.row "foo" "9"; Stub.row "foo" "10"]))).1
  = Err "foo version 9 is already in the credential store. Use the -v flag to specify a new version".
Proof. split; vm_compute; reflexivity. Qed.

(** ** Deleting records *)

Lemma elem_of_keys_of (name : string) (k : string * string) t :
  k ∈ keys_of name t ↔ k.1 = name ∧ is_Some (t !! k).
Proof.
  unfold keys_of. rewrite list_elem_of_fmap. split.
  - intros ([v a] & -> & Hin). apply elem_of_partition_of in Hin.
    cbn. by rewrite Hin.
  - intros [<- [a Ha]]. destruct k as [n v]. exists (v, a).
    split; [done|]. by apply elem_of_partition_of.
Qed.

Lemma lookup_remove_keys (keys : list (string * string)) t (k : string * string) :
  remove_keys keys t !! k = if decide (k ∈ keys) then None else t !! k.
Proof.
  unfold remove_keys. revert t. induction keys as [|k0 keys IH]; intros t.
  - cbn. rewrite decide_False; [done|]. apply not_elem_of_nil.
  - cbn [foldl]. rewrite IH.
    destruct (decide (k ∈ keys)) as [Hin|Hnin].
    + rewrite decide_True; [done|]. by right.
    + destruct (decide (k = k0)) as [->|Hne].
      * rewrite lookup_delete_eq. rewrite decide_True; [done|]. by left.
      * rewrite lookup_delete_ne by done.
        rewrite decide_False; [done|].
        rewrite elem_of_cons. intros [?|?]; done.
Qed.

Lemma remove_keys_of (name : string) (keys : list (string * string)) t :
  keys ≡ₚ keys_of name t →
  remove_keys keys t = filter (λ kv, kv.1.1 ≠ name) t.
Proof.
  intros Hperm. apply map_eq. intros k. rewrite lookup_remove_keys.
  destruct (t !! k) as [a|] eqn:Hk.
  - destruct (decide (k.1 = name)) as [Hn|Hn].
    + rewrite decide_True.
      * symmetry. apply map_lookup_filter_None. right. intros a' _. cbn. auto.
      * rewrite Hperm. apply elem_of_keys_of. by rewrite Hk.
    + rewrite decide_False.
      * symmetry. by apply map_lookup_filter_Some.
      * rewrite Hperm. rewrite elem_of_keys_of. intros [? _]. done.
  - assert (filter (λ kv, kv.1.1 ≠ name) t !! k = None) as ->.
    { apply map_lookup_filter_None. by left. }
    by case_decide.
Qed.

Lemma collect_scan (name : string)
    (l : list ((string * string) * gmap string string)) :
  collect (project (Some ["name"; "version"]) <$>
             filter (λ it, it !! "name" = Some name)
               ((λ kv, full_item kv.1.1 kv.1.2 kv.2) <$> l))
  = Ok ((λ r, (name, r.1)) <$>
          omap (λ kv, if decide (kv.1.1 = name)
                      then Some (kv.1.2, kv.2) else None) l).
Proof.
  induction l as [|[[n v] a] l IH]; [done|].
  cbn [fmap list_fmap omap list_omap fst snd].
  destruct (full_item_name n v a) as [Hn Hv].
  rewrite filter_cons. destruct (decide (n = name)) as [->|Hne].
  - rewrite decide_True by done. cbn [fmap list_fmap collect].
    unfold attrS at 1 2, project.
    erewrite !map_lookup_filter_Some_2; [| exact Hv | cbn; set_solver
                                         | exact Hn | cbn; set_solver ].
    cbn [obind]. fold (project (Some ["name"; "version"])).
    change (list_fmap _ _ (project (Some ["name"; "version"])) ?x)
      with (project (Some ["name"; "version"]) <$> x).
    by rewrite IH.
  - rewrite decide_False by congruence. exact IH.
Qed.

Lemma getDeleteSecrets_all (name table : string) (w : World) t :
  quiet 1 w = true → tables w !! table = Some t →
  getDeleteSecrets name "" table w
  = (match keys_of name t with
     | [] => Err (not_found name)
     | keys => Ok keys
     end, advance w).
Proof.
  intros Hq Ht. unfold getDeleteSecrets, ddb_Scan.
  rewrite decide_True by done. unfold_M.
  cbn [s_TableName s_Filter s_ProjectionExpression].
  rewrite (request_read table _ w t) by done.
  cbn [s_Count s_Items]. rewrite collect_scan.
  fold (partition_of name t). fold (keys_of name t).
  assert (length (filter (λ it : gmap string string, it !! "name" = Some name)
                    ((λ kv, full_item kv.1.1 kv.1.2 kv.2) <$> map_to_list t))
          = length (keys_of name t)) as ->.
  { pose proof (collect_scan name (map_to_list t)) as Hc.
    fold (partition_of name t) in Hc. fold (keys_of name t) in Hc.
    revert Hc. generalize (keys_of name t).
    generalize (filter (λ it : gmap string string, it !! "name" = Some name)
                  ((λ kv, full_item kv.1.1 kv.1.2 kv.2) <$> map_to_list t)).
    induction l as [|i l IH]; intros keys; cbn.
    - by intros [= <-].
    - destruct (attrS _ "name"); [|done|done]. cbn.
      destruct (attrS _ "version"); [|done|done]. cbn.
      destruct (collect _) as [acc| |] eqn:E; [|done|done]. cbn.
      intros [= <-]. cbn. f_equal. by apply IH. }
  by destruct (keys_of name t).
Qed.

Lemma deleteItem_run (name version table : string) (w : World) t :
  quiet 1 w = true → tables w !! table = Some t →
  deleteItem name version table w
  = (Ok tt, with_table table (delete (name, version) t) (advance w)).
Proof.
  intros Hq Ht. unfold deleteItem, ddb_DeleteItem.
  cbn [d_TableName d_name d_version].
  by rewrite (request_quiet table _ w t).
Qed.

(** The loop over keys whose versions are integers deletes each of
    them. *)
Lemma delete_each_ok (items : list (string * string)) (table : string)
    (w : World) t :
  calm w = true → tables w !! table = Some t →
  Forall (λ k, is_Ok (Atoi k.2) = true) items →
  ∃ w', delete_each items table w = (Ok tt, w') ∧
        tables w' = <[table := remove_keys items t]> (tables w) ∧
        calm w' = true.
Proof.
  revert w t. induction items as [|[n v] items IH]; intros w t Hcalm Ht Hint.
  - exists w. cbn. split; [done|]. split; [|done].
    by rewrite insert_id.
  - apply Forall_cons in Hint as [Hv Hint]. cbn in Hv.
    destruct (Atoi v) as [ver| |] eqn:Hatoi; [|done|done].
    cbn [delete_each]. unfold_M.
    rewrite (deleteItem_run _ _ _ _ t) by (by apply calm_quiet || done).
    rewrite Hatoi. unfold Printf.
    set (w1 := {| tables := _; faults := _; stdout := _ |}).
    destruct (IH w1 (delete (n, v) t)) as (w' & Hrun & Htab & Hcalm').
    + by apply calm_advance in Hcalm.
    + subst w1. cbn. by rewrite lookup_insert_eq.
    + done.
    + exists w'. rewrite Hrun. split; [done|]. split; [|done].
      rewrite Htab. subst w1. cbn. by rewrite insert_insert_eq.
Qed.

(** The loop panics at the first key whose version is not an integer,
    once that record is deleted. *)
Lemma delete_each_panics (items : list (string * string)) (table : string)
    (w : World) t :
  calm w = true → tables w !! table = Some t →
  Exists (λ k, is_Ok (Atoi k.2) = false) items →
  is_Panic (delete_each items table w).1 = true.
Proof.
  revert w t. induction items as [|[n v] items IH]; intros w t Hcalm Ht Hbad.
  - by apply Exists_nil in Hbad.
  - cbn [delete_each]. unfold_M.
    rewrite (deleteItem_run _ _ _ _ t) by (by apply calm_quiet || done).
    destruct (Atoi v) as [ver| |] eqn:Hatoi; [|done|done].
    apply Exists_cons in Hbad as [Hv|Hbad].
    { cbn in Hv. by rewrite Hatoi in Hv. }
    unfold Printf.
    set (w1 := {| tables := _; faults := _; stdout := _ |}).
    apply (IH w1 (delete (n, v) t)).
    + by apply calm_advance in Hcalm.
    + subst w1. cbn. by rewrite lookup_insert_eq.
    + done.
Qed.

Lemma getDeleteSecrets_one (name version table : string) (w : World) t :
  version ≠ "" → quiet 1 w = true → tables w !! table = Some t →
  getDeleteSecrets name version table w
  = (match t !! (name, version) with
     | Some _ => Ok [(name, version)]
     | None =>
         match Atoi version with
         | Ok ver => Err (not_found_version name ver)
         | Err e | Panic e => Panic e
         end
     end, advance w).
Proof.
  intros Hv Hq Ht. unfold getDeleteSecrets, ddb_GetItem.
  rewrite decide_False by done. unfold_M. cbn [g_TableName g_name g_version].
  rewrite (request_read table _ w t) by done. cbn [g_Item].
  destruct (t !! (name, version)) as [a|]; cbn.
  - unfold attrS. destruct (full_item_name name version a) as [-> ->]. done.
  - by destruct (Atoi version).
Qed.

Section delete.
Variable range_order : list (string * string) → list (string * string).
Hypothesis range_order_perm : ∀ l, range_order l ≡ₚ l.

Lemma DeleteSecrets_split (name version table : string) (w : World) keys w1 :
  getDeleteSecrets name version table w = (Ok keys, w1) →
  DeleteSecrets range_order name version table w
  = delete_each (range_order keys) table w1.
Proof. intros Hget. unfold DeleteSecrets. unfold_M. by rewrite Hget. Qed.

Lemma DeleteSecrets_all_ok (name table : string) (w : World) t :
  calm w = true → tables w !! table = Some t →
  (∃ v, is_Some (t !! (name, v))) →
  (∀ v a, t !! (name, v) = Some a → is_Ok (Atoi v) = true) →
  ∃ w', DeleteSecrets range_order name "" table w = (Ok tt, w') ∧
        tables w' = <[table := filter (λ kv, kv.1.1 ≠ name) t]> (tables w).
Proof.
  intros Hcalm Ht [v0 Hv0] Hint.
  assert (keys_of name t ≠ []) as Hne.
  { intros Hnil. assert ((name, v0) ∈ keys_of name t) as Hin
      by by apply elem_of_keys_of.
    rewrite Hnil in Hin. by apply elem_of_nil in Hin. }
  rewrite (DeleteSecrets_split _ _ _ _ (keys_of name t) (advance w)).
  2:{ rewrite (getDeleteSecrets_all _ _ _ t)
        by (by apply calm_quiet || done).
      by destruct (keys_of name t). }
  destruct (delete_each_ok (range_order (keys_of name t)) table
              (advance w) t) as (w' & Hrun & Htab & _).
  - by apply calm_advance.
  - done.
  - apply Forall_forall. intros [n v] Hin.
    rewrite range_order_perm in Hin.
    apply elem_of_keys_of in Hin as [Hn [a Ha]]. cbn in *. subst n.
    by eapply Hint.
  - exists w'. split; [done|]. rewrite Htab. cbn.
    by rewrite (remove_keys_of name).
Qed.

Lemma DeleteSecrets_all_panics (name table : string) (w : World) t :
  calm w = true → tables w !! table = Some t →
  (∃ v a, t !! (name, v) = Some a ∧ is_Ok (Atoi v) = false) →
  is_Panic (DeleteSecrets range_order name "" table w).1 = true.
Proof.
  intros Hcalm Ht (v & a & Hv & Hbad).
  assert ((name, v) ∈ keys_of name t) as Hin
    by (apply elem_of_keys_of; by rewrite Hv).
  rewrite (DeleteSecrets_split _ _ _ _ (keys_of name t) (advance w)).
  2:{ rewrite (getDeleteSecrets_all _ _ _ t)
        by (by apply calm_quiet || done).
      destruct (keys_of name t); [by apply elem_of_nil in Hin|done]. }
  apply (delete_each_panics _ _ _ t); [by apply calm_advance|done|].
  apply Exists_exists. exists (name, v). split; [|done].
  by rewrite range_order_perm.
Qed.

Lemma range_order_singleton (k : string * string) : range_order [k] = [k].
Proof. apply Permutation_singleton_r. apply range_order_perm. Qed.
End delete.

(** C7, as the code has it: on a store where the versions kept under
    the name are integers, [DeleteSecrets] with an empty version deletes
    every record of the name and leaves the records of the other names as
    they are, and fails with the not-found error of the name when there is
    none; with a version that is an integer it deletes the record at
    exactly that key, and fails with the not-found error that carries the
    name and the integer when there is no such record.  (No request on the
    table meets a failure; the map of the keys is visited in any order.) *)
Theorem DeleteSecrets_all_or_one
    (range_order : list (string * string) → list (string * string))
    (name version table : string) (w : World) t :
  (∀ l, range_order l ≡ₚ l) →
  calm w = true →
  tables w !! table = Some t →
  (version = "" →
     ((∀ v, t !! (name, v) = None) →
        DeleteSecrets range_order name version table w
        = (Err ("Item {'name': '" +:+ name +:+ "'} couldn't be found."),
           advance w)) ∧
     ((∃ v, is_Some (t !! (name, v))) →
      (∀ v a, t !! (name, v) = Some a → is_Ok (Atoi v) = true) →
        ∃ w', DeleteSecrets range_order name version table w = (Ok tt, w') ∧
              tables w'
              = <[table := filter (λ kv, kv.1.1 ≠ name) t]> (tables w))) ∧
  (version ≠ "" →
     ∀ ver, Atoi version = Ok ver →
       (t !! (name, version) = None →
          DeleteSecrets range_order name version table w
          = (Err ("Item {'name': '" +:+ name +:+ "', 'version': "
                    +:+ fmt_d ver +:+ "} couldn't be found."),
             advance w)) ∧
       (is_Some (t !! (name, version)) →
          ∃ w', DeleteSecrets range_order name version table w = (Ok tt, w') ∧
                tables w' = <[table := delete (name, version) t]> (tables w))).
Proof.
  intros Hperm Hcalm Ht. split.
  - intros ->. split.
    + intros Hnone. unfold DeleteSecrets. unfold_M.
      rewrite (getDeleteSecrets_all _ _ _ t) by (by apply calm_quiet || done).
      assert (keys_of name t = []) as ->; [|done].
      unfold keys_of. by rewrite (proj2 (partition_of_nil name t) Hnone).
    + intros Hsome Hint. by apply DeleteSecrets_all_ok.
  - intros Hver ver Hatoi. split.
    + intros Hnone. unfold DeleteSecrets. unfold_M.
      rewrite (getDeleteSecrets_one _ _ _ _ t)
        by (by apply calm_quiet || done).
      by rewrite Hnone, Hatoi.
    + intros [a Ha].
      rewrite (DeleteSecrets_split _ _ _ _ _ [(name, version)] (advance w)).
      2:{ rewrite (getDeleteSecrets_one _ _ _ _ t)
            by (by apply calm_quiet || done).
          by rewrite Ha. }
      rewrite range_order_singleton by done.
      destruct (delete_each_ok [(name, version)] table (advance w) t)
        as (w' & Hrun & Htab & _).
      * by apply calm_advance.
      * done.
      * apply Forall_singleton. cbn. by rewrite Hatoi.
      * exists w'. split; [done|]. by rewrite Htab.
Qed.

Lemma DeleteSecrets_all_or_one_witness :
  (∃ w', DeleteSecrets (λ l, l) "foo" "" Stub.store (Stub.world Stub.seeded)
         = (Ok tt, w') ∧
         tables w' = <[Stub.store := filter (λ kv, kv.1.1 ≠ "foo") Stub.seeded]>
                       (tables (Stub.world Stub.seeded))) ∧
  (∃ w', DeleteSecrets (λ l, l) "foo" "1" Stub.store (Stub.world Stub.seeded)
         = (Ok tt, w') ∧
         tables w' = <[Stub.store := delete ("foo", "1") Stub.seeded]>
                       (tables (Stub.world Stub.seeded))) ∧
  DeleteSecrets (λ l, l) "foo" "3" Stub.store (Stub.world Stub.seeded)
  = (Err "Item {'name': 'foo', 'version': 3} couldn't be found.",
     advance (Stub.world Stub.seeded)).
Proof.
  assert (∀ l : list (string * string), (λ l, l) l ≡ₚ l) as Hid by done.
  split; [|split].
  - refine (proj2 (proj1 (DeleteSecrets_all_or_one (λ l, l) "foo" ""
                            Stub.store (Stub.world Stub.seeded) Stub.seeded
                            Hid _ _) _) _ _).
    + reflexivity.
    + reflexivity.
    + reflexivity.
    + exists "1", ∅. reflexivity.
    + intros v a Hv. by destruct (seeded_foo v a Hv) as [-> | ->].
  - refine (proj2 (proj2 (DeleteSecrets_all_or_one (λ l, l) "foo" "1"
                            Stub.store (Stub.world Stub.seeded) Stub.seeded
                            Hid _ _) _ 1 _) _).
    + reflexivity.
    + reflexivity.
    + discriminate.
    + reflexivity.
    + exists ∅. reflexivity.
  - refine (proj1 (proj2 (DeleteSecrets_all_or_one (λ l, l) "foo" "3"
                            Stub.store (Stub.world Stub.seeded) Stub.seeded
                            Hid _ _) _ 3 _) _).
    + reflexivity.
    + reflexivity.
    + discriminate.
    + reflexivity.
    + reflexivity.
Defined.

(** C7 as stated fails on versions that are not integers: deleting the
    absent record (foo, abc) panics instead of failing with the not-found
    error, and deleting every version of foo from a store that keeps
    (foo, x) and (foo, y) panics after the first of them and leaves the
    other. *)
Lemma DeleteSecrets_counterexample :
  (DeleteSecrets (λ l, l) "foo" "abc" Stub.store (Stub.world Stub.seeded)).1
    = Panic (atoi_syntax "abc") ∧
  (let r := DeleteSecrets (λ l, l) "foo" "" Stub.store
              (Stub.world (list_to_map [Stub.row "foo" "x"; Stub.row "foo" "y";
                                        Stub.row "bar" "1"])) in
   is_Panic r.1 = true ∧
   (t ← tables r.2 !! Stub.store; t !! ("foo", "x")) = Some ∅).
Proof. split; [|split]; vm_compute; reflexivity. Qed.

Lemma DeleteSecrets_one_panics
    (range_order : list (string * string) → list (string * string))
    (name version table : string) (w : World) t :
  (∀ l, range_order l ≡ₚ l) →
  calm w = true → tables w !! table = Some t →
  version ≠ "" → is_Ok (Atoi version) = false →
  is_Panic (DeleteSecrets range_order name version table w).1 = true.
Proof.
  intros Hperm Hcalm Ht Hver Hbad.
  destruct (t !! (name, version)) as [a|] eqn:Ha.
  - rewrite (DeleteSecrets_split _ _ _ _ _ [(name, version)] (advance w)).
    2:{ rewrite (getDeleteSecrets_one _ _ _ _ t)
          by (by apply calm_quiet || done).
        by rewrite Ha. }
    rewrite range_order_singleton by done.
    apply (delete_each_panics _ _ _ t); [by apply calm_advance|done|].
    by apply Exists_cons_hd.
  - unfold DeleteSecrets. unfold_M.
    rewrite (getDeleteSecrets_one _ _ _ _ t) by (by apply calm_quiet || done).
    rewrite Ha. by destruct (Atoi version).
Qed.

(** C10: there is a store state with a stored version that is not a
    decimal integer on which [GetHighestVersion] and [DeleteSecrets] panic
    on the failure of strconv.Atoi instead of returning an error; and, when
    no request on the table meets a failure, the two operations leave
    without a panic only if the versions they convert are integers: the
    greatest version of the name for [GetHighestVersion], every stored
    version of the name when [DeleteSecrets] deletes them all, the version
    asked for when it deletes one. *)
Theorem version_not_integer_panics :
  (∃ (w : World) (name table v : string) t,
     tables w !! table = Some t ∧ is_Some (t !! (name, v)) ∧
     is_Ok (Atoi v) = false ∧
     is_Panic (GetHighestVersion name table w).1 = true ∧
     ∀ range_order : list (string * string) → list (string * string),
       (∀ l, range_order l ≡ₚ l) →
       is_Panic (DeleteSecrets range_order name "" table w).1 = true ∧
       is_Panic (DeleteSecrets range_order name v table w).1 = true) ∧
  (∀ (range_order : list (string * string) → list (string * string))
     (name table : string) (w : World) t,
     (∀ l, range_order l ≡ₚ l) →
     calm w = true →
     tables w !! table = Some t →
     (is_Panic (GetHighestVersion name table w).1 = false →
        ∀ v a, newest name t v a → is_Ok (Atoi v) = true) ∧
     (is_Panic (DeleteSecrets range_order name "" table w).1 = false →
        ∀ v a, t !! (name, v) = Some a → is_Ok (Atoi v) = true) ∧
     (∀ version, version ≠ "" →
        is_Panic (DeleteSecrets range_order name version table w).1 = false →
        is_Ok (Atoi version) = true)).
Proof.
  split.
  - exists (Stub.world {[ ("foo", "abc") := ∅ ]}), "foo", Stub.store, "abc",
      {[ ("foo", "abc") := ∅ ]}.
    split; [reflexivity|]. split; [by eexists|]. split; [reflexivity|].
    split; [by vm_compute|].
    intros range_order Hperm. split.
    + apply (DeleteSecrets_all_panics _ Hperm _ _ _ {[ ("foo", "abc") := ∅ ]});
        [reflexivity|reflexivity|].
      by exists "abc", ∅.
    + by apply (DeleteSecrets_one_panics _ _ _ _ _ {[ ("foo", "abc") := ∅ ]}).
  - intros range_order name table w t Hperm Hcalm Ht. split; [|split].
    + intros Hnp v a Hnew.
      rewrite (GetHighestVersion_run _ _ _ t) in Hnp
        by (by apply calm_quiet || done).
      destruct (newest_first_of_newest _ _ _ _ Hnew) as [rest Hrows].
      rewrite Hrows in Hnp. cbn in Hnp. by destruct (Atoi v).
    + intros Hnp v a Hv.
      destruct (is_Ok (Atoi v)) eqn:Hatoi; [done|].
      rewrite (DeleteSecrets_all_panics range_order Hperm name table w t)
        in Hnp; [done..|].
      by exists v, a.
    + intros version Hver Hnp.
      destruct (is_Ok (Atoi version)) eqn:Hatoi; [done|].
      by rewrite (DeleteSecrets_one_panics range_order name version table w t)
        in Hnp.
Qed.

Lemma version_not_integer_panics_witness :
  is_Ok (Atoi "2") = true ∧
  is_Panic (GetHighestVersion "foo" Stub.store
              (Stub.world {[ ("foo", "1.5") := ∅ ]})).1 = true.
Proof.
  split.
  - refine (proj1 (proj2 version_not_integer_panics (λ l, l) "foo" Stub.store
                     (Stub.world Stub.seeded) Stub.seeded _ _ _) _ "2" ∅ _).
    + done.
    + reflexivity.
    + reflexivity.
    + by vm_compute.
    + exact seeded_newest_foo.
  - by vm_compute.
Defined.

(** ** The scenarios of the specification, run on the test doubles *)

Example scenario_put_get :
  let w1 := (PutSecret (P := Stub.primitives) (K := Stub.kms)
               "db-pass" "s3cr3t" "1" "alias/credstash" Stub.store ∅
               (Stub.world ∅)).2 in
  (GetSecret (P := Stub.primitives) (K := Stub.kms)
     "db-pass" "" Stub.store ∅ w1).1 = Ok "s3cr3t" ∧
  (PutSecret (P := Stub.primitives) (K := Stub.kms)
     "db-pass" "new" "1" "alias/credstash" Stub.store ∅ w1).1
  = Err "db-pass version 1 is already in the credential store. Use the -v flag to specify a new version" ∧
  (GetSecret (P := Stub.primitives) (K := Stub.kms)
     "db-pass" "1" Stub.store {[ "env" := "prod" ]} w1).1
  = Err "db-pass: Could not decrypt hmac key with KMS. The encryption context provided may not match the one used when the credential was stored.".
Proof. vm_compute. done. Qed.

Example scenario_kms_down :
  (PutSecret (P := Stub.primitives) (K := Stub.kms_down)
     "db-pass" "s3cr3t" "1" "alias/credstash" Stub.store ∅ (Stub.world ∅)).1
  = Err "Could not generate key using KMS key alias/credstash".
Proof. reflexivity. Qed.

Example scenario_highest_version :
  (GetHighestVersion "unknown-name" Stub.store (Stub.world Stub.seeded)).1
    = Ok 0 ∧
  (GetHighestVersion "foo" Stub.store (Stub.world Stub.seeded)).1 = Ok 2 ∧
  (GetHighestVersion "foo" Stub.store
     (Stub.world (list_to_map [Stub.row "foo" "9"; Stub.row "foo" "10"]))).1
    = Ok 9.
Proof. vm_compute. done. Qed.

Example scenario_delete :
  let all := DeleteSecrets (λ l, l) "foo" "" Stub.store
               (Stub.world Stub.seeded) in
  let one := DeleteSecrets (λ l, l) "foo" "1" Stub.store
               (Stub.world (list_to_map [Stub.row "foo" "1";
                                         Stub.row "foo" "2"])) in
  all.1 = Ok tt ∧
  (map_to_list <$> tables all.2 !! Stub.store) = Some [Stub.row "bar" "1"] ∧
  stdout all.2 = [deleting "foo" 1; deleting "foo" 2] ∧
  one.1 = Ok tt ∧
  (map_to_list <$> tables one.2 !! Stub.store) = Some [Stub.row "foo" "2"].
Proof. vm_compute. done. Qed.

Example scenario_list :
  ∃ items,
    (ListSecrets Stub.store
       (Stub.world (list_to_map [Stub.row "foo" "1"; Stub.row "bar" "2"]))).1
    = Ok items ∧
    items ≡ₚ [("bar", "2"); ("foo", "1")].
Proof.
  exists [("foo", "1"); ("bar", "2")]. split; [by vm_compute|].
  apply Permutation_swap.
Qed.

(** * Further properties of the driver *)

(** ** Requests in any world *)

Lemma request_read_world {A} (table : string) (f : _ → outcome A) (w : World) :
  (request table (λ t, (f t, t)) w).2 = advance w.
Proof.
  unfold request. destruct (faults w) as [|[e|] fs]; cbn; try done.
  - destruct (tables w !! table) as [t|] eqn:Ht; [|done].
    cbn. apply with_table_id. done.
  - destruct (tables w !! table) as [t|] eqn:Ht; [|done].
    cbn. apply with_table_id. done.
Qed.

Lemma request_failing {A} (table : string) op (w : World) (e : string) rest :
  faults w = Some e :: rest →
  request (A := A) table op w = (Err e, advance w).
Proof. intros Hf. unfold request. by rewrite Hf. Qed.

Lemma request_no_table {A} (table : string) op (w : World) :
  quiet 1 w = true → tables w !! table = None →
  request (A := A) table op w = (Err ResourceNotFound, advance w).
Proof.
  intros Hq Ht. apply quiet_S in Hq as [Hf _]. unfold request.
  destruct (faults w) as [|[e|] fs] eqn:Ef; rewrite ?Ht; try done.
  by destruct (Hf e fs).
Qed.

(** A read followed by steps that make no request. *)
Lemma read_then_pure {A B} (table : string) (f : _ → outcome A)
    (k : A → M B) (w : World) :
  (∀ a w0, (k a w0).2 = w0) →
  (mbind (M := M) k (request table (λ t, (f t, t))) w).2 = advance w.
Proof.
  intros Hk. unfold mbind, M_bind.
  pose proof (request_read_world table f w) as Hw.
  destruct (request table _ w) as [[a|e|e] w']; cbn in *; subst w'; [|done..].
  apply Hk.
Qed.

Lemma getMaterial_world (name version table : string) (w : World) :
  (getMaterial name version table w).2 = advance w.
Proof.
  unfold getMaterial, ddb_Query, ddb_GetItem.
  destruct (decide (version = "")); apply read_then_pure; intros resp w0.
  - unfold_M. destruct (q_Count resp =? 0); [done|]. by destruct (q_Items resp).
  - unfold_M. by destruct (g_Item resp).
Qed.

Lemma GetHighestVersion_world (name table : string) (w : World) :
  (GetHighestVersion name table w).2 = advance w.
Proof.
  unfold GetHighestVersion, ddb_Query. apply read_then_pure. intros resp w0.
  unfold_M. destruct (q_Count resp =? 0); [done|].
  destruct (q_Items resp) as [|item ?]; [done|].
  destruct (attrS item "version"); [|done..]. by destruct (Atoi _).
Qed.

Lemma getDeleteSecrets_world (name version table : string) (w : World) :
  (getDeleteSecrets name version table w).2 = advance w.
Proof.
  unfold getDeleteSecrets, ddb_Scan, ddb_GetItem.
  destruct (decide (version = "")); apply read_then_pure; intros resp w0.
  - unfold_M. by destruct (s_Count resp =? 0).
  - unfold_M. destruct (g_Item resp); [done|]. by destruct (Atoi version).
Qed.

(** X1: the reads of the driver ([getMaterial], [GetSecret],
    [GetHighestVersion], [ListSecrets]) send one request and change
    nothing: in every world, whatever they return, the tables and the
    output are as before. *)
Theorem reads_change_nothing {P : Primitives} {K : KMS}
    (name version table : string) (context : gmap string string) (w : World) :
  (getMaterial name version table w).2 = advance w ∧
  (GetSecret name version table context w).2 = advance w ∧
  (GetHighestVersion name table w).2 = advance w ∧
  (ListSecrets table w).2 = advance w ∧
  tables (advance w) = tables w ∧ stdout (advance w) = stdout w.
Proof.
  split; [apply getMaterial_world|]. split; [|split; [|split; [|done]]].
  - unfold GetSecret. unfold_M.
    pose proof (getMaterial_world name version table w) as Hw.
    destruct (getMaterial name version table w) as [[m|e|e] w']; cbn in *;
      subst w'; [|done..].
    by destruct (decryptMaterial name m context).
  - apply GetHighestVersion_world.
  - unfold ListSecrets, ddb_Scan. apply read_then_pure. by intros resp w0.
Qed.

(** ** Failures of a request *)

Lemma request_refused {A} (table : string) op (w : World) (e : string) :
  (∃ rest, faults w = Some e :: rest) ∨
  (quiet 1 w = true ∧ tables w !! table = None ∧ e = ResourceNotFound) →
  request (A := A) table op w = (Err e, advance w).
Proof.
  intros [[rest Hf]|(Hq & Ht & ->)].
  - by eapply request_failing.
  - by apply request_no_table.
Qed.

(** X2: when the request of a read or of a delete fails, because the
    service answers with an error or because the table is not there, the
    operation returns that error as it is, and nothing is deleted. *)
Theorem request_error_returned {P : Primitives} {K : KMS}
    (range_order : list (string * string) → list (string * string))
    (name version table : string) (context : gmap string string)
    (w : World) (e : string) :
  (∃ rest, faults w = Some e :: rest) ∨
  (quiet 1 w = true ∧ tables w !! table = None ∧ e = ResourceNotFound) →
  getMaterial name version table w = (Err e, advance w) ∧
  GetSecret name version table context w = (Err e, advance w) ∧
  GetHighestVersion name table w = (Err e, advance w) ∧
  ListSecrets table w = (Err e, advance w) ∧
  DeleteSecrets range_order name version table w = (Err e, advance w).
Proof.
  intros Hfail.
  assert (getMaterial name version table w = (Err e, advance w)) as Hget.
  { unfold getMaterial, ddb_Query, ddb_GetItem. unfold_M.
    destruct (decide (version = ""));
      by rewrite (request_refused _ _ _ e Hfail). }
  split; [exact Hget|]. split; [|split; [|split]].
  - unfold GetSecret. unfold_M. by rewrite Hget.
  - unfold GetHighestVersion, ddb_Query. unfold_M.
    by rewrite (request_refused _ _ _ e Hfail).
  - unfold ListSecrets, ddb_Scan. unfold_M.
    by rewrite (request_refused _ _ _ e Hfail).
  - unfold DeleteSecrets, getDeleteSecrets, ddb_Scan, ddb_GetItem. unfold_M.
    destruct (decide (version = ""));
      by rewrite (request_refused _ _ _ e Hfail).
Qed.

Lemma request_error_returned_witness :
  GetSecret (P := Stub.primitives) (K := Stub.kms) "foo" "1" Stub.store ∅
    {| tables := {[ Stub.store := Stub.seeded ]};
       faults := [Some "RequestError: send request failed"]; stdout := [] |}
  = (Err "RequestError: send request failed", Stub.world Stub.seeded) ∧
  DeleteSecrets (λ l, l) "foo" "" "no-such-table" (Stub.world Stub.seeded)
  = (Err "ResourceNotFoundException: Requested resource not found",
     Stub.world Stub.seeded).
Proof.
  split.
  - refine (proj1 (proj2 (request_error_returned (P := Stub.primitives)
                            (K := Stub.kms) (λ l, l) "foo" "1" Stub.store ∅
                            {| tables := {[ Stub.store := Stub.seeded ]};
                               faults := [Some "RequestError: send request failed"];
                               stdout := [] |}
                            "RequestError: send request failed" _))).
    left. by exists [].
  - refine (proj2 (proj2 (proj2 (proj2 (request_error_returned
                     (P := Stub.primitives) (K := Stub.kms) (λ l, l) "foo" ""
                     "no-such-table" ∅ (Stub.world Stub.seeded)
                     "ResourceNotFoundException: Requested resource not found"
                     _))))).
    right. split; [reflexivity|]. split; reflexivity.
Defined.

(** ** The data key of [PutSecret] *)

(** X3: when the service does not generate a data key, [PutSecret]
    fails with the message that names the master key, whatever the error of
    the service was, and sends no request to the table. *)
Theorem PutSecret_no_data_key {P : Primitives} {K : KMS}
    (name secret version kmsKey table : string)
    (context : gmap string string) (w : World) (e : string) :
  kms_GenerateDataKey {| gk_KeyId := kmsKey; gk_NumberOfBytes := 64;
                         gk_EncryptionContext := encryption_context context |}
    = Err e →
  PutSecret name secret version kmsKey table context w
  = (Err ("Could not generate key using KMS key " +:+ kmsKey), w).
Proof.
  intros Hgen. unfold PutSecret, generateDataKey. rewrite Hgen. by unfold_M.
Qed.

Lemma PutSecret_no_data_key_witness :
  PutSecret (P := Stub.primitives) (K := Stub.kms_down)
    "db-pass" "s3cr3t" "1" "alias/credstash" Stub.store ∅ (Stub.world ∅)
  = (Err "Could not generate key using KMS key alias/credstash", Stub.world ∅).
Proof.
  apply (PutSecret_no_data_key (P := Stub.primitives) (K := Stub.kms_down)
           "db-pass" "s3cr3t" "1" "alias/credstash" Stub.store ∅ (Stub.world ∅)
           "RequestError: send request failed").
  reflexivity.
Defined.

(** X4: a data key of fewer than 32 bytes cannot be cut into its two
    halves: [PutSecret] panics before it sends a request to the table, and
    [decryptMaterial] panics before it looks at the contents. *)
Theorem short_data_key_panics {P : Primitives} {K : KMS}
    (name secret version kmsKey table : string)
    (context material : gmap string string) (w : World) :
  (∀ kmsResp,
     kms_GenerateDataKey {| gk_KeyId := kmsKey; gk_NumberOfBytes := 64;
                            gk_EncryptionContext := encryption_context context |}
       = Ok kmsResp →
     (length (gk_Plaintext kmsResp) < 32)%nat →
     ∃ e, PutSecret name secret version kmsKey table context w = (Panic e, w)) ∧
  (∀ keyS data resp,
     material !! "key" = Some keyS → base64_DecodeString keyS = Ok data →
     kms_Decrypt {| dc_CiphertextBlob := data;
                    dc_EncryptionContext := encryption_context context |}
       = Ok resp →
     (length (dc_Plaintext resp) < 32)%nat →
     is_Panic (decryptMaterial name material context) = true).
Proof.
  split.
  - intros kmsResp Hgen Hlen. exists slice_bounds.
    unfold PutSecret, generateDataKey. rewrite Hgen. unfold_M.
    unfold slice_to. by rewrite decide_False by lia.
  - intros keyS data resp Hk Hkd Hkms Hlen.
    unfold decryptMaterial, attrS, slice_to. rewrite Hk. cbn [obind].
    rewrite Hkd, Hkms. by rewrite decide_False by lia.
Qed.

Lemma short_data_key_panics_witness :
  is_Panic (decryptMaterial (P := Stub.primitives) (K := Stub.kms) "db-pass"
              (record_item "db-pass" "1" [x00; x01; x02] [] []) ∅) = true.
Proof.
  refine (proj2 (short_data_key_panics (P := Stub.primitives) (K := Stub.kms)
                   "db-pass" "" "1" "" Stub.store ∅ _ (Stub.world ∅))
            (base64_EncodeToString [x00; x01; x02]) [x00; x01; x02]
            {| dc_Plaintext := [x02; x01] |} _ _ _ _).
  - reflexivity.
  - reflexivity.
  - reflexivity.
  - cbn. lia.
Defined.

(** ** What [PutSecret] does to the table *)

(** The conditional insert either adds the record under a free key, or
    fails and leaves the tables as they are. *)
Lemma putItem_cases (name version table : string) (key contents hmac : list byte)
    (w : World) :
  (∃ e, putItem name version key contents hmac table w = (Err e, advance w)) ∨
  (∃ t, tables w !! table = Some t ∧ t !! (name, version) = None ∧
        putItem name version key contents hmac table w
        = (Ok tt,
           with_table table
             (<[(name, version) := stored name version key contents hmac]> t)
             (advance w))).
Proof.
  unfold putItem, ddb_PutItem, request. cbn [p_TableName p_Item].
  fold (record_item name version key contents hmac).
  assert (record_item name version key contents hmac !! "name" = Some name)
    as -> by (unfold record_item; by simplify_map_eq).
  assert (record_item name version key contents hmac !! "version"
          = Some version) as -> by (unfold record_item; by simplify_map_eq).
  cbn [p_ConditionNotExists].
  assert (∀ t, (tables w !! table = Some t) →
    (∃ e, (let '(r, t') :=
             if match t !! (name, version) with
                | Some old => bool_decide (full_item name version old !! "name" = None)
                | None => true
                end
             then (Ok tt, <[(name, version) :=
                     delete "name" (delete "version"
                       (record_item name version key contents hmac))]> t)
             else (Err ConditionalCheckFailed, t)
           in (r, with_table table t' (advance w))) = (Err e, advance w)) ∨
    (∃ t0, tables w !! table = Some t0 ∧ t0 !! (name, version) = None ∧
       (let '(r, t') :=
             if match t !! (name, version) with
                | Some old => bool_decide (full_item name version old !! "name" = None)
                | None => true
                end
             then (Ok tt, <[(name, version) :=
                     delete "name" (delete "version"
                       (record_item name version key contents hmac))]> t)
             else (Err ConditionalCheckFailed, t)
           in (r, with_table table t' (advance w)))
       = (Ok tt, with_table table
             (<[(name, version) := stored name version key contents hmac]> t0)
             (advance w)))) as Hop.
  { intros t Ht. destruct (t !! (name, version)) as [old|] eqn:E.
    - left. exists ConditionalCheckFailed.
      destruct (full_item_name name version old) as [-> _].
      rewrite bool_decide_eq_false_2 by done. by rewrite with_table_id.
    - right. by exists t. }
  destruct (faults w) as [|[e|] fs].
  - destruct (tables w !! table) as [t|] eqn:Ht; [by apply Hop|].
    left. by eexists.
  - left. by eexists.
  - destruct (tables w !! table) as [t|] eqn:Ht; [by apply Hop|].
    left. by eexists.
Qed.

(** X5: [PutSecret] returns without error only when the key (name,
    version) was free, and then it has sent one request and the table holds
    one record more, the one of the secret: its wrapped key and its
    ciphertext in base64 and its tag in hex. *)
Theorem PutSecret_Ok_inserted {P : Primitives} {K : KMS}
    (name secret version kmsKey table : string)
    (context : gmap string string) (w w' : World) :
  PutSecret name secret version kmsKey table context w = (Ok tt, w') →
  ∃ kmsResp t,
    kms_GenerateDataKey {| gk_KeyId := kmsKey; gk_NumberOfBytes := 64;
                           gk_EncryptionContext := encryption_context context |}
      = Ok kmsResp ∧
    tables w !! table = Some t ∧
    t !! (name, version) = None ∧
    let cipherText :=
      XORKeyStream (aes_encrypt (take 32 (gk_Plaintext kmsResp))) iv
        (list_byte_of_string secret) in
    w' = with_table table
           (<[(name, version) :=
                {[ "key" := base64_EncodeToString (gk_CiphertextBlob kmsResp);
                   "contents" := base64_EncodeToString cipherText;
                   "hmac" := hex_EncodeToString
                               (doHmac cipherText
                                  (drop 32 (gk_Plaintext kmsResp))) ]}]> t)
           (advance w).
Proof.
  unfold PutSecret, generateDataKey. unfold_M.
  destruct (kms_GenerateDataKey _) as [kmsResp| |] eqn:Hgen; [|done..].
  unfold slice_to, slice_from. case_decide as Hlen; [|done].
  unfold cryptAES, aes_NewCipher.
  rewrite decide_True by (rewrite length_take; lia).
  unfold err_of.
  set (cipherText := XORKeyStream _ _ _).
  set (hmac := doHmac _ _).
  destruct (putItem_cases name version table (gk_CiphertextBlob kmsResp)
              cipherText hmac w) as [[e ->]|(t & Ht & Hfree & ->)].
  - destruct (Contains e "ConditionalCheckFailedException"); [|done].
    by destruct (GetHighestVersion name table (advance w)) as [[v|e'|e'] w''].
  - intros [= <-]. exists kmsResp, t. split; [done|]. split; [done|].
    split; [done|]. reflexivity.
Qed.

Lemma PutSecret_Ok_inserted_witness :
  ∃ kmsResp t,
    kms_GenerateDataKey (KMS := Stub.kms)
      {| gk_KeyId := "alias/credstash"; gk_NumberOfBytes := 64;
         gk_EncryptionContext := encryption_context ∅ |} = Ok kmsResp ∧
    tables (Stub.world Stub.seeded) !! Stub.store = Some t ∧
    t !! ("db-pass", "1") = None ∧
    let cipherText :=
      XORKeyStream (aes_encrypt (Primitives := Stub.primitives)
                      (take 32 (gk_Plaintext kmsResp))) iv
        (list_byte_of_string "s3cr3t") in
    (PutSecret (P := Stub.primitives) (K := Stub.kms) "db-pass" "s3cr3t" "1"
       "alias/credstash" Stub.store ∅ (Stub.world Stub.seeded)).2
    = with_table Stub.store
        (<[("db-pass", "1") :=
             {[ "key" := base64_EncodeToString (gk_CiphertextBlob kmsResp);
                "contents" := base64_EncodeToString cipherText;
                "hmac" := hex_EncodeToString
                            (doHmac (P := Stub.primitives) cipherText
                               (drop 32 (gk_Plaintext kmsResp))) ]}]> t)
        (advance (Stub.world Stub.seeded)).
Proof.
  apply (PutSecret_Ok_inserted (P := Stub.primitives) (K := Stub.kms)
           "db-pass" "s3cr3t" "1" "alias/credstash" Stub.store ∅
           (Stub.world Stub.seeded)).
  by vm_compute.
Defined.

Lemma record_at_advance (w : World) (table : string) (k : string * string) :
  record_at (advance w) table k = record_at w table k.
Proof. done. Qed.

Lemma record_at_with_table (w : World) (table tb : string) t
    (k : string * string) :
  record_at (with_table table t w) tb k
  = if decide (tb = table) then t !! k else record_at w tb k.
Proof.
  unfold record_at, with_table. cbn. case_decide as Htb.
  - subst tb. by rewrite lookup_insert_eq.
  - by rewrite lookup_insert_ne.
Qed.

(** X6: whatever it returns, in every world, [PutSecret] leaves every
    stored record as it is: the only key whose record can be new afterwards
    is (name, version) of its table, and only if it was free; nothing is
    written to the output. *)
Theorem PutSecret_keeps_records {P : Primitives} {K : KMS}
    (name secret version kmsKey table : string)
    (context : gmap string string) (w : World) :
  let w' := (PutSecret name secret version kmsKey table context w).2 in
  (∀ tb k a, record_at w tb k = Some a → record_at w' tb k = Some a) ∧
  (∀ tb k, tb ≠ table ∨ k ≠ (name, version) →
     record_at w' tb k = record_at w tb k) ∧
  stdout w' = stdout w.
Proof.
  assert (let w' := (PutSecret name secret version kmsKey table context w).2 in
          (∀ tb k, record_at w' tb k = record_at w tb k) ∧ stdout w' = stdout w
          ∨ ∃ t a, tables w !! table = Some t ∧ t !! (name, version) = None ∧
                   w' = with_table table (<[(name, version) := a]> t)
                          (advance w)) as Hcases.
  { unfold PutSecret, generateDataKey. unfold_M.
    destruct (kms_GenerateDataKey _) as [kmsResp| |]; [|by left..].
    unfold slice_to, slice_from. case_decide; [|by left].
    unfold cryptAES, aes_NewCipher.
    rewrite decide_True by (rewrite length_take; lia).
    unfold err_of.
    set (cipherText := XORKeyStream _ _ _).
    set (hmac := doHmac _ _).
    destruct (putItem_cases name version table (gk_CiphertextBlob kmsResp)
                cipherText hmac w) as [[e ->]|(t & Ht & Hfree & ->)].
    - left. destruct (Contains e "ConditionalCheckFailedException"); [|done].
      pose proof (GetHighestVersion_world name table (advance w)) as Hw.
      destruct (GetHighestVersion name table (advance w)) as [[v|e'|e'] w''];
        cbn in *; by subst w''.
    - right. by eexists _, _. }
  cbn zeta in *. destruct Hcases as [[Hsame Hout]|(t & a & Ht & Hfree & ->)].
  - split; [|split; [|done]].
    + intros tb k a0. by rewrite Hsame.
    + intros tb k _. apply Hsame.
  - split; [|split; [|done]].
    + intros tb k a0 Hk. rewrite record_at_with_table. case_decide as Htb.
      * subst tb. unfold record_at in Hk. cbn in Hk. rewrite Ht in Hk.
        cbn in Hk. destruct (decide (k = (name, version))) as [->|Hne].
        -- by rewrite Hfree in Hk.
        -- by rewrite lookup_insert_ne.
      * done.
    + intros tb k Hother. rewrite record_at_with_table. case_decide as Htb.
      * subst tb. destruct Hother as [?|Hk]; [done|].
        rewrite lookup_insert_ne by done.
        unfold record_at. cbn. by rewrite Ht.
      * done.
Qed.

(** ** What [GetSecret] returns *)

(** X7: an error of the service that unwraps the key, other than
    InvalidCiphertextException, is returned by [decryptMaterial] and by
    [GetSecret] as it is. *)
Theorem decryptMaterial_kms_error {P : Primitives} {K : KMS}
    (name : string) (material context : gmap string string)
    (keyS e : string) (data : list byte) :
  material !! "key" = Some keyS →
  base64_DecodeString keyS = Ok data →
  kms_Decrypt {| dc_CiphertextBlob := data;
                 dc_EncryptionContext := encryption_context context |}
    = Err e →
  Contains e "InvalidCiphertextException" = false →
  decryptMaterial name material context = Err e ∧
  ∀ version table w w',
    getMaterial name version table w = (Ok material, w') →
    GetSecret name version table context w = (Err e, w').
Proof.
  intros Hk Hkd Hkms Hother.
  assert (decryptMaterial name material context = Err e) as Hopen.
  { unfold decryptMaterial, attrS. rewrite Hk. cbn [obind].
    by rewrite Hkd, Hkms, Hother. }
  split; [exact Hopen|]. intros version table w w' Hget.
  by rewrite (GetSecret_run _ _ _ _ _ _ _ Hget), Hopen.
Qed.

Lemma decryptMaterial_kms_error_witness :
  decryptMaterial (P := Stub.primitives) (K := Stub.kms_down) "db-pass"
    (record_item "db-pass" "1" [x00] [] []) ∅
  = Err "RequestError: send request failed".
Proof.
  refine (proj1 (decryptMaterial_kms_error (P := Stub.primitives)
                   (K := Stub.kms_down) "db-pass" _ ∅
                   (base64_EncodeToString [x00])
                   "RequestError: send request failed" [x00] _ _ _ _));
    reflexivity.
Defined.

(** X8: [GetSecret] returns a plaintext only for a record it has read
    from the table whose three fields decode, whose key the service has
    unwrapped to at least 32 bytes, and whose stored tag is the HMAC of the
    stored ciphertext under the second half of that key; the plaintext is
    then the ciphertext under the key stream of the first half. *)
Theorem GetSecret_Ok_verified {P : Primitives} {K : KMS}
    (name version table plainText : string) (context : gmap string string)
    (w w' : World) :
  GetSecret name version table context w = (Ok plainText, w') →
  ∃ material keyS data resp contentsS contents hmacS,
    getMaterial name version table w = (Ok material, w') ∧
    material !! "key" = Some keyS ∧ base64_DecodeString keyS = Ok data ∧
    kms_Decrypt {| dc_CiphertextBlob := data;
                   dc_EncryptionContext := encryption_context context |}
      = Ok resp ∧
    (32 ≤ length (dc_Plaintext resp))%nat ∧
    material !! "contents" = Some contentsS ∧
    base64_DecodeString contentsS = Ok contents ∧
    material !! "hmac" = Some hmacS ∧
    hex_DecodeString hmacS
      = Ok (doHmac contents (drop 32 (dc_Plaintext resp))) ∧
    plainText
    = string_of_list_byte
        (XORKeyStream (aes_encrypt (take 32 (dc_Plaintext resp))) iv contents).
Proof.
  unfold GetSecret. unfold_M.
  destruct (getMaterial name version table w) as [[material|e|e] w1] eqn:Hget;
    [|done..].
  destruct (decryptMaterial name material context) as [p|e|e] eqn:Hopen;
    [|done..].
  intros [= -> ->].
  destruct (decryptMaterial_Ok_inv _ _ _ _ Hopen)
    as (keyS & data & resp & contentsS & contents & hmacS & mac
        & Hk & Hkd & Hkms & Hlen & Hc & Hcd & Hm & Hmd & Hmac).
  exists material, keyS, data, resp, contentsS, contents, hmacS.
  rewrite (decryptMaterial_run _ _ _ _ _ _ _ _ _ _
             Hk Hkd Hkms Hlen Hc Hcd Hm Hmd) in Hopen.
  rewrite bool_decide_eq_true_2 in Hopen by done.
  injection Hopen as <-. subst mac. by repeat split.
Qed.

Lemma GetSecret_Ok_verified_witness :
  ∃ material keyS data resp contentsS contents hmacS,
    getMaterial "db-pass" "1" Stub.store
      (PutSecret (P := Stub.primitives) (K := Stub.kms) "db-pass" "s3cr3t" "1"
         "alias/credstash" Stub.store ∅ (Stub.world ∅)).2
    = (Ok material,
       advance (PutSecret (P := Stub.primitives) (K := Stub.kms) "db-pass"
                  "s3cr3t" "1" "alias/credstash" Stub.store ∅
                  (Stub.world ∅)).2) ∧
    material !! "key" = Some keyS ∧ base64_DecodeString keyS = Ok data ∧
    kms_Decrypt (KMS := Stub.kms)
      {| dc_CiphertextBlob := data;
         dc_EncryptionContext := encryption_context ∅ |} = Ok resp ∧
    (32 ≤ length (dc_Plaintext resp))%nat ∧
    material !! "contents" = Some contentsS ∧
    base64_DecodeString contentsS = Ok contents ∧
    material !! "hmac" = Some hmacS ∧
    hex_DecodeString hmacS
      = Ok (doHmac (P := Stub.primitives) contents
              (drop 32 (dc_Plaintext resp))) ∧
    "s3cr3t"
    = string_of_list_byte
        (XORKeyStream (aes_encrypt (Primitives := Stub.primitives)
                         (take 32 (dc_Plaintext resp))) iv contents).
Proof.
  apply (GetSecret_Ok_verified (P := Stub.primitives) (K := Stub.kms)
           "db-pass" "1" Stub.store "s3cr3t" ∅).
  by vm_compute.
Defined.

(** ** The stream cipher of the driver *)

(** X9: under a key of 16, 24 or 32 bytes [cryptAES] gives a text as
    long as its input, and applied to that text under the same key it
    gives the input back; under a key of any other length it panics.
    (Blocks of the cipher are 16 bytes.) *)
Theorem cryptAES_self_inverse {P : Primitives} (contents key : list byte) :
  block_size_ok →
  ((length key = 16 ∨ length key = 24 ∨ length key = 32)%nat →
     ∃ text, cryptAES contents key = Ok text ∧
             length text = length contents ∧
             cryptAES text key = Ok contents) ∧
  (¬ (length key = 16 ∨ length key = 24 ∨ length key = 32)%nat →
     is_Panic (cryptAES contents key) = true).
Proof.
  intros Hblock. unfold cryptAES, aes_NewCipher. split.
  - intros Hk. rewrite decide_True by done.
    exists (XORKeyStream (aes_encrypt key) iv contents).
    split; [done|]. split.
    + apply XORKeyStream_length. intros c. apply Hblock.
    + f_equal. apply XORKeyStream_involutive. intros c. apply Hblock.
  - intros Hk. by rewrite decide_False.
Qed.

Lemma cryptAES_self_inverse_witness :
  (∃ text, cryptAES (P := Stub.primitives) [x01; x02; x03]
             (repeat x07 16) = Ok text ∧
           length text = 3%nat ∧
           cryptAES (P := Stub.primitives) text (repeat x07 16)
           = Ok [x01; x02; x03]) ∧
  is_Panic (cryptAES (P := Stub.primitives) [x01; x02; x03] [x07]) = true.
Proof.
  destruct (cryptAES_self_inverse (P := Stub.primitives) [x01; x02; x03]
              (repeat x07 16) stub_block_size) as [Hok _].
  destruct (cryptAES_self_inverse (P := Stub.primitives) [x01; x02; x03]
              [x07] stub_block_size) as [_ Hbad].
  split.
  - apply Hok. left. reflexivity.
  - apply Hbad. cbn. lia.
Defined.

(** ** What [DeleteSecrets] does to the tables *)

Lemma only_deleted_refl name table w : only_deleted name table w w.
Proof. intros tb k. by left. Qed.

Lemma only_deleted_advance name table w : only_deleted name table w (advance w).
Proof. intros tb k. by left. Qed.

Lemma only_deleted_trans name table w1 w2 w3 :
  only_deleted name table w1 w2 → only_deleted name table w2 w3 →
  only_deleted name table w1 w3.
Proof.
  intros H12 H23 tb k.
  destruct (H23 tb k) as [H|H]; [|by right].
  rewrite H. apply H12.
Qed.

Lemma deleteItem_only_deleted (name version table : string) (w : World) :
  only_deleted name table w (deleteItem name version table w).2.
Proof.
  unfold deleteItem, ddb_DeleteItem, request. cbn [d_TableName d_name d_version].
  assert (∀ t, tables w !! table = Some t →
            only_deleted name table w
              (with_table table (delete (name, version) t) (advance w)))
    as Hdel.
  { intros t Ht tb k. rewrite record_at_with_table. case_decide as Htb.
    - subst tb. destruct (decide (k = (name, version))) as [->|Hne].
      + right. by rewrite lookup_delete_eq.
      + left. rewrite lookup_delete_ne by done.
        unfold record_at. by rewrite Ht.
    - by left. }
  destruct (faults w) as [|[e|] fs]; cbn.
  - destruct (tables w !! table) as [t|] eqn:Ht; cbn;
      [by apply Hdel | apply only_deleted_advance].
  - apply only_deleted_advance.
  - destruct (tables w !! table) as [t|] eqn:Ht; cbn;
      [by apply Hdel | apply only_deleted_advance].
Qed.

Lemma delete_each_only_deleted (name table : string)
    (items : list (string * string)) (w : World) :
  Forall (λ k, k.1 = name) items →
  only_deleted name table w (delete_each items table w).2.
Proof.
  revert w. induction items as [|[n v] items IH]; intros w Hnames.
  - apply only_deleted_refl.
  - apply Forall_cons in Hnames as [Hn Hnames]. cbn in Hn. subst n.
    cbn [delete_each]. unfold_M.
    pose proof (deleteItem_only_deleted name v table w) as Hstep.
    destruct (deleteItem name v table w) as [[[]|e|e] w1]; cbn in *;
      [|done..].
    destruct (Atoi v) as [ver| |]; [|done..].
    unfold Printf.
    set (w2 := {| tables := tables w1; faults := faults w1;
                  stdout := stdout w1 ++ [deleting name ver] |}).
    eapply only_deleted_trans; [exact Hstep|].
    apply (only_deleted_trans _ _ w1 w2); [intros tb k; by left|].
    by apply IH.
Qed.

Lemma collect_names (name : string) (items : list (gmap string string))
    (keys : list (string * string)) :
  Forall (λ it, it !! "name" = Some name) items →
  collect items = Ok keys → Forall (λ k, k.1 = name) keys.
Proof.
  revert keys. induction items as [|i items IH]; intros keys Hall.
  - by intros [= <-].
  - apply Forall_cons in Hall as [Hi Hall]. cbn. unfold attrS at 1.
    rewrite Hi. cbn. destruct (attrS i "version") as [v| |]; [|done..]. cbn.
    destruct (collect items) as [acc| |]; [|done..]. cbn.
    intros [= <-]. constructor; [done|]. by apply IH.
Qed.

Lemma getDeleteSecrets_names (name version table : string) (w w1 : World)
    (keys : list (string * string)) :
  getDeleteSecrets name version table w = (Ok keys, w1) →
  Forall (λ k, k.1 = name) keys.
Proof.
  unfold getDeleteSecrets, ddb_Scan, ddb_GetItem, request. unfold_M.
  cbn [s_TableName s_Filter s_ProjectionExpression g_TableName g_name g_version].
  assert (∀ l : list (gmap string string),
            Forall (λ it, it !! "name" = Some name)
              (project (Some ["name"; "version"]) <$>
                 filter (λ it, it !! "name" = Some name) l)) as Hscan.
  { intros l. apply Forall_fmap, Forall_forall. intros it Hit.
    apply list_elem_of_filter in Hit as [Hit _]. cbn.
    apply map_lookup_filter_Some_2; [done|]. cbn. set_solver. }
  assert (∀ t, collect [full_item name version t] = Ok keys →
               Forall (λ k, k.1 = name) keys) as Hone.
  { intros t. apply collect_names. constructor; [|done].
    by destruct (full_item_name name version t). }
  destruct (decide (version = "")).
  - destruct (faults w) as [|[e0|] fs]; try done;
      (destruct (tables w !! table) as [t|]; [|done]; cbn;
       destruct (_ =? 0); [done|]; intros [= Hc _];
       by eapply collect_names).
  - destruct (faults w) as [|[e0|] fs]; try done;
      (destruct (tables w !! table) as [t|]; [|done]; cbn;
       destruct (t !! (name, version)) as [a|]; cbn;
       [intros [= Hc _]; by eapply Hone
       |by destruct (Atoi version)]).
Qed.

(** X10: whatever it returns, in every world and for any order of the
    map, [DeleteSecrets] adds no record and changes none, and the only
    records it removes are records of its name in its table. *)
Theorem DeleteSecrets_only_deletes
    (range_order : list (string * string) → list (string * string))
    (name version table : string) (w : World) :
  (∀ l, range_order l ≡ₚ l) →
  ∀ tb k,
    record_at (DeleteSecrets range_order name version table w).2 tb k
      = record_at w tb k ∨
    (tb = table ∧ k.1 = name ∧
     record_at (DeleteSecrets range_order name version table w).2 tb k = None).
Proof.
  intros Hperm. change (only_deleted name table w
                          (DeleteSecrets range_order name version table w).2).
  unfold DeleteSecrets. unfold_M.
  pose proof (getDeleteSecrets_world name version table w) as Hw.
  destruct (getDeleteSecrets name version table w) as [[keys|e|e] w1] eqn:Hget;
    cbn in *; subst w1; [|intros tb k; by left..].
  apply (only_deleted_trans _ _ w (advance w)); [intros tb k; by left|].
  apply delete_each_only_deleted.
  apply getDeleteSecrets_names in Hget.
  rewrite Forall_forall in *. intros k Hk. apply Hget. by rewrite <- Hperm.
Qed.

Lemma DeleteSecrets_only_deletes_witness :
  record_at (DeleteSecrets (λ l, l) "foo" "" Stub.store
               (Stub.world Stub.seeded)).2 Stub.store ("bar", "1")
  = Some ∅.
Proof.
  destruct (DeleteSecrets_only_deletes (λ l, l) "foo" "" Stub.store
              (Stub.world Stub.seeded) (λ l, reflexivity l)
              Stub.store ("bar", "1")) as [H|(_ & H & _)].
  - exact H.
  - discriminate H.
Defined.

Lemma calm_drop (n : nat) (w : World) :
  calm w = true → forallb (λ f, bool_decide (f = None)) (drop n (faults w)) = true.
Proof.
  unfold calm. rewrite !forallb_forall. intros Hall f Hin.
  apply Hall. apply list_elem_of_In in Hin. apply list_elem_of_In.
  by eapply subseteq_drop.
Qed.

(** The world after the loop over keys whose versions are integers. *)
Lemma delete_each_run (items : list (string * string)) (table : string)
    (w : World) t :
  calm w = true → tables w !! table = Some t →
  Forall (λ k, is_Ok (Atoi k.2) = true) items →
  delete_each items table w
  = (Ok tt, {| tables := <[table := remove_keys items t]> (tables w);
               faults := drop (length items) (faults w);
               stdout := stdout w ++ (deleted_line <$> items) |}).
Proof.
  revert w t. induction items as [|[n v] items IH]; intros w t Hcalm Ht Hint.
  - cbn. unfold_M. destruct w as [ts fs out]. cbn in *.
    by rewrite insert_id, app_nil_r.
  - apply Forall_cons in Hint as [Hv Hint]. cbn in Hv.
    destruct (Atoi v) as [ver| |] eqn:Hatoi; [|done..].
    cbn [delete_each]. unfold_M.
    rewrite (deleteItem_run _ _ _ _ t) by (by apply calm_quiet || done).
    rewrite Hatoi. unfold Printf.
    set (w1 := {| tables := _; faults := _; stdout := _ |}).
    rewrite (IH w1 (delete (n, v) t)); [| |by subst w1; cbn;
                                             rewrite lookup_insert_eq|done].
    2:{ by apply calm_advance in Hcalm. }
    subst w1. cbn. f_equal. f_equal.
    + by rewrite insert_insert_eq.
    + destruct (faults w); cbn; [by rewrite ?drop_nil | done].
    + rewrite <- app_assoc. cbn. unfold deleted_line, deleting, newline. cbn.
      by rewrite Hatoi.
Qed.

Section delete_all.
Variable range_order : list (string * string) → list (string * string).
Hypothesis range_order_perm : ∀ l, range_order l ≡ₚ l.

Lemma DeleteSecrets_all_run (name table : string) (w : World) t :
  calm w = true → tables w !! table = Some t →
  (∃ v, is_Some (t !! (name, v))) →
  (∀ v a, t !! (name, v) = Some a → is_Ok (Atoi v) = true) →
  DeleteSecrets range_order name "" table w
  = (Ok tt,
     {| tables := <[table := filter (λ kv, kv.1.1 ≠ name) t]> (tables w);
        faults := drop (S (length (keys_of name t))) (faults w);
        stdout := stdout w
                  ++ (deleted_line <$> range_order (keys_of name t)) |}).
Proof.
  intros Hcalm Ht [v0 Hv0] Hint.
  assert (keys_of name t ≠ []) as Hne.
  { intros Hnil. assert ((name, v0) ∈ keys_of name t) as Hin
      by by apply elem_of_keys_of.
    rewrite Hnil in Hin. by apply elem_of_nil in Hin. }
  rewrite (DeleteSecrets_split _ _ _ _ _ (keys_of name t) (advance w)).
  2:{ rewrite (getDeleteSecrets_all _ _ _ t)
        by (by apply calm_quiet || done).
      by destruct (keys_of name t). }
  rewrite (delete_each_run _ _ _ t); [|by apply calm_advance|done|].
  - cbn. f_equal. f_equal.
    + by rewrite (remove_keys_of name).
    + rewrite (Permutation_length (range_order_perm _)).
      destruct (faults w); cbn; [by rewrite ?drop_nil | done].
  - apply Forall_forall. intros [n v] Hin.
    rewrite range_order_perm in Hin.
    apply elem_of_keys_of in Hin as [Hn [a Ha]]. cbn in *. subst n.
    by eapply Hint.
Qed.
End delete_all.

(** X11: when [DeleteSecrets] deletes every version of a name (the
    versions are integers, no request fails), it sends one scan and one
    delete for each record of the name, and prints one line for each of
    them, in the order in which it visits the map: Deleting, the name, and
    the version as an integer. *)
Theorem DeleteSecrets_reports
    (range_order : list (string * string) → list (string * string))
    (name table : string) (w : World) t :
  (∀ l, range_order l ≡ₚ l) →
  calm w = true →
  tables w !! table = Some t →
  (∃ v, is_Some (t !! (name, v))) →
  (∀ v a, t !! (name, v) = Some a → is_Ok (Atoi v) = true) →
  ∃ w' visited,
    DeleteSecrets range_order name "" table w = (Ok tt, w') ∧
    visited ≡ₚ keys_of name t ∧
    (∀ k, k ∈ visited ↔ k.1 = name ∧ is_Some (t !! k)) ∧
    stdout w' = (stdout w ++ (deleted_line <$> visited))%list ∧
    faults w' = drop (S (length visited)) (faults w).
Proof.
  intros Hperm Hcalm Ht Hsome Hint.
  eexists _, (range_order (keys_of name t)).
  split; [by apply DeleteSecrets_all_run|].
  split; [apply Hperm|]. split.
  - intros k. rewrite Hperm. apply elem_of_keys_of.
  - cbn. split; [done|]. by rewrite (Permutation_length (Hperm _)).
Qed.

Lemma DeleteSecrets_reports_witness :
  ∃ w' visited,
    DeleteSecrets (λ l, l) "foo" "" Stub.store (Stub.world Stub.seeded)
    = (Ok tt, w') ∧
    visited ≡ₚ keys_of "foo" Stub.seeded ∧
    (∀ k, k ∈ visited ↔ k.1 = "foo" ∧ is_Some (Stub.seeded !! k)) ∧
    stdout w' = (stdout (Stub.world Stub.seeded)
                 ++ (deleted_line <$> visited))%list ∧
    faults w' = drop (S (length visited)) (faults (Stub.world Stub.seeded)).
Proof.
  apply (DeleteSecrets_reports (λ l, l) "foo" Stub.store
           (Stub.world Stub.seeded) Stub.seeded).
  - done.
  - reflexivity.
  - reflexivity.
  - exists "1", ∅. reflexivity.
  - intros v a Hv. by destruct (seeded_foo v a Hv) as [-> | ->].
Defined.

(** X12: once [DeleteSecrets] has deleted every version of a name, the
    name is as if it had never been stored: [GetHighestVersion] returns 0,
    [GetSecret] fails with the not-found error at every version, and a
    second [DeleteSecrets] fails with the not-found error.  (The versions
    are integers; no request fails.) *)
Theorem DeleteSecrets_then_read {P : Primitives} {K : KMS}
    (range_order : list (string * string) → list (string * string))
    (name table : string) (w : World) t :
  (∀ l, range_order l ≡ₚ l) →
  calm w = true →
  tables w !! table = Some t →
  (∃ v, is_Some (t !! (name, v))) →
  (∀ v a, t !! (name, v) = Some a → is_Ok (Atoi v) = true) →
  ∃ w',
    DeleteSecrets range_order name "" table w = (Ok tt, w') ∧
    GetHighestVersion name table w' = (Ok 0, advance w') ∧
    (∀ version context,
       GetSecret name version table context w'
       = (Err ("Item {'name': '" +:+ name +:+ "'} couldn't be found."),
          advance w')) ∧
    DeleteSecrets range_order name "" table w'
    = (Err ("Item {'name': '" +:+ name +:+ "'} couldn't be found."),
       advance w').
Proof.
  intros Hperm Hcalm Ht Hsome Hint.
  eexists. split; [by apply DeleteSecrets_all_run|].
  set (t' := filter (λ kv, kv.1.1 ≠ name) t).
  set (w' := {| tables := _; faults := _; stdout := _ |}).
  assert (tables w' !! table = Some t') as Ht'
    by (subst w'; cbn; by rewrite lookup_insert_eq).
  assert (quiet 1 w' = true) as Hq.
  { unfold quiet. subst w'. cbn [faults].
    pose proof (calm_drop (S (length (keys_of name t))) w Hcalm) as Hd.
    rewrite forallb_forall in *. intros f Hin. apply Hd.
    apply list_elem_of_In in Hin. apply list_elem_of_In.
    by eapply subseteq_take. }
  assert (∀ v, t' !! (name, v) = None) as Hnone.
  { intros v. apply map_lookup_filter_None. right. intros a _. cbn. auto. }
  split; [|split].
  - rewrite (GetHighestVersion_run _ _ _ t') by done.
    by rewrite (proj2 (newest_first_nil name t') Hnone).
  - intros version context. unfold GetSecret. unfold_M.
    destruct (decide (version = "")) as [->|Hv].
    + rewrite (getMaterial_latest _ _ _ t') by done.
      by rewrite (proj2 (newest_first_nil name t') Hnone).
    + rewrite (getMaterial_version _ _ _ _ t') by done. by rewrite Hnone.
  - unfold DeleteSecrets. unfold_M.
    rewrite (getDeleteSecrets_all _ _ _ t') by done.
    assert (keys_of name t' = []) as ->; [|done].
    unfold keys_of. by rewrite (proj2 (partition_of_nil name t') Hnone).
Qed.

Lemma DeleteSecrets_then_read_witness :
  ∃ w',
    DeleteSecrets (λ l, l) "foo" "" Stub.store (Stub.world Stub.seeded)
    = (Ok tt, w') ∧
    GetHighestVersion "foo" Stub.store w' = (Ok 0, advance w') ∧
    (∀ version context,
       GetSecret (P := Stub.primitives) (K := Stub.kms)
         "foo" version Stub.store context w'
       = (Err "Item {'name': 'foo'} couldn't be found.", advance w')) ∧
    DeleteSecrets (λ l, l) "foo" "" Stub.store w'
    = (Err "Item {'name': 'foo'} couldn't be found.", advance w').
Proof.
  apply (DeleteSecrets_then_read (P := Stub.primitives) (K := Stub.kms)
           (λ l, l) "foo" Stub.store (Stub.world Stub.seeded) Stub.seeded).
  - done.
  - reflexivity.
  - reflexivity.
  - exists "1", ∅. reflexivity.
  - intros v a Hv. by destruct (seeded_foo v a Hv) as [-> | ->].
Defined.

(** ** Putting and deleting one version *)

(** X13: deleting the version that [PutSecret] has just stored under a
    free key gives back the tables as they were before the put, and prints
    the line of that one record.  (The version is an integer; the three
    requests meet no failure; the service generates a data key of at least
    32 bytes.) *)
Theorem PutSecret_then_DeleteSecrets {P : Primitives} {K : KMS}
    (range_order : list (string * string) → list (string * string))
    (name secret version kmsKey table : string)
    (context : gmap string string) (w : World) kmsResp t ver :
  (∀ l, range_order l ≡ₚ l) →
  kms_GenerateDataKey {| gk_KeyId := kmsKey; gk_NumberOfBytes := 64;
                         gk_EncryptionContext := encryption_context context |}
    = Ok kmsResp →
  (32 ≤ length (gk_Plaintext kmsResp))%nat →
  calm w = true →
  tables w !! table = Some t →
  t !! (name, version) = None →
  version ≠ "" →
  Atoi version = Ok ver →
  ∃ w1 w2,
    PutSecret name secret version kmsKey table context w = (Ok tt, w1) ∧
    DeleteSecrets range_order name version table w1 = (Ok tt, w2) ∧
    tables w2 = tables w ∧
    stdout w2
    = (stdout w ++ ["Deleting " +:+ name +:+ " -- version " +:+ fmt_d ver
                      +:+ newline])%list.
Proof.
  intros Hperm Hgen Hlen Hcalm Ht Hfree Hver Hatoi.
  rewrite (PutSecret_run _ _ _ _ _ _ _ kmsResp) by done.
  rewrite (putItem_run _ _ _ _ _ _ _ t) by (by apply calm_quiet || done).
  rewrite Hfree. eexists _, _. split; [done|].
  set (a := stored _ _ _ _ _).
  set (w1 := with_table table (<[(name, version) := a]> t) (advance w)).
  assert (calm w1 = true) as Hcalm1 by (by apply (calm_advance w)).
  assert (tables w1 !! table = Some (<[(name, version) := a]> t)) as Ht1
    by (subst w1; cbn; by rewrite lookup_insert_eq).
  rewrite (DeleteSecrets_split _ _ _ _ _ [(name, version)] (advance w1)).
  2:{ rewrite (getDeleteSecrets_one _ _ _ _ (<[(name, version) := a]> t))
        by (by apply calm_quiet || done).
      by rewrite lookup_insert_eq. }
  rewrite range_order_singleton by done.
  rewrite (delete_each_run _ _ _ (<[(name, version) := a]> t));
    [|by apply calm_advance|done|].
  2:{ apply Forall_singleton. cbn. by rewrite Hatoi. }
  split; [done|]. cbn. split.
  - unfold remove_keys. cbn. rewrite delete_insert_id by done.
    rewrite insert_insert_eq. by apply insert_id.
  - unfold deleted_line. cbn. by rewrite Hatoi.
Qed.

Lemma PutSecret_then_DeleteSecrets_witness :
  ∃ w1 w2,
    PutSecret (P := Stub.primitives) (K := Stub.kms) "db-pass" "s3cr3t" "7"
      "alias/credstash" Stub.store ∅ (Stub.world Stub.seeded) = (Ok tt, w1) ∧
    DeleteSecrets (λ l, l) "db-pass" "7" Stub.store w1 = (Ok tt, w2) ∧
    tables w2 = tables (Stub.world Stub.seeded) ∧
    stdout w2
    = (stdout (Stub.world Stub.seeded)
         ++ ["Deleting " +:+ "db-pass" +:+ " -- version " +:+ fmt_d 7
               +:+ newline])%list.
Proof.
  apply (PutSecret_then_DeleteSecrets (P := Stub.primitives) (K := Stub.kms)
           (λ l, l) "db-pass" "s3cr3t" "7" "alias/credstash" Stub.store ∅
           (Stub.world Stub.seeded)
           {| gk_Plaintext := Stub.data_key;
              gk_CiphertextBlob := x00 :: rev Stub.data_key |} Stub.seeded 7).
  - done.
  - reflexivity.
  - vm_compute. lia.
  - reflexivity.
  - reflexivity.
  - by apply seeded_other_names.
  - discriminate.
  - reflexivity.
Defined.

(** ** A failure in the middle of [DeleteSecrets] *)

Lemma keys_of_filter (name : string)
    (l : list ((string * string) * gmap string string)) :
  (λ r : string * gmap string string, (name, r.1)) <$>
    omap (λ kv, if decide (kv.1.1 = name) then Some (kv.1.2, kv.2) else None) l
  = filter (λ k, k.1 = name) (l.*1).
Proof.
  induction l as [|[[n v] a] l IH]; [done|].
  rewrite (fmap_cons fst), filter_cons. cbn [omap list_omap fst snd].
  destruct (decide (n = name)) as [->|Hne].
  - rewrite fmap_cons. cbn [fst]. f_equal. exact IH.
  - exact IH.
Qed.

(** A scan gives each key of the name once. *)
Lemma keys_of_NoDup (name : string)
    (t : gmap (string * string) (gmap string string)) :
  NoDup (keys_of name t).
Proof.
  unfold keys_of, partition_of. rewrite keys_of_filter.
  apply NoDup_filter, NoDup_fst_map_to_list.
Qed.

Lemma deleteItem_run_head (name version table : string) (w : World) t fs :
  faults w = None :: fs → tables w !! table = Some t →
  deleteItem name version table w
  = (Ok tt, with_table table (delete (name, version) t) (advance w)).
Proof.
  intros Hf Ht. apply deleteItem_run; [|done].
  unfold quiet. by rewrite Hf.
Qed.

Lemma delete_each_fails (done_keys : list (string * string))
    (k : string * string) (todo : list (string * string)) (table : string)
    (w : World) t (e : string) rest :
  faults w = (replicate (length done_keys) None ++ Some e :: rest)%list →
  tables w !! table = Some t →
  Forall (λ k, is_Ok (Atoi k.2) = true) done_keys →
  delete_each (done_keys ++ k :: todo)%list table w
  = (Err e, {| tables := <[table := remove_keys done_keys t]> (tables w);
               faults := rest;
               stdout := stdout w ++ (deleted_line <$> done_keys) |}).
Proof.
  revert w t. induction done_keys as [|[n v] done_keys IH];
    intros w t Hf Ht Hint.
  - cbn in *. destruct k as [n v]. unfold_M.
    unfold deleteItem, ddb_DeleteItem. erewrite request_failing by done.
    unfold advance. rewrite Hf. cbn. destruct w as [ts fs out]. cbn in *.
    by rewrite insert_id, app_nil_r.
  - apply Forall_cons in Hint as [Hv Hint]. cbn in Hv, Hf.
    destruct (Atoi v) as [ver| |] eqn:Hatoi; [|done..].
    cbn [app delete_each]. unfold_M.
    rewrite (deleteItem_run_head _ _ _ _ t _ Hf Ht).
    rewrite Hatoi. unfold Printf.
    set (w1 := {| tables := _; faults := _; stdout := _ |}).
    rewrite (IH w1 (delete (n, v) t)); [| |by subst w1; cbn;
                                             rewrite lookup_insert_eq|done].
    2:{ subst w1. cbn. by rewrite Hf. }
    subst w1. cbn. f_equal. f_equal.
    + by rewrite insert_insert_eq.
    + rewrite <- app_assoc. cbn. unfold deleted_line, deleting, newline. cbn.
      by rewrite Hatoi.
Qed.

(** X14: [DeleteSecrets] is not all-or-nothing.  When the delete request
    of one record fails, it returns that error; the records it visited
    before are deleted and reported, that record and the ones after it are
    still stored. *)
Theorem DeleteSecrets_stops_at_failure
    (range_order : list (string * string) → list (string * string))
    (name table : string) (w : World) t
    (done_keys : list (string * string)) (k : string * string)
    (todo : list (string * string)) (e : string) rest :
  (∀ l, range_order l ≡ₚ l) →
  range_order (keys_of name t) = (done_keys ++ k :: todo)%list →
  faults w = (replicate (S (length done_keys)) None ++ Some e :: rest)%list →
  tables w !! table = Some t →
  Forall (λ k, is_Ok (Atoi k.2) = true) done_keys →
  ∃ w',
    DeleteSecrets range_order name "" table w = (Err e, w') ∧
    (∀ k', record_at w' table k'
           = if decide (k' ∈ done_keys) then None else t !! k') ∧
    (∀ k', k' ∈ k :: todo → record_at w' table k' = t !! k' ∧
                            is_Some (t !! k')) ∧
    stdout w' = (stdout w ++ (deleted_line <$> done_keys))%list ∧
    faults w' = rest.
Proof.
  intros Hperm Horder Hf Ht Hint.
  assert (keys_of name t ≠ []) as Hne.
  { intros Hnil. pose proof (Hperm (keys_of name t)) as Hp.
    rewrite Horder, Hnil in Hp. apply Permutation_nil_r in Hp.
    by destruct done_keys. }
  assert (quiet 1 w = true) as Hq by (unfold quiet; by rewrite Hf).
  rewrite (DeleteSecrets_split _ _ _ _ _ (keys_of name t) (advance w)).
  2:{ rewrite (getDeleteSecrets_all _ _ _ t) by done.
      by destruct (keys_of name t). }
  rewrite Horder.
  rewrite (delete_each_fails _ _ _ _ _ t e rest);
    [|by unfold advance; cbn; rewrite Hf|done|done].
  eexists. split; [done|].
  assert (∀ k', record_at
            {| tables := <[table := remove_keys done_keys t]>
                           (tables (advance w));
               faults := rest;
               stdout := stdout (advance w) ++ (deleted_line <$> done_keys) |}
            table k'
          = if decide (k' ∈ done_keys) then None else t !! k') as Hrec.
  { intros k'. unfold record_at. cbn. rewrite lookup_insert_eq. cbn.
    apply lookup_remove_keys. }
  split; [exact Hrec|]. split; [|done].
  intros k' Hk'. rewrite Hrec.
  assert (NoDup (done_keys ++ k :: todo)) as Hnd.
  { rewrite <- Horder, Hperm. apply keys_of_NoDup. }
  apply NoDup_app in Hnd as (_ & Hdisj & _).
  rewrite decide_False by (intros Hin; by apply (Hdisj k')).
  split; [done|].
  assert (k' ∈ keys_of name t) as Hin.
  { rewrite <- (Hperm (keys_of name t)), Horder.
    apply elem_of_app. by right. }
  by apply elem_of_keys_of in Hin as [_ ?].
Qed.

Lemma DeleteSecrets_stops_at_failure_witness :
  ∃ w',
    DeleteSecrets (λ l, l) "foo" "" Stub.store
      {| tables := {[ Stub.store := Stub.seeded ]};
         faults := [None; None; Some "RequestError: send request failed"];
         stdout := [] |}
    = (Err "RequestError: send request failed", w') ∧
    record_at w' Stub.store ("foo", "1") = None ∧
    record_at w' Stub.store ("foo", "2") = Some ∅.
Proof.
  destruct (DeleteSecrets_stops_at_failure (λ l, l) "foo" Stub.store
              {| tables := {[ Stub.store := Stub.seeded ]};
                 faults := [None; None;
                            Some "RequestError: send request failed"];
                 stdout := [] |}
              Stub.seeded [("foo", "1")] ("foo", "2") []
              "RequestError: send request failed" [])
    as (w' & Hrun & Hrec & _).
  - done.
  - by vm_compute.
  - reflexivity.
  - reflexivity.
  - by repeat constructor.
  - exists w'. split; [exact Hrun|]. rewrite !Hrec. split; reflexivity.
Defined.

(** ** Listing *)

Lemma collect_all (l : list ((string * string) * gmap string string)) :
  collect (project (Some ["name"; "version"]) <$>
             ((λ kv, full_item kv.1.1 kv.1.2 kv.2) <$> l))
  = Ok (l.*1).
Proof.
  induction l as [|[[n v] a] l IH]; [done|].
  rewrite !fmap_cons. cbn [collect fst snd].
  destruct (full_item_name n v a) as [Hn Hv].
  unfold attrS at 1 2, project.
  erewrite !map_lookup_filter_Some_2; [| exact Hv | cbn; set_solver
                                       | exact Hn | cbn; set_solver ].
  cbn [obind]. fold (project (Some ["name"; "version"])).
  by rewrite IH.
Qed.

(** X15: [ListSecrets] returns every stored key (name, version) of the
    table once and nothing else, as many entries as the table has records;
    for an empty table it returns no entry and no error.  (The request
    meets no failure.) *)
Theorem ListSecrets_all_keys (table : string) (w : World) t :
  quiet 1 w = true →
  tables w !! table = Some t →
  ∃ items,
    ListSecrets table w = (Ok items, advance w) ∧
    NoDup items ∧
    (∀ name version, (name, version) ∈ items ↔ is_Some (t !! (name, version))) ∧
    length items = size t.
Proof.
  intros Hq Ht. exists ((map_to_list t).*1). split; [|split; [|split]].
  - unfold ListSecrets, ddb_Scan. unfold_M.
    cbn [s_TableName s_Filter s_ProjectionExpression].
    rewrite (request_read table _ w t) by done. cbn [s_Items].
    by rewrite collect_all.
  - apply NoDup_fst_map_to_list.
  - intros name version. rewrite list_elem_of_fmap. split.
    + intros ([k a] & -> & Hin). apply elem_of_map_to_list in Hin. by exists a.
    + intros [a Ha]. exists ((name, version), a). split; [done|].
      by apply elem_of_map_to_list.
  - by rewrite length_fmap, length_map_to_list.
Qed.

Lemma ListSecrets_all_keys_witness :
  ∃ items,
    ListSecrets Stub.store (Stub.world Stub.seeded)
    = (Ok items, advance (Stub.world Stub.seeded)) ∧
    NoDup items ∧
    (∀ name version,
       (name, version) ∈ items ↔ is_Some (Stub.seeded !! (name, version))) ∧
    length items = size Stub.seeded.
Proof.
  apply (ListSecrets_all_keys Stub.store (Stub.world Stub.seeded) Stub.seeded);
    reflexivity.
Defined.

(** ** Versions of one width *)

Lemma digit_of_ascii_Some (c : ascii) (d : Z) :
  digit_of_ascii c = Some d →
  d = Z.of_N (N_of_ascii c) - 48 ∧ 0 <= d <= 9.
Proof.
  unfold digit_of_ascii. intros Hd.
  destruct (48 <=? Z.of_N (N_of_ascii c)) eqn:E1; [|done].
  destruct (Z.of_N (N_of_ascii c) <=? 57) eqn:E2; [|done].
  cbn in Hd. injection Hd as <-. lia.
Qed.

Lemma parse_all_digits (s : string) :
  all_digits s = true →
  ∃ n, 0 <= n < 10 ^ Z.of_nat (String.length s) ∧
       ∀ acc, parse_digits s acc
              = Some (acc * 10 ^ Z.of_nat (String.length s) + n).
Proof.
  induction s as [|c s IH]; intros Hs.
  - exists 0. split; [cbn; lia|]. intros acc. cbn. f_equal. lia.
  - cbn in Hs. destruct (digit_of_ascii c) as [d|] eqn:Hd; [|done].
    destruct (IH Hs) as (n & Hn & Hparse).
    apply digit_of_ascii_Some in Hd as Hd'. destruct Hd' as [_ Hrange].
    exists (d * 10 ^ Z.of_nat (String.length s) + n).
    cbn [String.length]. rewrite Nat2Z.inj_succ, Z.pow_succ_r by lia.
    split; [nia|]. intros acc. cbn [parse_digits]. rewrite Hd, Hparse.
    f_equal. lia.
Qed.

(** Among texts of the same number of digits the order of the bytes is
    the order of the numbers. *)
Lemma digits_order (s1 s2 : string) (n1 n2 : Z) :
  all_digits s1 = true → all_digits s2 = true →
  String.length s1 = String.length s2 →
  parse_digits s1 0 = Some n1 → parse_digits s2 0 = Some n2 →
  String.le s1 s2 → n1 <= n2.
Proof.
  revert s2 n1 n2. induction s1 as [|c1 s1 IH]; intros [|c2 s2] n1 n2;
    try done.
  - cbn. intros _ _ _ [= <-] [= <-] _. lia.
  - intros H1 H2 Hlen Hp1 Hp2 Hle. cbn in H1, H2, Hlen.
    destruct (digit_of_ascii c1) as [d1|] eqn:Hd1; [|done].
    destruct (digit_of_ascii c2) as [d2|] eqn:Hd2; [|done].
    destruct (parse_all_digits s1 H1) as (m1 & Hm1 & Hq1).
    destruct (parse_all_digits s2 H2) as (m2 & Hm2 & Hq2).
    cbn [parse_digits] in Hp1, Hp2. rewrite Hd1, Hq1 in Hp1.
    rewrite Hd2, Hq2 in Hp2. injection Hp1 as <-. injection Hp2 as <-.
    assert (String.length s1 = String.length s2) as Hlen' by lia.
    rewrite <- Hlen' in *.
    apply digit_of_ascii_Some in Hd1 as [-> Hr1].
    apply digit_of_ascii_Some in Hd2 as [-> Hr2].
    unfold String.le, String.leb in Hle. cbn [String.compare] in Hle.
    unfold Ascii.compare in Hle.
    destruct (N.compare_spec (N_of_ascii c1) (N_of_ascii c2)) as [Heq|Hlt|Hgt].
    + rewrite Heq.
      assert (m1 <= m2); [|lia].
      apply (IH s2 m1 m2 H1 H2 Hlen').
      * by rewrite Hq1.
      * by rewrite Hq2.
      * exact Hle.
    + nia.
    + done.
Qed.

Lemma Atoi_digit_first (c : ascii) (rest : string) (d : Z) :
  digit_of_ascii c = Some d →
  Atoi (String c rest)
  = match parse_digits (String c rest) 0 with
    | None => Err (atoi_syntax (String c rest))
    | Some n =>
        if (int_min <=? n) && (n <=? int_max) then Ok n
        else Err (atoi_range (String c rest))
    end.
Proof.
  intros Hd. destruct c as [b0 b1 b2 b3 b4 b5 b6 b7].
  destruct b0, b1, b2, b3, b4, b5, b6, b7;
    first [discriminate Hd | reflexivity].
Qed.

Lemma Atoi_fixed_width (width : nat) (s : string) :
  (0 < width ≤ 18)%nat → fixed_width width s = true →
  ∃ n, Atoi s = Ok n ∧ parse_digits s 0 = Some n.
Proof.
  intros Hw Hs. apply andb_prop in Hs as [Hlen Hdigits].
  apply Nat.eqb_eq in Hlen.
  destruct (parse_all_digits s Hdigits) as (n & Hn & Hparse).
  exists n. specialize (Hparse 0). rewrite Z.mul_0_l, Z.add_0_l in Hparse.
  split; [|done].
  destruct s as [|c rest]; [cbn in Hlen; lia|].
  cbn in Hdigits. destruct (digit_of_ascii c) as [d|] eqn:Hd; [|done].
  rewrite (Atoi_digit_first c rest d Hd), Hparse.
  assert (10 ^ Z.of_nat (String.length (String c rest)) <= 10 ^ 18)
    by (apply Z.pow_le_mono_r; lia).
  unfold int_min, int_max.
  rewrite (proj2 (Z.leb_le _ _)), (proj2 (Z.leb_le _ _)); [done|lia|lia].
Qed.

(** X16: when every version stored under a name is written with the
    same number of decimal digits (at most 18), [GetHighestVersion] returns
    the greatest of them as a number: the newest-first order of the table
    is the order of the bytes, which for texts of one width is the order of
    the numbers.  (The request meets no failure.) *)
Theorem GetHighestVersion_fixed_width (name table : string) (w : World) t
    (width : nat) :
  quiet 1 w = true →
  tables w !! table = Some t →
  (0 < width ≤ 18)%nat →
  (∃ v, is_Some (t !! (name, v))) →
  (∀ v a, t !! (name, v) = Some a → fixed_width width v = true) →
  ∃ n vmax,
    GetHighestVersion name table w = (Ok n, advance w) ∧
    is_Some (t !! (name, vmax)) ∧ Atoi vmax = Ok n ∧
    ∀ v a, t !! (name, v) = Some a → ∃ m, Atoi v = Ok m ∧ m <= n.
Proof.
  intros Hq Ht Hw [v0 [a0 Hv0]] Hfixed.
  destruct (newest_or_none name t) as [(vmax & amax & Hnew)|Hnone];
    [|by rewrite Hnone in Hv0].
  destruct Hnew as [Hmax Hle].
  destruct (Atoi_fixed_width width vmax Hw (Hfixed _ _ Hmax))
    as (n & Hatoi & Hparse).
  exists n, vmax. split; [|split; [by eexists|split; [done|]]].
  - rewrite (GetHighestVersion_run _ _ _ t) by done.
    destruct (newest_first_of_newest name t vmax amax) as [rest ->];
      [by split|]. cbn. by rewrite Hatoi.
  - intros v a Hv.
    destruct (Atoi_fixed_width width v Hw (Hfixed _ _ Hv)) as (m & Hm & Hpm).
    exists m. split; [done|].
    pose proof (Hfixed _ _ Hv) as Hfv. pose proof (Hfixed _ _ Hmax) as Hfm.
    apply andb_prop in Hfv as [Hlv Hdv]. apply andb_prop in Hfm as [Hlm Hdm].
    apply Nat.eqb_eq in Hlv, Hlm.
    apply (digits_order v vmax m n); eauto. congruence.
Qed.

Lemma GetHighestVersion_fixed_width_witness :
  ∃ n vmax,
    GetHighestVersion "foo" Stub.store
      (Stub.world (list_to_map [Stub.row "foo" "09"; Stub.row "foo" "10"]))
    = (Ok n, advance (Stub.world (list_to_map [Stub.row "foo" "09";
                                                Stub.row "foo" "10"]))) ∧
    is_Some ((list_to_map [Stub.row "foo" "09"; Stub.row "foo" "10"]
                : gmap (string * string) (gmap string string))
               !! ("foo", vmax)) ∧
    Atoi vmax = Ok n ∧
    ∀ v a, (list_to_map [Stub.row "foo" "09"; Stub.row "foo" "10"]
              : gmap (string * string) (gmap string string)) !! ("foo", v)
           = Some a →
           ∃ m, Atoi v = Ok m ∧ m <= n.
Proof.
  apply (GetHighestVersion_fixed_width "foo" Stub.store
           (Stub.world (list_to_map [Stub.row "foo" "09"; Stub.row "foo" "10"]))
           (list_to_map [Stub.row "foo" "09"; Stub.row "foo" "10"]) 2).
  - reflexivity.
  - reflexivity.
  - lia.
  - exists "09", ∅. reflexivity.
  - intros v a Hv. apply elem_of_list_to_map_2 in Hv. cbn in Hv.
    unfold Stub.row in Hv. rewrite !elem_of_cons in Hv.
    destruct Hv as [Hv|[Hv|Hv]]; simplify_eq; try reflexivity.
    by apply elem_of_nil in Hv.
Defined.

(** ** Creating the table *)

Lemma page_has_elem (table : string) (page : list string) :
  page_has table page = bool_decide (table ∈ page).
Proof.
  induction page as [|n page IH]; cbn.
  - by rewrite bool_decide_eq_false_2 by apply not_elem_of_nil.
  - destruct (decide (n = table)) as [->|Hn].
    + rewrite bool_decide_eq_true_2; [done|]. left.
    + rewrite IH. apply bool_decide_ext. rewrite elem_of_cons.
      split; [by right|]. intros [Heq|Hin]; [congruence|done].
Qed.

Lemma after_requests_S (n : nat) (w : World) :
  after_requests n (advance w) = after_requests (S n) w.
Proof.
  unfold after_requests, advance. cbn. f_equal.
  destruct (faults w); cbn; by rewrite ?drop_nil.
Qed.

Lemma after_requests_1 (w : World) : after_requests 1 w = advance w.
Proof.
  unfold after_requests, advance. by destruct (faults w).
Qed.

Lemma quiet_after (n m : nat) (w : World) :
  quiet (n + m) w = true → quiet m (after_requests n w) = true.
Proof.
  unfold quiet, after_requests. cbn. rewrite !forallb_forall.
  intros Hall f Hin. apply Hall.
  apply list_elem_of_In in Hin. apply list_elem_of_In.
  rewrite <- take_take_drop. apply elem_of_app. by right.
Qed.

Lemma after_requests_0 (w : World) : after_requests 0 w = w.
Proof. by destruct w. Qed.

Lemma quiet_head (n : nat) (w : World) :
  quiet (S n) w = true → ∀ e rest, faults w ≠ Some e :: rest.
Proof. intros Hq. by apply quiet_S in Hq as [? _]. Qed.

Lemma walk_pages (table : string) (pages : list (list string)) (exist : bool)
    (w : World) :
  quiet (pages_read table pages) w = true →
  EachPage pages
    (λ page (lastPage : bool) (exist : bool),
       if page_has table page then (true, false) else (exist, true))
    exist w
  = (Ok (exist || existsb (page_has table) pages),
     after_requests (pages_read table pages) w).
Proof.
  revert exist w. induction pages as [|page rest IH]; intros exist w Hq.
  - cbn. unfold_M. by rewrite orb_false_r, after_requests_0.
  - cbn [EachPage pages_read existsb] in *.
    destruct (page_has table page) eqn:Hpage.
    + pose proof (quiet_head _ _ Hq) as Hf.
      cbn [orb]. rewrite orb_true_r, (after_requests_1 w).
      destruct (faults w) as [|[e|] fs] eqn:Ef; try done.
      by destruct (Hf e fs).
    + pose proof (quiet_head _ _ Hq) as Hf.
      apply quiet_split in Hq as [_ Hq]. cbn [orb].
      rewrite <- (after_requests_S _ w).
      destruct (faults w) as [|[e|] fs] eqn:Ef.
      * by apply IH.
      * by destruct (Hf e fs).
      * by apply IH.
Qed.

Lemma existsb_page_has (table : string) (pages : list (list string)) :
  existsb (page_has table) pages = bool_decide (table ∈ concat pages).
Proof.
  induction pages as [|page rest IH]; cbn.
  - by rewrite bool_decide_eq_false_2 by apply not_elem_of_nil.
  - rewrite IH, page_has_elem.
    destruct (bool_decide (table ∈ page)) eqn:E1; cbn.
    + apply bool_decide_eq_true in E1. symmetry.
      apply bool_decide_eq_true. apply elem_of_app. by left.
    + apply bool_decide_eq_false in E1. apply bool_decide_ext.
      rewrite elem_of_app. split; [by right|]. by intros [?|?].
Qed.

Section lifecycle_properties.
Variable paging : list string → list (list string).
Hypothesis paging_complete : ∀ names name, name ∈ concat (paging names) ↔ name ∈ names.

Lemma isTableExits_run (table : string) (w : World) :
  quiet (listing_requests paging table w) w = true →
  isTableExits paging table w
  = (Ok (bool_decide (is_Some (tables w !! table))),
     after_requests (listing_requests paging table w) w).
Proof.
  intros Hq. unfold isTableExits, ddb_ListTablesPages, listing_requests in *.
  rewrite walk_pages by done. cbn [orb]. rewrite existsb_page_has.
  f_equal. f_equal. apply bool_decide_ext.
  by rewrite paging_complete, elem_of_elements, elem_of_dom.
Qed.
End lifecycle_properties.

Lemma pages_read_le (table : string) (pages : list (list string)) :
  (pages_read table pages ≤ length pages)%nat ∧
  (existsb (page_has table) pages = false →
   pages_read table pages = length pages).
Proof.
  induction pages as [|page rest [IH1 IH2]]; cbn; [done|].
  destruct (page_has table page); cbn; split; try lia; try done.
  intros Hrest. by rewrite IH2.
Qed.

(** X17: [isTableExits] says whether the table is among the tables of
    the service; it reads the pages of the listing up to the one that names
    the table, or all of them when none does, and changes nothing.  (The
    pages together name every table; the requests meet no failure.) *)
Theorem isTableExits_decides (paging : list string → list (list string))
    (table : string) (w : World) :
  (∀ names name, name ∈ concat (paging names) ↔ name ∈ names) →
  quiet (listing_requests paging table w) w = true →
  ∃ w',
    isTableExits paging table w
    = (Ok (bool_decide (is_Some (tables w !! table))), w') ∧
    tables w' = tables w ∧ stdout w' = stdout w ∧
    faults w' = drop (listing_requests paging table w) (faults w) ∧
    (listing_requests paging table w
     ≤ length (paging (elements (dom (tables w)))))%nat ∧
    (tables w !! table = None →
     listing_requests paging table w
     = length (paging (elements (dom (tables w))))).
Proof.
  intros Hpaging Hq. eexists. split; [by apply isTableExits_run|].
  cbn. repeat (split; [done|]). unfold listing_requests.
  split; [apply pages_read_le|].
  intros Hnone. apply pages_read_le. rewrite existsb_page_has.
  apply bool_decide_eq_false.
  rewrite Hpaging, elem_of_elements, elem_of_dom, Hnone.
  by intros [? ?].
Qed.

Lemma isTableExits_decides_witness :
  ∃ w',
    isTableExits (λ names, [names]) "credential-store" (Stub.world Stub.seeded)
    = (Ok (bool_decide (is_Some (tables (Stub.world Stub.seeded)
                                   !! "credential-store"))), w') ∧
    tables w' = tables (Stub.world Stub.seeded) ∧
    stdout w' = stdout (Stub.world Stub.seeded) ∧
    faults w'
    = drop (listing_requests (λ names, [names]) "credential-store"
              (Stub.world Stub.seeded)) (faults (Stub.world Stub.seeded)) ∧
    (listing_requests (λ names, [names]) "credential-store"
       (Stub.world Stub.seeded)
     ≤ length ((λ names : list string, [names])
                 (elements (dom (tables (Stub.world Stub.seeded))))))%nat ∧
    (tables (Stub.world Stub.seeded) !! "credential-store" = None →
     listing_requests (λ names, [names]) "credential-store"
       (Stub.world Stub.seeded)
     = length ((λ names : list string, [names])
                 (elements (dom (tables (Stub.world Stub.seeded)))))).
Proof.
  apply (isTableExits_decides (λ names, [names]) "credential-store"
           (Stub.world Stub.seeded)).
  - intros names name. cbn. by rewrite app_nil_r.
  - reflexivity.
Defined.

Lemma createTable_run (table : string) (w : World) :
  quiet 1 w = true → tables w !! table = None →
  createTable table w = (Ok tt, with_table table ∅ (advance w)).
Proof.
  intros Hq Ht. pose proof (quiet_head _ _ Hq) as Hf.
  unfold createTable, ddb_CreateTable. cbn [c_TableName].
  change (driver_schema _) with true. cbn [negb]. rewrite Ht.
  destruct (faults w) as [|[e|] fs] eqn:Ef; try done.
  by destruct (Hf e fs).
Qed.

Lemma wait_table_S (n : nat) (table : string) (w : World) :
  wait_table (S n) table w
  = match faults w with
    | Some _ :: _ => wait_table n table (advance w)
    | _ =>
        match tables w !! table with
        | Some _ => (Ok tt, advance w)
        | None => wait_table n table (advance w)
        end
    end.
Proof. reflexivity. Qed.

Lemma waitUntilTableExists_run (table : string) (w : World) :
  quiet 1 w = true → is_Some (tables w !! table) →
  waitUntilTableExists table w = (Ok tt, advance w).
Proof.
  intros Hq [t Ht]. pose proof (quiet_head _ _ Hq) as Hf.
  unfold waitUntilTableExists, ddb_WaitUntilTableExists.
  rewrite (wait_table_S 24). rewrite Ht.
  destruct (faults w) as [|[e|] fs] eqn:Ef; try done.
  by destruct (Hf e fs).
Qed.

(** X18: for a table that is already there [CreateDdbTable] fails with
    the message that names it; it creates nothing and prints nothing. *)
Theorem CreateDdbTable_exists (paging : list string → list (list string))
    (table : string) (w : World) :
  (∀ names name, name ∈ concat (paging names) ↔ name ∈ names) →
  quiet (listing_requests paging table w) w = true →
  is_Some (tables w !! table) →
  ∃ w',
    CreateDdbTable paging table w
    = (Err ("Credential Store table already exists -- " +:+ table), w') ∧
    tables w' = tables w ∧ stdout w' = stdout w.
Proof.
  intros Hpaging Hq Hsome.
  exists (after_requests (listing_requests paging table w) w).
  split; [|done].
  unfold CreateDdbTable. unfold_M.
  rewrite isTableExits_run by done.
  by rewrite bool_decide_eq_true_2.
Qed.

Lemma CreateDdbTable_exists_witness :
  ∃ w',
    CreateDdbTable (λ names, [names]) "credential-store"
      (Stub.world Stub.seeded)
    = (Err ("Credential Store table already exists -- "
              +:+ "credential-store"), w') ∧
    tables w' = tables (Stub.world Stub.seeded) ∧
    stdout w' = stdout (Stub.world Stub.seeded).
Proof.
  apply (CreateDdbTable_exists (λ names, [names]) "credential-store"
           (Stub.world Stub.seeded)).
  - intros names name. cbn. by rewrite app_nil_r.
  - reflexivity.
  - by eexists.
Defined.

Lemma quiet_le (n m : nat) (w : World) :
  quiet (n + m) w = true → quiet n w = true.
Proof.
  unfold quiet. rewrite !forallb_forall. intros Hall f Hin. apply Hall.
  apply list_elem_of_In in Hin. apply list_elem_of_In.
  rewrite <- take_take_drop. apply elem_of_app. by left.
Qed.

Lemma drop_tail_tail {A} (n : nat) (l : list A) :
  tail (tail (drop n l)) = drop (n + 2) l.
Proof.
  rewrite <- drop_drop. generalize (drop n l). intros [|a [|b k]]; by cbn.
Qed.

Lemma drop_tail {A} (n : nat) (l : list A) : tail (drop n l) = drop (n + 1) l.
Proof.
  rewrite <- drop_drop. generalize (drop n l). intros [|a k]; by cbn.
Qed.

Lemma createTable_fault (table : string) (w : World) e rest :
  faults w = Some e :: rest →
  createTable table w = (Err e, advance w).
Proof. intros Hf. unfold createTable, ddb_CreateTable. by rewrite Hf. Qed.

Lemma failing_S (n : nat) (w : World) :
  failing (S n) w = true →
  (∃ e rest, faults w = Some e :: rest) ∧ failing n (advance w) = true.
Proof.
  unfold failing, advance. cbn [faults].
  destruct (faults w) as [|[e|] fs]; cbn [take length forallb tail Nat.eqb].
  - done.
  - intros Hf. split; [by eauto|].
    apply andb_true_iff in Hf as [Hlen Hall].
    apply andb_true_iff in Hall as [_ Hall].
    apply andb_true_iff. done.
  - intros Hf. apply andb_true_iff in Hf as [_ Hall].
    apply andb_true_iff in Hall as [Hnone _]. 
    apply bool_decide_eq_true in Hnone. done.
Qed.

(** The waiter asks again after each failed request. *)
Lemma wait_table_retry (k attempts : nat) (table : string) (w : World) :
  failing k w = true →
  wait_table (k + attempts) table w
  = wait_table attempts table (after_requests k w).
Proof.
  revert w. induction k as [|k IH]; intros w Hf.
  - by rewrite after_requests_0.
  - apply failing_S in Hf as [(e & rest & Hfaults) Hf].
    change (S k + attempts)%nat with (S (k + attempts)).
    rewrite wait_table_S, Hfaults, (IH _ Hf).
    by rewrite after_requests_S.
Qed.

Lemma wait_table_found (n : nat) (table : string) (w : World) :
  quiet 1 w = true → is_Some (tables w !! table) →
  wait_table (S n) table w = (Ok tt, advance w).
Proof.
  intros Hq [t Ht]. pose proof (quiet_head _ _ Hq) as Hf.
  rewrite wait_table_S, Ht.
  destruct (faults w) as [|[e|] fs] eqn:Ef; try done.
  by destruct (Hf e fs).
Qed.

Lemma waitUntilTableExists_retry (k : nat) (table : string) (w : World) :
  failing k w = true → (k < 25)%nat →
  quiet 1 (after_requests k w) = true →
  is_Some (tables w !! table) →
  waitUntilTableExists table w = (Ok tt, after_requests (S k) w).
Proof.
  intros Hf Hk Hq Ht. unfold waitUntilTableExists, ddb_WaitUntilTableExists.
  assert (25 = k + S (24 - k))%nat as -> by lia.
  rewrite wait_table_retry by done.
  rewrite wait_table_found by done.
  f_equal. unfold advance, after_requests. cbn [tables faults stdout].
  f_equal. rewrite drop_tail. f_equal. lia.
Qed.

Lemma waitUntilTableExists_exhausted (table : string) (w : World) :
  failing 25 w = true →
  waitUntilTableExists table w = (Err ResourceNotReady, after_requests 25 w).
Proof.
  intros Hf. unfold waitUntilTableExists, ddb_WaitUntilTableExists.
  change (wait_table 25 table w) with (wait_table (25 + 0) table w).
  by rewrite wait_table_retry.
Qed.

Lemma CreateDdbTable_fresh_run (paging : list string → list (list string))
    (table : string) (w : World) :
  (∀ names name, name ∈ concat (paging names) ↔ name ∈ names) →
  quiet (listing_requests paging table w + 2) w = true →
  tables w !! table = None →
  CreateDdbTable paging table w
  = (Ok tt,
     {| tables := <[table := ∅]> (tables w);
        faults := drop (listing_requests paging table w + 2) (faults w);
        stdout := (stdout w ++ creating_lines ++ [created_line])%list |}).
Proof.
  intros Hpaging Hq Hnone.
  pose proof (quiet_le _ _ _ Hq) as Hqn.
  pose proof (quiet_after _ _ _ Hq) as Hq2.
  change 2%nat with (1 + 1)%nat in Hq2.
  apply quiet_split in Hq2 as [Hq2 Hq3].
  unfold CreateDdbTable. unfold_M.
  rewrite isTableExits_run by done.
  rewrite bool_decide_eq_false_2 by (rewrite Hnone; by intros [? ?]).
  rewrite createTable_run by done.
  unfold Println, Printf. cbn [tables faults stdout with_table advance].
  rewrite waitUntilTableExists_run.
  - unfold advance, with_table, after_requests, creating_lines, created_line.
    cbn [tables faults stdout]. f_equal. f_equal.
    + apply drop_tail_tail.
    + by rewrite <- !app_assoc.
  - exact Hq3.
  - cbn. rewrite lookup_insert_eq. by eexists.
Qed.

(** X19: for a table that is not there [CreateDdbTable] creates it
    empty, leaves the other tables as they are, and prints its three lines;
    it sends the requests of the listing, one to create and one to wait.
    (The pages together name every table; the requests meet no
    failure.) *)
Theorem CreateDdbTable_fresh (paging : list string → list (list string))
    (table : string) (w : World) :
  (∀ names name, name ∈ concat (paging names) ↔ name ∈ names) →
  quiet (listing_requests paging table w + 2) w = true →
  tables w !! table = None →
  ∃ w',
    CreateDdbTable paging table w = (Ok tt, w') ∧
    tables w' = <[table := ∅]> (tables w) ∧
    faults w' = drop (listing_requests paging table w + 2) (faults w) ∧
    stdout w' = (stdout w ++ creating_lines ++ [created_line])%list.
Proof.
  intros Hpaging Hq Hnone. eexists. split.
  - by apply CreateDdbTable_fresh_run.
  - done.
Qed.

Lemma one_page_complete (names : list string) (name : string) :
  name ∈ concat ((λ names : list string, [names]) names) ↔ name ∈ names.
Proof. cbn. by rewrite app_nil_r. Qed.

Lemma CreateDdbTable_fresh_witness :
  ∃ w',
    CreateDdbTable (λ names, [names]) "fresh" (Stub.world Stub.seeded)
    = (Ok tt, w') ∧
    tables w' = <["fresh" := ∅]> (tables (Stub.world Stub.seeded)) ∧
    faults w' = drop (listing_requests (λ names, [names]) "fresh"
                        (Stub.world Stub.seeded) + 2)
                  (faults (Stub.world Stub.seeded)) ∧
    stdout w' = (stdout (Stub.world Stub.seeded)
                 ++ creating_lines ++ [created_line])%list.
Proof.
  apply (CreateDdbTable_fresh (λ names, [names]) "fresh"
           (Stub.world Stub.seeded)).
  - exact one_page_complete.
  - reflexivity.
  - reflexivity.
Defined.

(** X20: the table [CreateDdbTable] has created is an empty store:
    [ListSecrets] returns no entry, [GetHighestVersion] returns 0 for every
    name, and a second [CreateDdbTable] fails because the table is there.
    (No request meets a failure.) *)
Theorem CreateDdbTable_then_empty (paging : list string → list (list string))
    (table : string) (w : World) :
  (∀ names name, name ∈ concat (paging names) ↔ name ∈ names) →
  calm w = true →
  tables w !! table = None →
  ∃ w',
    CreateDdbTable paging table w = (Ok tt, w') ∧
    ListSecrets table w' = (Ok [], advance w') ∧
    (∀ name, GetHighestVersion name table w' = (Ok 0, advance w')) ∧
    ∃ w'',
      CreateDdbTable paging table w'
      = (Err ("Credential Store table already exists -- " +:+ table), w'').
Proof.
  intros Hpaging Hcalm Hnone. eexists. split.
  { apply CreateDdbTable_fresh_run; [done|by apply calm_quiet|done]. }
  set (w' := {| tables := _; faults := _; stdout := _ |}).
  assert (calm w' = true) as Hcalm' by (by apply (calm_drop _ w)).
  assert (tables w' !! table = Some ∅) as Ht'
    by (subst w'; cbn; by rewrite lookup_insert_eq).
  split; [|split].
  - unfold ListSecrets, ddb_Scan. unfold_M.
    cbn [s_TableName s_Filter s_ProjectionExpression].
    rewrite (request_read table _ w' ∅) by (by apply calm_quiet || done).
    by rewrite map_to_list_empty.
  - intros name.
    rewrite (GetHighestVersion_run _ _ _ ∅) by (by apply calm_quiet || done).
    by rewrite (proj2 (newest_first_nil name ∅)) by (intros v; apply lookup_empty).
  - eexists. unfold CreateDdbTable. unfold_M.
    rewrite (isTableExits_run paging Hpaging) by by apply calm_quiet.
    rewrite bool_decide_eq_true_2; [done|]. by eexists.
Qed.

Lemma CreateDdbTable_then_empty_witness :
  ∃ w',
    CreateDdbTable (λ names, [names]) "fresh" (Stub.world Stub.seeded)
    = (Ok tt, w') ∧
    ListSecrets "fresh" w' = (Ok [], advance w') ∧
    (∀ name, GetHighestVersion name "fresh" w' = (Ok 0, advance w')) ∧
    ∃ w'',
      CreateDdbTable (λ names, [names]) "fresh" w'
      = (Err ("Credential Store table already exists -- " +:+ "fresh"), w'').
Proof.
  apply (CreateDdbTable_then_empty (λ names, [names]) "fresh"
           (Stub.world Stub.seeded)).
  - exact one_page_complete.
  - reflexivity.
  - reflexivity.
Defined.

Lemma EachPage_world {S : Type} (pages : list (list string))
    (fn : list string → bool → S → S * bool) (s : S) (w : World) :
  tables (EachPage pages fn s w).2 = tables w ∧
  stdout (EachPage pages fn s w).2 = stdout w.
Proof.
  revert s w. induction pages as [|page rest IH]; intros s w; [done|].
  cbn [EachPage].
  destruct (faults w) as [|[e|] fs]; try done.
  - destruct (fn page _ s) as [s' [|]]; [|done].
    destruct (IH s' (advance w)) as [-> ->]. done.
  - destruct (fn page _ s) as [s' [|]]; [|done].
    destruct (IH s' (advance w)) as [-> ->]. done.
Qed.

Lemma wait_table_world (n : nat) (table : string) (w : World) :
  tables (wait_table n table w).2 = tables w ∧
  stdout (wait_table n table w).2 = stdout w.
Proof.
  revert w. induction n as [|n IH]; intros w; [done|].
  rewrite wait_table_S.
  destruct (faults w) as [|[e|] fs].
  - destruct (tables w !! table); [done|].
    destruct (IH (advance w)) as [-> ->]. done.
  - destruct (IH (advance w)) as [-> ->]. done.
  - destruct (tables w !! table); [done|].
    destruct (IH (advance w)) as [-> ->]. done.
Qed.

Lemma waitUntilTableExists_world (table : string) (w : World) :
  tables (waitUntilTableExists table w).2 = tables w ∧
  stdout (waitUntilTableExists table w).2 = stdout w.
Proof.
  unfold waitUntilTableExists, ddb_WaitUntilTableExists.
  apply wait_table_world.
Qed.

Lemma createTable_world (table : string) (w : World) :
  stdout (createTable table w).2 = stdout w ∧
  (tables (createTable table w).2 = tables w ∨
   tables w !! table = None ∧
   tables (createTable table w).2 = <[table := ∅]> (tables w)).
Proof.
  unfold createTable, ddb_CreateTable. cbn [c_TableName].
  change (driver_schema _) with true. cbn [negb].
  destruct (faults w) as [|[e|] fs]; try (split; [done|by left]).
  - destruct (tables w !! table) eqn:Ht; [split; [done|by left]|].
    split; [done|]. right. done.
  - destruct (tables w !! table) eqn:Ht; [split; [done|by left]|].
    split; [done|]. right. done.
Qed.

(** X21: whatever the requests meet, [CreateDdbTable] keeps every
    table that is there with all its records: the only change it can make
    to the tables is to add the empty table [table]. *)
Theorem CreateDdbTable_keeps_tables (paging : list string → list (list string))
    (table : string) (w : World) :
  tables (CreateDdbTable paging table w).2 = tables w ∨
  tables w !! table = None ∧
  tables (CreateDdbTable paging table w).2 = <[table := ∅]> (tables w).
Proof.
  unfold CreateDdbTable, isTableExits, ddb_ListTablesPages. unfold_M.
  match goal with
  | |- context [EachPage ?pages ?fn ?s w] =>
      pose proof (EachPage_world pages fn s w) as [Ht _];
      destruct (EachPage pages fn s w) as [[[|]|e|e] w1]
  end; cbn [snd] in Ht; cbn [snd]; try (by left).
  pose proof (createTable_world table w1) as [_ Hc].
  destruct (createTable table w1) as [[[]|e|e] w2]; cbn [snd] in *.
  - unfold Println, Printf. cbn [tables faults stdout].
    match goal with
    | |- context [waitUntilTableExists table ?w3] =>
        pose proof (waitUntilTableExists_world table w3) as [Hw _];
        destruct (waitUntilTableExists table w3) as [[[]|e|e] w4]
    end; cbn [snd tables] in *; rewrite Hw, <- Ht; exact Hc.
  - rewrite <- Ht. exact Hc.
  - rewrite <- Ht. exact Hc.
Qed.

(** X22: when the request that creates the table fails,
    [CreateDdbTable] returns its error, creates nothing and prints nothing.
    A failed request of the wait does not end the wait: the waiter asks
    again, and when a request succeeds within its 25 attempts
    [CreateDdbTable] succeeds with its three lines printed; when all 25
    fail, it returns the error of the waiter, and the table stays created
    with the first two lines printed.  (The table is not there; the pages
    together name every table; the requests before meet no failure.) *)
Theorem CreateDdbTable_request_fails
    (paging : list string → list (list string))
    (table : string) (w : World) :
  (∀ names name, name ∈ concat (paging names) ↔ name ∈ names) →
  tables w !! table = None →
  (∀ e rest,
     quiet (listing_requests paging table w) w = true →
     drop (listing_requests paging table w) (faults w) = Some e :: rest →
     ∃ w', CreateDdbTable paging table w = (Err e, w') ∧
           tables w' = tables w ∧ stdout w' = stdout w) ∧
  (∀ k,
     quiet (listing_requests paging table w + 1) w = true →
     failing k (after_requests (listing_requests paging table w + 1) w)
       = true →
     (k < 25)%nat →
     quiet 1 (after_requests (listing_requests paging table w + 1 + k) w)
       = true →
     ∃ w', CreateDdbTable paging table w = (Ok tt, w') ∧
           tables w' = <[table := ∅]> (tables w) ∧
           stdout w' = (stdout w ++ creating_lines ++ [created_line])%list ∧
           faults w'
           = drop (listing_requests paging table w + k + 2) (faults w)) ∧
  (quiet (listing_requests paging table w + 1) w = true →
   failing 25 (after_requests (listing_requests paging table w + 1) w)
     = true →
   ∃ e w', CreateDdbTable paging table w = (Err e, w') ∧
           tables w' = <[table := ∅]> (tables w) ∧
           stdout w' = (stdout w ++ creating_lines)%list).
Proof.
  intros Hpaging Hnone.
  assert (quiet (listing_requests paging table w + 1) w = true →
          CreateDdbTable paging table w
          = match waitUntilTableExists table
                    {| tables := <[table := ∅]> (tables w);
                       faults := drop (listing_requests paging table w + 1)
                                   (faults w);
                       stdout := (stdout w ++ creating_lines)%list |} with
            | (Ok _, w') =>
                (Ok tt, {| tables := tables w'; faults := faults w';
                           stdout := (stdout w' ++ [created_line])%list |})
            | (Err e, w') => (Err e, w')
            | (Panic e, w') => (Panic e, w')
            end) as Hsteps.
  { intros Hq.
    pose proof (quiet_le _ _ _ Hq) as Hqn.
    pose proof (quiet_after _ _ _ Hq) as Hq1.
    unfold CreateDdbTable. unfold_M.
    rewrite isTableExits_run by done.
    rewrite bool_decide_eq_false_2 by (rewrite Hnone; by intros [? ?]).
    rewrite createTable_run by done.
    unfold Println, Printf, creating_lines, created_line.
    cbn [tables faults stdout with_table advance after_requests].
    rewrite drop_tail, <- app_assoc. cbn [app].
    by destruct (waitUntilTableExists table _) as [[[]|e|e] w']. }
  split; [|split].
  - intros e rest Hq Hf. eexists. split.
    + unfold CreateDdbTable. unfold_M.
      rewrite isTableExits_run by done.
      rewrite bool_decide_eq_false_2 by (rewrite Hnone; by intros [? ?]).
      by rewrite (createTable_fault _ _ e rest).
    + done.
  - intros k Hq Hf Hk Hq1. rewrite (Hsteps Hq).
    rewrite (waitUntilTableExists_retry k).
    + eexists. split; [reflexivity|]. cbn [tables faults stdout after_requests].
      split; [done|]. split; [by rewrite <- app_assoc|].
      rewrite drop_drop. f_equal. lia.
    + exact Hf.
    + exact Hk.
    + unfold quiet, after_requests in *. cbn [faults] in *.
      by rewrite drop_drop.
    + cbn [tables]. rewrite lookup_insert_eq. by eexists.
  - intros Hq Hf. rewrite (Hsteps Hq).
    rewrite waitUntilTableExists_exhausted by exact Hf.
    eexists _, _. split; [reflexivity|]. done.
Qed.

Lemma CreateDdbTable_request_fails_witness :
  (∃ w', CreateDdbTable (λ names, [names]) "fresh"
           {| tables := {[ Stub.store := Stub.seeded ]};
              faults := [None; Some "RequestError: send request failed"];
              stdout := [] |}
         = (Err "RequestError: send request failed", w') ∧
         tables w' = {[ Stub.store := Stub.seeded ]} ∧ stdout w' = []) ∧
  (∃ w', CreateDdbTable (λ names, [names]) "fresh"
           {| tables := {[ Stub.store := Stub.seeded ]};
              faults := [None; None; Some "RequestError: send request failed"];
              stdout := [] |}
         = (Ok tt, w') ∧
         tables w' = <["fresh" := ∅]> {[ Stub.store := Stub.seeded ]} ∧
         stdout w' = (creating_lines ++ [created_line])%list ∧
         faults w' = []) ∧
  (∃ e w', CreateDdbTable (λ names, [names]) "fresh"
             {| tables := {[ Stub.store := Stub.seeded ]};
                faults := [None; None]
                          ++ replicate 25
                               (Some "RequestError: send request failed");
                stdout := [] |}
           = (Err e, w') ∧
           tables w' = <["fresh" := ∅]> {[ Stub.store := Stub.seeded ]} ∧
           stdout w' = creating_lines).
Proof.
  split; [|split].
  - refine (proj1 (CreateDdbTable_request_fails (λ names, [names]) "fresh"
                     {| tables := {[ Stub.store := Stub.seeded ]};
                        faults := [None; Some "RequestError: send request failed"];
                        stdout := [] |}
                     one_page_complete _)
              "RequestError: send request failed" [] _ _); reflexivity.
  - refine (proj1 (proj2 (CreateDdbTable_request_fails (λ names, [names])
                     "fresh"
                     {| tables := {[ Stub.store := Stub.seeded ]};
                        faults := [None; None;
                                   Some "RequestError: send request failed"];
                        stdout := [] |}
                     one_page_complete _)) 1%nat _ _ _ _);
      first [reflexivity | lia].
  - refine (proj2 (proj2 (CreateDdbTable_request_fails (λ names, [names])
                     "fresh"
                     {| tables := {[ Stub.store := Stub.seeded ]};
                        faults := [None; None]
                                  ++ replicate 25
                                       (Some "RequestError: send request failed");
                        stdout := [] |}
                     one_page_complete _)) _ _); reflexivity.
Defined.

(** ** The list command *)

Lemma ListSecrets_run (table : string) (w : World) t :
  quiet 1 w = true → tables w !! table = Some t →
  ListSecrets table w = (Ok ((map_to_list t).*1), advance w).
Proof.
  intros Hq Ht. unfold ListSecrets, ddb_Scan. unfold_M.
  cbn [s_TableName s_Filter s_ProjectionExpression].
  rewrite (request_read table _ w t) by done. cbn [s_Items].
  by rewrite collect_all.
Qed.

Lemma name_len_loop_bounds (entries : list (string * string)) (m : Z) :
  let r := foldl (λ max_len (entry : string * string),
                    let name_len := Z.of_nat (String.length entry.1) in
                    if max_len <? name_len then name_len else max_len)
                 m entries in
  m ≤ r ∧
  (∀ entry, entry ∈ entries → Z.of_nat (String.length entry.1) ≤ r) ∧
  (r = m ∨ ∃ entry, entry ∈ entries ∧ Z.of_nat (String.length entry.1) = r).
Proof.
  revert m. induction entries as [|entry entries IH]; intros m; cbn.
  - split; [lia|]. split; [|by left]. intros entry Hin. by apply elem_of_nil in Hin.
  - destruct (IH (if m <? Z.of_nat (String.length entry.1)
                  then Z.of_nat (String.length entry.1) else m))
      as (Hle & Hall & Hatt).
    cbn zeta in *.
    destruct (Z.ltb_spec m (Z.of_nat (String.length entry.1))) as [Hlt|Hge].
    + split; [lia|]. split.
      * intros entry' [->|Hin]%elem_of_cons; [lia|by apply Hall].
      * right. destruct Hatt as [->|(entry' & Hin & Heq)].
        -- exists entry. split; [by left|done].
        -- exists entry'. split; [by right|done].
    + split; [lia|]. split.
      * intros entry' [->|Hin]%elem_of_cons; [lia|by apply Hall].
      * destruct Hatt as [->|(entry' & Hin & Heq)]; [by left|].
        right. exists entry'. split; [by right|done].
Qed.

Lemma longer_max (m n : Z) : (if m <? n then n else m) = Z.max m n.
Proof. destruct (Z.ltb_spec m n); lia. Qed.

Lemma maxNameLen_loop_perm (l l' : list (string * string)) :
  l ≡ₚ l' → maxNameLen_loop l = maxNameLen_loop l'.
Proof.
  unfold maxNameLen_loop. generalize 0.
  intros m Hp. revert m.
  induction Hp as [|x l l' Hp IH|x y l|l1 l2 l3 Hp1 IH1 Hp2 IH2]; intros m.
  - done.
  - cbn. apply IH.
  - cbn. f_equal. rewrite !longer_max. lia.
  - by rewrite IH1.
Qed.

(** X23: [maxNameLen] is the greatest length in bytes among the names:
    no name is longer, a name of that length is among them unless there is
    none (then it is 0), and the order in which the map is gone through
    does not matter. *)
Theorem maxNameLen_greatest
    (range_names range_names' : list (string * string) → list (string * string))
    (items : list (string * string)) :
  (∀ l, range_names l ≡ₚ l) →
  (∀ l, range_names' l ≡ₚ l) →
  (∀ entry, entry ∈ items →
     Z.of_nat (String.length entry.1) ≤ maxNameLen range_names items) ∧
  (items = [] → maxNameLen range_names items = 0) ∧
  (items ≠ [] →
   ∃ entry, entry ∈ items ∧
            Z.of_nat (String.length entry.1) = maxNameLen range_names items) ∧
  maxNameLen range_names' items = maxNameLen range_names items.
Proof.
  intros Hp Hp'. unfold maxNameLen.
  rewrite (maxNameLen_loop_perm _ _ (Hp items)).
  rewrite (maxNameLen_loop_perm _ _ (Hp' items)).
  destruct (name_len_loop_bounds items 0) as (Hle & Hall & Hatt).
  cbn zeta in *. fold (maxNameLen_loop items) in *.
  split; [done|]. split; [by intros ->|]. split; [|done].
  intros Hne. destruct Hatt as [H0|Hatt]; [|done].
  destruct items as [|entry items]; [done|].
  exists entry. split; [by left|].
  pose proof (Hall entry (list_elem_of_here _ _)). lia.
Qed.

Lemma maxNameLen_greatest_witness :
  (∀ entry, entry ∈ [("foo", "1"); ("quux", "2")] →
     Z.of_nat (String.length entry.1)
     ≤ maxNameLen (λ l, l) [("foo", "1"); ("quux", "2")]) ∧
  (∃ entry, entry ∈ [("foo", "1"); ("quux", "2")] ∧
            Z.of_nat (String.length entry.1)
            = maxNameLen (λ l, l) [("foo", "1"); ("quux", "2")]) ∧
  maxNameLen (@rev _) [("foo", "1"); ("quux", "2")]
  = maxNameLen (λ l, l) [("foo", "1"); ("quux", "2")].
Proof.
  destruct (maxNameLen_greatest (λ l, l) (@rev _)
              [("foo", "1"); ("quux", "2")]
              (λ l, Permutation_refl l)
              (λ l, Permutation_sym (Permutation_rev l)))
    as (Hle & _ & Hattained & Horder).
  split; [exact Hle|]. split; [|exact Horder].
  apply Hattained. discriminate.
Defined.

Lemma render_cons (max_len : Z) (name version : string)
    (rest : list (string * string)) (lines : list string) :
  render max_len ((name, version) :: rest) lines
  = match Atoi version with
    | Ok ver => render max_len rest (lines ++ [list_line max_len name ver])
    | Err e | Panic e => Panic e
    end.
Proof. reflexivity. Qed.

Lemma render_ok (max_len : Z) (entries : list (string * string))
    (lines : list string) :
  (∀ entry, entry ∈ entries → ∃ ver, Atoi entry.2 = Ok ver) →
  render max_len entries lines
  = Ok (lines ++ (line_of max_len <$> entries))%list.
Proof.
  revert lines. induction entries as [|[name version] entries IH];
    intros lines Hall.
  - cbn. by rewrite app_nil_r.
  - destruct (Hall (name, version) (list_elem_of_here _ _)) as [ver Hver].
    cbn [snd] in Hver. rewrite render_cons, Hver.
    rewrite IH by (intros entry Hin; apply Hall; by right).
    rewrite fmap_cons, <- app_assoc.
    assert (line_of max_len (name, version) = list_line max_len name ver)
      as ->; [|done].
    unfold line_of, version_number. cbn [fst snd]. by rewrite Hver.
Qed.

Lemma render_panics (max_len : Z) (entries : list (string * string))
    (lines : list string) (entry : string * string) :
  entry ∈ entries → (∀ ver, Atoi entry.2 ≠ Ok ver) →
  ∃ e, render max_len entries lines = Panic e.
Proof.
  intros Hin Hbad. revert lines.
  induction entries as [|[name version] entries IH]; intros lines.
  - by apply elem_of_nil in Hin.
  - rewrite render_cons. destruct (Atoi version) as [ver|e|e] eqn:Hver;
      [|by eexists..].
    apply elem_of_cons in Hin as [->|Hin].
    + by destruct (Hbad ver).
    + by apply IH.
Qed.

Lemma print_lines_run (lines : list string) (w : World) :
  print_lines lines w
  = (Ok tt, {| tables := tables w; faults := faults w;
               stdout := (stdout w ++ printed lines)%list |}).
Proof.
  revert w. induction lines as [|line lines IH]; intros w.
  - cbn. unfold printed. cbn. rewrite app_nil_r. by destruct w.
  - cbn [print_lines]. unfold Println, Printf. unfold_M.
    rewrite IH. unfold printed. cbn. by rewrite <- app_assoc.
Qed.

(** X24: when the scan of [ListSecrets] fails, because the request
    fails or because the table is not there, the list command returns 1,
    writes the error after [error: ] on os.Stderr and writes nothing on
    os.Stdout. *)
Theorem Run_scan_fails
    (range_names range_items : list (string * string) → list (string * string))
    (table : string) (args : list string) (c : Console) (e : string) :
  (∃ rest, faults (console_world c) = Some e :: rest) ∨
  (quiet 1 (console_world c) = true ∧
   tables (console_world c) !! table = None ∧ e = ResourceNotFound) →
  Run range_names range_items table args c
  = (Ok 1, {| console_world := advance (console_world c);
              stderr := (stderr c ++ ["error: " +:+ e +:+ newline])%list |}).
Proof.
  intros Hfail. unfold Run.
  assert (ListSecrets table (console_world c)
          = (Err e, advance (console_world c))) as ->; [|done].
  unfold ListSecrets, ddb_Scan. unfold_M.
  cbn [s_TableName s_Filter s_ProjectionExpression].
  destruct Hfail as [[rest Hf]|(Hq & Ht & ->)].
  - by rewrite (request_failing _ _ _ e rest).
  - by rewrite request_no_table.
Qed.

Lemma Run_scan_fails_witness :
  Run (λ l, l) (λ l, l) "no-such-table" []
    {| console_world := Stub.world Stub.seeded; stderr := [] |}
  = (Ok 1, {| console_world := advance (Stub.world Stub.seeded);
              stderr := ([] ++ ["error: " +:+ ResourceNotFound +:+ newline])%list |}).
Proof.
  apply (Run_scan_fails (λ l, l) (λ l, l) "no-such-table" []
           {| console_world := Stub.world Stub.seeded; stderr := [] |}
           ResourceNotFound).
  right. split; [reflexivity|]. split; reflexivity.
Defined.

(** X25: when a stored version is not a decimal integer, the list
    command panics; it has written no line by then, on os.Stdout or
    os.Stderr, whatever the order of the map.  (The request meets no
    failure.) *)
Theorem Run_version_panics
    (range_names range_items : list (string * string) → list (string * string))
    (table : string) (args : list string) (c : Console) t
    (name version : string) :
  (∀ l, range_items l ≡ₚ l) →
  quiet 1 (console_world c) = true →
  tables (console_world c) !! table = Some t →
  is_Some (t !! (name, version)) →
  (∀ ver, Atoi version ≠ Ok ver) →
  ∃ e, Run range_names range_items table args c
       = (Panic e, {| console_world := advance (console_world c);
                      stderr := stderr c |}).
Proof.
  intros Hp Hq Ht [a Ha] Hbad. unfold Run.
  rewrite (ListSecrets_run _ _ t) by done.
  destruct (render_panics (maxNameLen range_names (map_to_list t).*1)
              (range_items (map_to_list t).*1) [] (name, version))
    as [e He]; [| done |].
  - rewrite Hp. apply list_elem_of_fmap. exists ((name, version), a).
    split; [done|]. by apply elem_of_map_to_list.
  - exists e. by rewrite He.
Qed.

Lemma Run_version_panics_witness :
  ∃ e, Run (λ l, l) (λ l, l) Stub.store []
         {| console_world :=
              Stub.world (list_to_map [Stub.row "foo" "1"; Stub.row "bar" "abc"]);
            stderr := [] |}
       = (Panic e,
          {| console_world :=
               advance (Stub.world
                          (list_to_map [Stub.row "foo" "1"; Stub.row "bar" "abc"]));
             stderr := [] |}).
Proof.
  apply (Run_version_panics (λ l, l) (λ l, l) Stub.store []
           {| console_world :=
                Stub.world (list_to_map [Stub.row "foo" "1"; Stub.row "bar" "abc"]);
              stderr := [] |}
           (list_to_map [Stub.row "foo" "1"; Stub.row "bar" "abc"])
           "bar" "abc").
  - intros l. reflexivity.
  - reflexivity.
  - reflexivity.
  - exists ∅. reflexivity.
  - intros ver. vm_compute. discriminate.
Defined.

(** X26: when every stored version is a decimal integer, the list
    command returns 0 and prints one line per stored key (name, version):
    the name padded to the greatest length of a name, [ -- version: ] and
    the number of the version; the lines come in ascending order of their
    bytes, and the output does not depend on the orders in which the map is
    gone through.  (The request meets no failure.) *)
Theorem Run_prints_sorted
    (range_names range_items range_names' range_items'
       : list (string * string) → list (string * string))
    (table : string) (args : list string) (c : Console) t :
  (∀ l, range_names l ≡ₚ l) → (∀ l, range_items l ≡ₚ l) →
  (∀ l, range_names' l ≡ₚ l) → (∀ l, range_items' l ≡ₚ l) →
  quiet 1 (console_world c) = true →
  tables (console_world c) !! table = Some t →
  (∀ name version, is_Some (t !! (name, version)) →
                   ∃ ver, Atoi version = Ok ver) →
  ∃ lines,
    Run range_names range_items table args c
    = (Ok 0,
       {| console_world :=
            {| tables := tables (console_world c);
               faults := tail (faults (console_world c));
               stdout := (stdout (console_world c) ++ printed lines)%list |};
          stderr := stderr c |}) ∧
    Sorted String.le lines ∧
    lines ≡ₚ line_of (maxNameLen_loop (map_to_list t).*1)
               <$> (map_to_list t).*1 ∧
    Run range_names' range_items' table args c
    = Run range_names range_items table args c.
Proof.
  intros Hn Hi Hn' Hi' Hq Ht Hall.
  set (items := (map_to_list t).*1).
  assert (∀ range_items0 : list (string * string) → list (string * string),
            (∀ l, range_items0 l ≡ₚ l) →
            ∀ entry, entry ∈ range_items0 items → ∃ ver, Atoi entry.2 = Ok ver)
    as Hparse.
  { intros r Hr [name version]. rewrite Hr. intros Hin.
    apply list_elem_of_fmap in Hin as ([k a] & Hk & Hin). cbn in Hk. subst k.
    apply elem_of_map_to_list in Hin. apply (Hall name version). by exists a. }
  assert (∀ range_names0 range_items0
            : list (string * string) → list (string * string),
            (∀ l, range_names0 l ≡ₚ l) → (∀ l, range_items0 l ≡ₚ l) →
            Run range_names0 range_items0 table args c
            = (Ok 0,
               {| console_world :=
                    {| tables := tables (console_world c);
                       faults := tail (faults (console_world c));
                       stdout := (stdout (console_world c)
                                  ++ printed (sort_Strings
                                       (line_of (maxNameLen_loop items)
                                          <$> items)))%list |};
                  stderr := stderr c |})) as Hrun.
  { intros rn ri Hrn Hri. unfold Run.
    rewrite (ListSecrets_run _ _ t) by done. fold items.
    rewrite render_ok by by apply Hparse.
    rewrite print_lines_run. cbn [app advance tables faults stdout].
    unfold maxNameLen. rewrite (maxNameLen_loop_perm _ _ (Hrn items)).
    assert (sort_Strings (line_of (maxNameLen_loop items) <$> ri items)
            = sort_Strings (line_of (maxNameLen_loop items) <$> items))
      as ->; [|done].
    unfold sort_Strings. apply (Sorted_unique String.le).
    - apply Sorted_merge_sort; apply _.
    - apply Sorted_merge_sort; apply _.
    - rewrite !merge_sort_Permutation. by rewrite (Hri items). }
  exists (sort_Strings (line_of (maxNameLen_loop items) <$> items)).
  split; [by apply Hrun|]. split; [|split].
  - apply Sorted_merge_sort; apply _.
  - apply merge_sort_Permutation.
  - by rewrite !Hrun.
Qed.

Lemma Run_prints_sorted_witness :
  ∃ lines,
    Run (λ l, l) (λ l, l) Stub.store []
      {| console_world := Stub.world Stub.seeded; stderr := [] |}
    = (Ok 0,
       {| console_world :=
            {| tables := tables (Stub.world Stub.seeded);
               faults := tail (faults (Stub.world Stub.seeded));
               stdout := (stdout (Stub.world Stub.seeded) ++ printed lines)%list |};
          stderr := [] |}) ∧
    Sorted String.le lines ∧
    lines ≡ₚ line_of (maxNameLen_loop (map_to_list Stub.seeded).*1)
               <$> (map_to_list Stub.seeded).*1 ∧
    Run (@rev _) (@rev _) Stub.store []
      {| console_world := Stub.world Stub.seeded; stderr := [] |}
    = Run (λ l, l) (λ l, l) Stub.store []
        {| console_world := Stub.world Stub.seeded; stderr := [] |}.
Proof.
  apply (Run_prints_sorted (λ l, l) (λ l, l) (@rev _) (@rev _) Stub.store []
           {| console_world := Stub.world Stub.seeded; stderr := [] |}
           Stub.seeded).
  - intros l. reflexivity.
  - intros l. reflexivity.
  - intros l. apply Permutation_sym, Permutation_rev.
  - intros l. apply Permutation_sym, Permutation_rev.
  - reflexivity.
  - reflexivity.
  - intros name version Hsome.
    assert ((name, version) ∈ [("foo", "1"); ("foo", "2"); ("bar", "1")]) as Hin.
    { destruct Hsome as [a Ha].
      apply elem_of_list_to_map_2 in Ha.
      apply list_elem_of_fmap_2 with (f := fst) in Ha. exact Ha. }
    repeat (apply elem_of_cons in Hin as [Hin|Hin];
            [injection Hin as -> ->; eexists; vm_compute; reflexivity|]).
    by apply elem_of_nil in Hin.
Defined.

Lemma length_append (s t : string) :
  String.length (s +:+ t) = (String.length s + String.length t)%nat.
Proof. induction s as [|c s IH]; simpl; [done|by rewrite IH]. Qed.

Lemma length_spaces (n : nat) : String.length (spaces n) = n.
Proof. induction n as [|n IH]; cbn; [done|by rewrite IH]. Qed.

Lemma count_runes_le (s : list N) (skip : nat) :
  (count_runes skip s ≤ length s)%nat.
Proof.
  revert skip. induction s as [|c s IH]; intros skip; cbn; [lia|].
  destruct skip as [|k].
  - pose proof (IH (rune_size c s - 1)%nat). lia.
  - pose proof (IH k). lia.
Qed.

Lemma RuneCountInString_le (s : string) :
  (RuneCountInString s ≤ String.length s)%nat.
Proof.
  unfold RuneCountInString.
  pose proof (count_runes_le (N_of_ascii <$> list_ascii_of_string s) 0) as Hle.
  rewrite length_fmap in Hle.
  assert (length (list_ascii_of_string s) = String.length s) as <-; [|done].
  clear Hle. induction s as [|c s IH]; cbn; [done|by rewrite IH].
Qed.

Lemma RuneCountInString_ascii (s : string) :
  ascii_only s = true → RuneCountInString s = String.length s.
Proof.
  unfold RuneCountInString, ascii_only.
  induction s as [|c s IH]; [done|].
  cbn [list_ascii_of_string forallb fmap list_fmap count_runes String.length].
  intros [Hc Hs]%andb_true_iff.
  unfold rune_size. rewrite Hc. cbn [Nat.sub]. f_equal. by apply IH.
Qed.

(** X27: in a line of the list command the name is followed by
    blanks up to the greatest length of a name: as many as that length is
    greater than the number of runes of the name, none cut off; for a name
    of bytes below 0x80 the padded name has exactly that length in bytes,
    so that [ -- version: ] starts in the same column. *)
Theorem fmt_left_aligned
    (range_names : list (string * string) → list (string * string))
    (items : list (string * string)) (entry : string * string) :
  (∀ l, range_names l ≡ₚ l) →
  entry ∈ items →
  ∃ pad : nat,
    fmt_left (maxNameLen range_names items) entry.1 = entry.1 +:+ spaces pad ∧
    Z.of_nat (RuneCountInString entry.1) + Z.of_nat pad
    = maxNameLen range_names items ∧
    (ascii_only entry.1 = true →
     Z.of_nat (String.length (fmt_left (maxNameLen range_names items) entry.1))
     = maxNameLen range_names items).
Proof.
  intros Hp Hin. unfold maxNameLen.
  rewrite (maxNameLen_loop_perm _ _ (Hp items)).
  destruct (name_len_loop_bounds items 0) as (_ & Hall & _).
  cbn zeta in Hall. fold (maxNameLen_loop items) in Hall.
  specialize (Hall entry Hin).
  pose proof (RuneCountInString_le entry.1) as Hle.
  eexists. split; [reflexivity|]. split; [lia|].
  intros Hascii. unfold fmt_left.
  rewrite length_append, length_spaces, (RuneCountInString_ascii _ Hascii).
  lia.
Qed.

Lemma fmt_left_aligned_witness :
  ∃ pad : nat,
    fmt_left (maxNameLen (λ l, l) [("foo", "1"); ("quux", "2")]) "foo"
    = "foo" +:+ spaces pad ∧
    Z.of_nat (RuneCountInString "foo") + Z.of_nat pad
    = maxNameLen (λ l, l) [("foo", "1"); ("quux", "2")] ∧
    Z.of_nat (String.length
                (fmt_left (maxNameLen (λ l, l) [("foo", "1"); ("quux", "2")])
                   "foo"))
    = maxNameLen (λ l, l) [("foo", "1"); ("quux", "2")].
Proof.
  destruct (fmt_left_aligned (λ l, l) [("foo", "1"); ("quux", "2")]
              ("foo", "1") (λ l, Permutation_refl l)
              (list_elem_of_here _ _))
    as (pad & Htext & Hpad & Hascii).
  exists pad. split; [exact Htext|]. split; [exact Hpad|].
  apply Hascii. reflexivity.
Defined.
